(** * bsqmods: the catalog builder of [scripts/combine.ts]

    A shallow embedding of [processQmod] and of the top-level catalog loop,
    with the file system, the Hash Cache and the record of the calls made to
    the outside world threaded explicitly.

    Conventions.
    - A JavaScript string is the list of its UTF-16 code units ([jsstring]).
    - A field that is [null], [undefined] or missing reads as [None].
    - The file system holds regular files only (path -> contents); a call
      of [fs] neither fails on a file that is there nor on a directory.
    - Helpers imported from modules that are not part of [scripts/combine.ts]
      and the Node/Deno/npm libraries are fields of [Env].
    - The Hash Cache, which [getQmodHashes] of [./shared/getQmodHashes.ts]
      returns, is taken as the spec describes it: a map from URL to hash
      that is looked up by exact match.
    - The mod files are taken as enumerated, read and parsed; what the loop
      prints to the console is left out.
    - The catalog is a plain object: under a game version named like a
      property of [Object.prototype] it reads that property, not a list.
    - [mod] is an infix operator here, so the parameter [mod] of the source
      is called [modInfo], as in its documentation comment. *)

From Stdlib Require Import NArith ZArith List String Ascii Lia.
From stdpp Require Import base option list gmap strings fin_maps.

Local Open Scope list_scope.

(** ** JavaScript strings *)

Definition jsstring := list N.
Definition bytes := list Init.Byte.byte.

(** A literal of the source text, as code units. *)
Definition lit (s : string) : jsstring :=
  List.map N_of_ascii (list_ascii_of_string s).
Arguments lit : simpl never.

(** [WhiteSpace] and [LineTerminator] of ECMAScript: what [String.prototype.trim]
    removes. *)
Definition isWhiteSpace (c : N) : bool :=
  ((9 <=? c) && (c <=? 13) || (c =? 32) || (c =? 160) || (c =? 5760)
   || (8192 <=? c) && (c <=? 8202) || (c =? 8232) || (c =? 8233)
   || (c =? 8239) || (c =? 8287) || (c =? 12288) || (c =? 65279))%N.

Fixpoint trimStart (s : jsstring) : jsstring :=
  match s with
  | [] => []
  | c :: s' => if isWhiteSpace c then trimStart s' else s
  end.

Definition trimEnd (s : jsstring) : jsstring := rev (trimStart (rev s)).

(** [s.trim()] *)
Definition trim (s : jsstring) : jsstring := trimEnd (trimStart s).

(** [s.substring(n)] *)
Definition substring (n : nat) (s : jsstring) : jsstring := drop n s.

(** [s.startsWith(p)] *)
Fixpoint startsWith (p s : jsstring) : bool :=
  match p, s with
  | [], _ => true
  | a :: p', b :: s' => (a =? b)%N && startsWith p' s'
  | _ :: _, [] => false
  end.

(** Truthiness of a value of type [string | null | undefined]. *)
Definition truthy (v : option jsstring) : bool :=
  match v with
  | Some (_ :: _) => true
  | _ => false
  end.

(** [v || ""] *)
Definition orEmpty (v : option jsstring) : jsstring :=
  match v with
  | Some s => s
  | None => []
  end.

(** [a || b] *)
Definition jsOr (a b : option jsstring) : option jsstring :=
  if truthy a then a else b.

(** Modelled from the spec: [isNullOrWhitespace] is imported from
    [../shared/isNullOrWhitespace.ts], which is not part of the sources at
    hand; the spec calls the values it accepts "blank-or-missing". *)
Definition isNullOrWhitespace (v : option jsstring) : bool :=
  match v with
  | None => true
  | Some s => bool_decide (trim s = [])
  end.

(** ** Data model *)

(** [Mod]: an object with string-or-null fields. [m !! k = None] is a missing
    key, [Some None] an explicit [null]. *)
Abbreviation Mod := (gmap string (option jsstring)).

(** [mod[key]] / [mod.key] *)
Definition get (m : Mod) (key : string) : option jsstring :=
  default None (m !! key).

(** [QmodResult] *)
Record QmodResult := mkQmodResult {
  messages : list jsstring;
  errors : list jsstring;
  warnings : list jsstring;
  hash : option jsstring
}.

(** [JSZipObject]: an archive entry *)
Record ZipEntry := mkZipEntry {
  entryName : jsstring;
  entryData : bytes
}.

(** An opened archive: [zip.file(name)] is [zip !! name]. *)
Abbreviation Zip := (gmap jsstring bytes).

Definition zipFile (zip : Zip) (name : jsstring) : option ZipEntry :=
  mkZipEntry name <$> zip !! name.

(** What the code reads of the parsed manifest. *)
Record Manifest := mkManifest {
  coverImageFilename : option jsstring;
  coverImage : option jsstring
}.

(** Calls that leave the process or change the disk, in the order made. *)
Inductive event :=
| EvCheckUrl (url : jsstring)
| EvDownload (url path : jsstring)
| EvMkdir (path : jsstring)
| EvReadFile (path : jsstring)
| EvLoadZip (path : jsstring)
| EvReadManifest (name : jsstring)
| EvExtractCover (name : jsstring)
| EvFetchBuffer (url : jsstring)
| EvSharp (dest : jsstring)
| EvUnlink (path : jsstring)
| EvWriteFile (path : jsstring).

(** The mutable world of a run: the disk, the Hash Cache ([hashes]) and the
    calls made so far. *)
Record World := mkWorld {
  fsys : gmap jsstring bytes;
  hashes : gmap jsstring jsstring;
  trace : list event
}.

(** A call that returns or throws. *)
Inductive Result (A : Type) :=
| Ok (a : A)
| Throw (msg : jsstring).
Arguments Ok {A} a.
Arguments Throw {A} msg.

(** ** The environment of a run

    Command line, the constants of [./shared/paths.ts], [modKeys],
    [validModLoaders], and the helpers and libraries the script calls. An
    answer that can change during a run takes the current world, whose trace
    grows with every call. *)
Record Env := mkEnv {
  args : list jsstring;
  repoDir : jsstring;
  modsPath : jsstring;
  qmodsPath : jsstring;
  coversPath : jsstring;
  hashesPath : jsstring;
  allModsPath : jsstring;
  modKeys : list string;
  validModLoaders : list jsstring;
  (** [getFilename(id, version, gameVersion, basePath, extension)] *)
  getFilename : jsstring -> jsstring -> jsstring -> jsstring -> jsstring -> jsstring;
  computeBufferSha1 : bytes -> jsstring;
  (** [checkUrl(url)] *)
  checkUrl : World -> jsstring -> bool;
  (** [downloadFile(url, path)]: the hash or [null], and the disk it leaves *)
  downloadFile : World -> jsstring -> jsstring -> option jsstring * gmap jsstring bytes;
  (** [fetchAsBuffer(url)]: a buffer, [null], or a rejection *)
  fetchAsBuffer : World -> jsstring -> Result (option bytes);
  (** [path.join], [path.basename], [path.dirname] *)
  pathJoin : jsstring -> jsstring -> jsstring;
  pathBasename : jsstring -> jsstring;
  pathDirname : jsstring -> jsstring;
  (** [JSZip.loadAsync(buffer)]; [None] when it rejects *)
  loadZip : bytes -> option Zip;
  (** [JSON.parse(await infoFile.async("text"))] and the reads of its two
      cover fields; [None] when any of them throws *)
  readManifest : bytes -> option Manifest;
  (** [coverFile.async("arraybuffer")]; [None] when it rejects *)
  entryArrayBuffer : bytes -> option bytes;
  (** [sharp(buffer).rotate().resize(512, 512, ...).png(...)]: the encoded
      image that [toFile] writes, or the error's message *)
  sharpPng : bytes -> Result bytes;
  (** [JSON.stringify(hashes, null, "  ")], [JSON.stringify(allMods, null, "  ")] *)
  stringifyHashes : gmap jsstring jsstring -> bytes;
  stringifyMods : gmap jsstring (list Mod) -> bytes;
  (** whether the runtime keeps the accessor [__proto__] of
      [Object.prototype] (Node does; Deno removes it unless it is started
      with [--unstable-unsafe-proto]) *)
  protoAccessor : bool
}.

(** ** World updates *)

Definition logEvent (e : event) (w : World) : World :=
  mkWorld (fsys w) (hashes w) (trace w ++ [e]).

Definition setFsys (fs : gmap jsstring bytes) (w : World) : World :=
  mkWorld fs (hashes w) (trace w).

Definition setHashes (hs : gmap jsstring jsstring) (w : World) : World :=
  mkWorld (fsys w) hs (trace w).

(** [fs.existsSync(path)] *)
Definition existsSync (w : World) (path : jsstring) : bool :=
  bool_decide (is_Some (fsys w !! path)).

(** [output.errors.push(msg)], [output.warnings.push(msg)],
    [output.messages.push(msg)], [output.hash = h] *)
Definition pushError (msg : jsstring) (o : QmodResult) : QmodResult :=
  mkQmodResult (messages o) (errors o ++ [msg]) (warnings o) (hash o).

Definition pushWarning (msg : jsstring) (o : QmodResult) : QmodResult :=
  mkQmodResult (messages o) (errors o) (warnings o ++ [msg]) (hash o).

Definition pushMessage (msg : jsstring) (o : QmodResult) : QmodResult :=
  mkQmodResult (messages o ++ [msg]) (errors o) (warnings o) (hash o).

Definition setHash (h : jsstring) (o : QmodResult) : QmodResult :=
  mkQmodResult (messages o) (errors o) (warnings o) (Some h).

(** ** Command line (lines 33-43, 59, 71) *)

Definition skipHashes (E : Env) : bool :=
  bool_decide (lit "--skipHashes" ∈ args E).

Definition recheckUrls (E : Env) : bool :=
  bool_decide (lit "--recheckUrls" ∈ args E).

Definition baseHrefArg : jsstring := lit "--baseHref=".

Definition urlBase (E : Env) : jsstring :=
  match List.find (startsWith baseHrefArg) (args E) with
  | Some arg => substring (length baseHrefArg) arg
  | None => lit "."
  end.

(** ** processQmod (lines 51-216) *)

(** [path.join(coversPath, `${qmodHash}.png`)] *)
Definition coverFilenameOf (E : Env) (qmodHash : jsstring) : jsstring :=
  pathJoin E (coversPath E) (qmodHash ++ lit ".png").

(** [`${urlBase}/covers/${path.basename(coverFilename)}`] *)
Definition coverUrl (E : Env) (coverFilename : jsstring) : jsstring :=
  urlBase E ++ lit "/covers/" ++ pathBasename E coverFilename.

(** Lines 70-79: with [--recheckUrls], a cached hash whose URL no longer
    answers is dropped, from the variable and from the cache. *)
Definition recheck (E : Env) (download : jsstring) (qmodHash : option jsstring)
    (w : World) : option jsstring * World :=
  match qmodHash with
  | Some h =>
      if recheckUrls E then
        let w1 := logEvent (EvCheckUrl download) w in
        if checkUrl E w download then (Some h, w1)
        else (None, setHashes (delete download (hashes w1)) w1)
      else (Some h, w)
  | None => (None, w)
  end.

(** Line 142: [zip.file("bmbfmod.json") || zip.file("mod.json")] *)
Definition manifestEntry (zip : Zip) : option ZipEntry :=
  match zipFile zip (lit "bmbfmod.json") with
  | Some infoFile => Some infoFile
  | None => zipFile zip (lit "mod.json")
  end.

(** Line 147: [json.coverImageFilename || json.coverImage] *)
Definition declaredCover (json : Manifest) : option jsstring :=
  jsOr (coverImageFilename json) (coverImage json).

(** Lines 139-176: open the archive at [qmodPath], find the manifest and the
    cover entry it declares. [inl] is an early [return output]; [inr] carries
    [coverFile] on to line 178. *)
Definition inspectArchive (E : Env) (qmodPath : jsstring) (content : bytes)
    (output : QmodResult) (w : World)
    : (QmodResult * World) + (option ZipEntry * QmodResult * World) :=
  let w1 := logEvent (EvLoadZip qmodPath) (logEvent (EvReadFile qmodPath) w) in
  match loadZip E content with
  | None =>
      let w2 := logEvent (EvUnlink qmodPath) w1 in
      inl (pushError (lit "Reading archive") output,
           setFsys (delete qmodPath (fsys w2)) w2)
  | Some zip =>
      match manifestEntry zip with
      | None => inl (pushError (lit "No info json") output, w1)
      | Some infoFile =>
          let w2 := logEvent (EvReadManifest (entryName infoFile)) w1 in
          match readManifest E (entryData infoFile) with
          | None =>
              inl (pushError (lit "Processing " ++ entryName infoFile) output, w2)
          | Some json =>
              let coverImageFilename := declaredCover json in
              if negb (isNullOrWhitespace coverImageFilename)
                 && negb (bool_decide (coverImageFilename = Some (lit "undefined")))
              then
                match zipFile zip (orEmpty coverImageFilename) with
                | Some coverFile => inr (Some coverFile, output, w2)
                | None =>
                    inr (None,
                         pushWarning
                           (lit "Cover file not found: "
                            ++ pathJoin E
                                 (substring (length (qmodsPath E) + 1) qmodPath)
                                 (orEmpty coverImageFilename))
                           output,
                         w2)
                end
              else inr (None, output, w2)
          end
      end
  end.

(** Lines 178-188: the cover bytes, from the archive entry or else from the
    mod's cover URL. *)
Definition fetchCoverBuffer (E : Env) (coverFile : option ZipEntry) (modInfo : Mod)
    (output : QmodResult) (w : World) : option bytes * QmodResult * World :=
  match coverFile with
  | Some coverFile =>
      let w1 := logEvent (EvExtractCover (entryName coverFile)) w in
      match entryArrayBuffer E (entryData coverFile) with
      | Some buffer => (Some buffer, output, w1)
      | None => (None, pushWarning (lit "Error fetching cover buffer") output, w1)
      end
  | None =>
      if truthy (get modInfo "cover") then
        let url := orEmpty (get modInfo "cover") in
        let w1 := logEvent (EvFetchBuffer url) w in
        match fetchAsBuffer E w url with
        | Ok buffer => (buffer, output, w1)
        | Throw _ =>
            (None, pushWarning (lit "Error fetching cover buffer") output, w1)
        end
      else (None, output, w)
  end.

(** Lines 190-213: write the normalized cover unless a file is already at
    [coverFilename], then point [mod.cover] at it. *)
Definition linkCover (E : Env) (coverBuffer : option bytes)
    (coverFilename : jsstring) (modInfo : Mod) (output : QmodResult) (w : World)
    : Mod * QmodResult * World :=
  match coverBuffer with
  | None => (modInfo, output, w)
  | Some buffer =>
      if existsSync w coverFilename then
        (<["cover" := Some (coverUrl E coverFilename)]> modInfo, output, w)
      else
        let w1 := logEvent (EvSharp coverFilename)
                    (logEvent (EvMkdir (coversPath E)) w) in
        match sharpPng E buffer with
        | Ok png =>
            (<["cover" := Some (coverUrl E coverFilename)]> modInfo, output,
             setFsys (<[coverFilename := png]> (fsys w1)) w1)
        | Throw message =>
            (modInfo,
             pushWarning message
               (pushWarning (lit "Error processing cover file") output),
             w1)
        end
  end.

(** Lines 103-118: the hash of the package, from the local file when there is
    one and from a download otherwise. *)
Definition obtainHash (E : Env) (download qmodPath : jsstring) (w : World)
    : option jsstring * World :=
  match fsys w !! qmodPath with
  | Some content =>
      (Some (computeBufferSha1 E content), logEvent (EvReadFile qmodPath) w)
  | None =>
      let '(qmodHash, fs') := downloadFile E w download qmodPath in
      (qmodHash, logEvent (EvDownload download qmodPath) (setFsys fs' w))
  end.

Definition emptyResult : QmodResult := mkQmodResult [] [] [] None.

(** Lines 103-109: [getFilename(mod.id, mod.version, gameVersion, qmodsPath, "qmod")] *)
Definition qmodPathOf (E : Env) (modInfo : Mod) (gameVersion : jsstring) : jsstring :=
  getFilename E (orEmpty (get modInfo "id")) (orEmpty (get modInfo "version"))
    gameVersion (qmodsPath E) (lit "qmod").

(** Lines 51-216. Returns the outcome together with the mod record, whose
    [cover] the call may have set, and the world it leaves; [Throw] is one of
    the four [throw new Error(...)]. *)
Definition processQmod (E : Env) (modInfo : Mod) (gameVersion : jsstring) (w : World)
    : Result (QmodResult * Mod * World) :=
  let output := emptyResult in
  if skipHashes E then Ok (output, modInfo, w) else
  let download := orEmpty (get modInfo "download") in
  let qmodHash :=
    if truthy (get modInfo "download") then hashes w !! download else None in
  if negb (truthy (get modInfo "download")) then Throw (lit "Mod download not set.") else
  let '(qmodHash, w) := recheck E download qmodHash w in
  match qmodHash with
  | Some qmodHash =>
      (* We've already processed this, don't do it again. *)
      let output := setHash qmodHash output in
      let coverFilename := coverFilenameOf E qmodHash in
      if existsSync w coverFilename then
        Ok (output, <["cover" := Some (coverUrl E coverFilename)]> modInfo, w)
      else Ok (output, modInfo, w)
  | None =>
      if negb (truthy (get modInfo "id")) then Throw (lit "Mod ID not set") else
      if negb (truthy (get modInfo "version")) then Throw (lit "Mod version not set") else
      if negb (truthy (get modInfo "download")) then Throw (lit "Mod download not set") else
      let qmodPath := qmodPathOf E modInfo gameVersion in
      let w := logEvent (EvMkdir (pathDirname E qmodPath)) w in
      let output := pushMessage download output in
      let '(qmodHash, w) := obtainHash E download qmodPath w in
      match qmodHash with
      | None => Ok (pushError (lit "Not found") output, modInfo, w)
      | Some qmodHash =>
          let w := setHashes (<[download := qmodHash]> (hashes w)) w in
          let output := setHash qmodHash output in
          match fsys w !! qmodPath with
          | None => Ok (pushError (lit "Local file not found") output, modInfo, w)
          | Some content =>
              match inspectArchive E qmodPath content output w with
              | inl (output, w) => Ok (output, modInfo, w)
              | inr (coverFile, output, w) =>
                  let '(coverBuffer, output, w) :=
                    fetchCoverBuffer E coverFile modInfo output w in
                  let '(modInfo, output, w) :=
                    linkCover E coverBuffer (coverFilenameOf E qmodHash)
                      modInfo output w in
                  Ok (output, modInfo, w)
              end
          end
      end
  end.

(** ** The catalog loop (lines 219-327) *)

(** How the processing of the run goes on after a step. *)
Inductive Outcome (A : Type) :=
| Continue (st : A)
| Exited (status : Z) (msg : jsstring) (st : A)
| Threw (msg : jsstring).
Arguments Continue {A} st.
Arguments Exited {A} status msg st.
Arguments Threw {A} msg.

(** Modelled from the spec: [exitWithError] is imported from
    [./shared/exitWithError.ts], which is not part of the sources at hand; by
    the spec a fatal validation failure "terminates the entire run immediately
    with a non-zero status and a descriptive message". [st] is the state the
    run is abandoned in. *)
Definition exitWithError {A : Type} (msg : jsstring) (st : A) : Outcome A :=
  Exited 1 msg st.

(** [world]: disk, Hash Cache and calls; [allMods]: the catalog being built,
    as the properties the object has of its own. *)
Record RunState := mkRunState {
  world : World;
  allMods : gmap jsstring (list Mod)
}.

(** Line 27: [allMods] is created as [{}], a plain object. Reading a property
    that it does not have of its own finds the property of that name of
    [Object.prototype], if there is one. These are the names that ECMAScript
    gives to the properties of [Object.prototype] (20.1.3 and B.2.2), apart
    from [__proto__]; each holds a function, so the value read is truthy and
    has no [push]. *)
Definition objectPrototypeKeys : list jsstring :=
  lit <$> ["constructor"; "hasOwnProperty"; "isPrototypeOf";
           "propertyIsEnumerable"; "toLocaleString"; "toString"; "valueOf";
           "__defineGetter__"; "__defineSetter__"; "__lookupGetter__";
           "__lookupSetter__"].

(** [key] names a property that a plain object inherits. [__proto__] reads
    as [Object.prototype] itself, an object without [push], where the runtime
    keeps that accessor. *)
Definition inherited (E : Env) (key : jsstring) : bool :=
  bool_decide (key ∈ objectPrototypeKeys)
  || (protoAccessor E && bool_decide (key = lit "__proto__")).

(** The message of the TypeError that [mods.push(...)] throws at line 294
    when [mods] is not a list. *)
Definition pushTypeError : jsstring := lit "mods.push is not a function".

(** Lines 277-286 *)
Definition normalizeField (v : option jsstring) : option jsstring :=
  let t := trim (orEmpty v) in
  if bool_decide (t = []) then None else Some t.

Definition normalizeMod (keys : list string) (modInfo : Mod) : Mod :=
  foldl (fun uniformMod key => <[key := normalizeField (get modInfo key)]> uniformMod)
        ∅ keys.

(** Lines 238-239: [modPath.substring(repoDir.length + 1)] *)
Definition shortModPathOf (E : Env) (version modFilename : jsstring) : jsstring :=
  let versionPath := pathJoin E (modsPath E) version in
  let modPath := pathJoin E versionPath modFilename in
  substring (length (repoDir E) + 1) modPath.

(** Lines 241-247 and 250: the canonical path, cut the same way *)
Definition requiredShortPath (E : Env) (version : jsstring) (modInfo : Mod)
    : jsstring :=
  let requiredFilename :=
    getFilename E (orEmpty (get modInfo "id")) (orEmpty (get modInfo "version"))
      version (modsPath E) (lit "json") in
  substring (length (repoDir E) + 1) requiredFilename.

Definition requiredFields : list string := ["name"; "id"; "version"; "download"].

(** Line 271 *)
Definition modLoaderInvalid (E : Env) (modInfo : Mod) : bool :=
  match get modInfo "modloader" with
  | None => true
  | Some modloader => negb (bool_decide (modloader ∈ validModLoaders E))
  end.

(** Lines 288-299: the admission gate, for a game version whose list [mods]
    is in the catalog; [processEntry] has the other case of line 294. *)
Definition settle (version : jsstring) (errs : list jsstring) (uniformMod : Mod)
    (st : RunState) : RunState :=
  let download := orEmpty (get uniformMod "download") in
  if bool_decide (errs = []) then
    let uniformMod :=
      if truthy (get uniformMod "download")
      then <["hash" := hashes (world st) !! download]> uniformMod
      else uniformMod in
    mkRunState (world st)
      (<[version := default [] (allMods st !! version) ++ [uniformMod]]> (allMods st))
  else
    if truthy (get uniformMod "download")
    then mkRunState (setHashes (delete download (hashes (world st))) (world st))
           (allMods st)
    else st.

(** Line 321 *)
Definition persistHashes (E : Env) (st : RunState) : RunState :=
  let w := logEvent (EvWriteFile (hashesPath E)) (world st) in
  mkRunState
    (setFsys (<[hashesPath E := stringifyHashes E (hashes w)]> (fsys w)) w)
    (allMods st).

(** Lines 249-273: the three fatal checks, in order. [Some msg] is a call of
    [exitWithError(msg)]. *)
Definition validate (E : Env) (version modFilename : jsstring) (modInfo : Mod)
    : option jsstring :=
  let shortModPath := shortModPathOf E version modFilename in
  if negb (bool_decide (shortModPath = requiredShortPath E version modInfo)) then
    Some (lit "Mod filename is not what it should be.  " ++ shortModPath
          ++ lit " should be " ++ requiredShortPath E version modInfo)
  else
    match List.find (fun field => isNullOrWhitespace (get modInfo field))
            requiredFields with
    | Some field => Some (lit "Mod " ++ lit field ++ lit " not set")
    | None =>
        if modLoaderInvalid E modInfo then Some (lit "Mod loader is invalid")
        else None
    end.

(** Line 294, [mods.push(uniformMod)], throws: the outcome has no error and
    [mods], bound at line 228, is not a list of the catalog but a property
    that the catalog inherits. *)
Definition pushThrows (version : jsstring) (errs : list jsstring) (st : RunState)
    : bool :=
  bool_decide (errs = []) && bool_decide (allMods st !! version = None).

(** Lines 238-322: the body of the inner loop, for the mod read from
    [modFilename]. The diagnostics printed to the console are left out. *)
Definition processEntry (E : Env) (version : jsstring) (entry : jsstring * Mod)
    (st : RunState) : Outcome RunState :=
  let '(modFilename, modInfo) := entry in
  match validate E version modFilename modInfo with
  | Some msg => exitWithError msg st
  | None =>
      match processQmod E modInfo version (world st) with
      | Throw msg => Threw msg
      | Ok (qmodResult, modInfo, w) =>
          let uniformMod := normalizeMod (modKeys E) modInfo in
          if pushThrows version (errors qmodResult) st then Threw pushTypeError
          else
            Continue
              (persistHashes E
                 (settle version (errors qmodResult) uniformMod
                    (mkRunState w (allMods st))))
      end
  end.

(** Lines 237-322 *)
Fixpoint runFiles (E : Env) (version : jsstring) (files : list (jsstring * Mod))
    (st : RunState) : Outcome RunState :=
  match files with
  | [] => Continue st
  | entry :: rest =>
      match processEntry E version entry st with
      | Continue st' => runFiles E version rest st'
      | stop => stop
      end
  end.

(** Line 228: [allMods[version] || (allMods[version] = [])]. A list, also an
    empty one, is truthy, and so is an inherited property: the empty list is
    stored only under a name that the catalog neither has nor inherits. *)
Definition enterVersion (E : Env) (version : jsstring) (st : RunState) : RunState :=
  match allMods st !! version with
  | Some _ => st
  | None =>
      if inherited E version then st
      else mkRunState (world st) (<[version := []]> (allMods st))
  end.

(** Lines 226-323, over the enumerated tree: each game version with its mod
    files, read and parsed. *)
Fixpoint runVersions (E : Env) (tree : list (jsstring * list (jsstring * Mod)))
    (st : RunState) : Outcome RunState :=
  match tree with
  | [] => Continue st
  | (version, files) :: rest =>
      match runFiles E version files (enterVersion E version st) with
      | Continue st' => runVersions E rest st'
      | stop => stop
      end
  end.

(** The whole script, from the Hash Cache and disk in [w]. *)
Definition run (E : Env) (tree : list (jsstring * list (jsstring * Mod)))
    (w : World) : Outcome RunState :=
  match runVersions E tree (mkRunState w ∅) with
  | Continue st =>
      let w1 := logEvent (EvWriteFile (allModsPath E))
                  (logEvent (EvMkdir (pathDirname E (allModsPath E))) (world st)) in
      Continue
        (mkRunState
           (setFsys (<[allModsPath E := stringifyMods E (allMods st)]> (fsys w1)) w1)
           (allMods st))
  | stop => stop
  end.

(** ** A small concrete environment

    Used to run the model: paths are joined with a slash, a package is "Z"
    followed by one byte naming its content, and the network is a table. *)
Module Example.

Definition join (a b : jsstring) : jsstring := a ++ lit "/" ++ b.

Fixpoint basename (p : jsstring) : jsstring :=
  match p with
  | [] => []
  | c :: p' => if bool_decide (47%N ∈ p') then basename p' else
               if (c =? 47)%N then p' else p
  end.

Definition filename (id version gameVersion basePath extension : jsstring)
    : jsstring :=
  join (join basePath gameVersion) (id ++ lit "-" ++ version ++ lit "." ++ extension).

Definition sha (content : bytes) : jsstring :=
  lit "h" ++ List.map Byte.to_N content.

Definition content (s : string) : bytes := list_byte_of_string s.

(** Entries of the package "Z" (x5a) followed by [kind], a digit "0" (x30)
    to "4" (x34). *)
Definition archive (kind : Init.Byte.byte) : Zip :=
  match kind with
  | Init.Byte.x30 => ∅
  | Init.Byte.x31 => {[ lit "mod.json" := content "none" ]}
  | Init.Byte.x32 => {[ lit "mod.json" := content "cover";
                   lit "cover.png" := content "img" ]}
  | Init.Byte.x33 => {[ lit "mod.json" := content "blank";
                   lit "cover.png" := content "img" ]}
  | Init.Byte.x34 => {[ lit "mod.json" := content "cover" ]}
  | _ => {[ lit "bmbfmod.json" := content "{" ]}
  end.

Definition unzip (b : bytes) : option Zip :=
  match b with
  | Init.Byte.x5a :: kind :: _ => Some (archive kind)
  | _ => None
  end.

Definition manifest (b : bytes) : option Manifest :=
  let text := List.map Byte.to_N b in
  if bool_decide (text = lit "none") then Some (mkManifest None None)
  else if bool_decide (text = lit "cover")
  then Some (mkManifest (Some (lit "cover.png")) None)
  else if bool_decide (text = lit "blank")
  then Some (mkManifest (Some (lit " ")) (Some (lit "cover.png")))
  else None.

Definition env (argv : list jsstring) (remote : gmap jsstring bytes) : Env :=
  {| args := argv;
     repoDir := lit "/repo";
     modsPath := lit "/repo/mods";
     qmodsPath := lit "/repo/qmods";
     coversPath := lit "/repo/covers";
     hashesPath := lit "/repo/hashes.json";
     allModsPath := lit "/repo/mods.json";
     modKeys := ["name"; "description"; "id"; "version"; "author";
                 "modloader"; "download"; "source"; "cover"; "website"];
     validModLoaders := [lit "QuestLoader"; lit "Scotland2"];
     getFilename := filename;
     computeBufferSha1 := sha;
     checkUrl := fun _ url => bool_decide (is_Some (remote !! url));
     downloadFile := fun w url path =>
       match remote !! url with
       | Some b => (Some (sha b), <[path := b]> (fsys w))
       | None => (None, fsys w)
       end;
     fetchAsBuffer := fun _ url =>
       match remote !! url with
       | Some b => Ok (Some b)
       | None => Throw (lit "fetch failed")
       end;
     pathJoin := join;
     pathBasename := basename;
     pathDirname := fun p => take (length p - S (length (basename p))) p;
     loadZip := unzip;
     readManifest := manifest;
     entryArrayBuffer := Some;
     sharpPng := Ok;
     stringifyHashes := fun _ => [];
     stringifyMods := fun _ => [];
     protoAccessor := false |}.

(** A mod record with the required fields. *)
Definition record (name id version download : string) : Mod :=
  {[ "name" := Some (lit name); "id" := Some (lit id);
     "version" := Some (lit version); "download" := Some (lit download);
     "modloader" := Some (lit "Scotland2") ]}.

Definition emptyWorld : World := mkWorld ∅ ∅ [].

Definition gameVersion : jsstring := lit "1.37".
Definition fooUrl : jsstring := lit "http://x/foo.qmod".
Definition fooPath : jsstring := lit "/repo/qmods/1.37/foo-1.0.qmod".
Definition fooFile : jsstring := lit "foo-1.0.json".

(** The scenario of the spec: mod [foo] 1.0, its URL cached as [abc123], and
    the cover of that hash on disk. *)
Definition foo : Mod := record "Foo" "foo" "1.0" "http://x/foo.qmod".

Definition cachedWorld : World :=
  mkWorld {[ lit "/repo/covers/abc123.png" := content "png" ]}
          {[ fooUrl := lit "abc123" ]} [].

(** The network serves the package [pkg] at foo's URL and nothing else. *)
Definition serving (pkg : string) : Env := env [] {[ fooUrl := content pkg ]}.

Definition onDisk (disk : gmap jsstring bytes) : World := mkWorld disk ∅ [].

(** The world at line 137 when foo's package [pkg] was downloaded onto
    [disk]; the one at line 117 is the same with an empty cache. *)
Definition downloaded (disk : gmap jsstring bytes) (pkg : string)
    (cache : gmap jsstring jsstring) : World :=
  mkWorld (<[fooPath := content pkg]> disk) cache
    [EvMkdir (lit "/repo/qmods/1.37"); EvDownload fooUrl fooPath].

Definition cachedAs (pkg : string) : gmap jsstring jsstring :=
  {[ fooUrl := sha (content pkg) ]}.

(** A record with spaces around its name and an empty description. *)
Definition spaced : Mod :=
  <["description" := Some []]> (record "  Foo " "foo" "1.0" "http://x/foo.qmod").

(** The same mod file under two game versions, hence twice the same
    download URL, with one package per game version. *)
Definition nextVersion : jsstring := lit "1.38".
Definition fooPathNext : jsstring := lit "/repo/qmods/1.38/foo-1.0.qmod".

Definition twoVersions : list (jsstring * list (jsstring * Mod)) :=
  [(gameVersion, [(fooFile, foo)]); (nextVersion, [(fooFile, foo)])].

Definition fooTree : list (jsstring * list (jsstring * Mod)) :=
  [(gameVersion, [(fooFile, foo)])].

(** What a finished run left: the cache entry under [url], and the field
    [key] of the records in the catalog of [version]. *)
Definition finalHash (o : Outcome RunState) (url : jsstring) : option jsstring :=
  match o with
  | Continue st => hashes (world st) !! url
  | _ => None
  end.

Definition finalField (o : Outcome RunState) (version : jsstring) (key : string)
    : list (option jsstring) :=
  match o with
  | Continue st => (fun u => get u key) <$> default [] (allMods st !! version)
  | _ => []
  end.

Definition finalNames (o : Outcome RunState) (version : jsstring)
    : list (option jsstring) :=
  finalField o version "name".

End Example.

(** ** Notions used in the statements *)

(** The parts of what a call of [processQmod] returned. *)
Definition outcomeOf (r : Result (QmodResult * Mod * World)) : option QmodResult :=
  match r with Ok (output, _, _) => Some output | Throw _ => None end.

Definition modOf (r : Result (QmodResult * Mod * World)) : option Mod :=
  match r with Ok (_, modInfo, _) => Some modInfo | Throw _ => None end.

Definition worldOf (r : Result (QmodResult * Mod * World)) : option World :=
  match r with Ok (_, _, w) => Some w | Throw _ => None end.

(** What a cache hit on [download], cached as [h], amounts to: the outcome
    carries [h] and nothing else, the disk and the cache are as before, the
    only call made is the liveness probe that [--recheckUrls] asks for, and
    [mod.cover] is pointed at [covers/{h}.png] exactly when that file exists. *)
Definition cacheHitOutcome (E : Env) (modInfo : Mod) (gameVersion : jsstring)
    (w : World) (download h : jsstring) : Prop :=
  ∃ output modInfo' w',
    processQmod E modInfo gameVersion w = Ok (output, modInfo', w')
    ∧ hash output = Some h ∧ errors output = [] ∧ warnings output = []
    ∧ fsys w' = fsys w ∧ hashes w' = hashes w
    ∧ trace w' = trace w ++ (if recheckUrls E then [EvCheckUrl download] else [])
    ∧ modInfo' = if existsSync w (coverFilenameOf E h)
                 then <["cover" := Some (coverUrl E (coverFilenameOf E h))]> modInfo
                 else modInfo.

(** [processQmod] misses the cache and gets the package, from disk or by
    download: [h] is its hash, [content] what is then on disk at the package
    path, and [w1] the world at line 137, with [h] cached under the URL. *)
Definition packageObtained (E : Env) (modInfo : Mod) (gameVersion : jsstring)
    (w : World) (h : jsstring) (content : bytes) (w1 : World) : Prop :=
  let download := orEmpty (get modInfo "download") in
  let qmodPath := qmodPathOf E modInfo gameVersion in
  skipHashes E = false
  ∧ truthy (get modInfo "id") = true
  ∧ truthy (get modInfo "version") = true
  ∧ truthy (get modInfo "download") = true
  ∧ ∃ w0 w0',
      recheck E download (hashes w !! download) w = (None, w0)
      ∧ obtainHash E download qmodPath
          (logEvent (EvMkdir (pathDirname E qmodPath)) w0) = (Some h, w0')
      ∧ w1 = setHashes (<[download := h]> (hashes w0')) w0'
      ∧ fsys w1 !! qmodPath = Some content.

(** [output] at line 137: the URL as message, the hash set. *)
Definition hashedOutput (modInfo : Mod) (h : jsstring) : QmodResult :=
  setHash h (pushMessage (orEmpty (get modInfo "download")) emptyResult).

(** The world once the archive at [qmodPath] was read and opened, and once
    the manifest entry [name] was read as well. *)
Definition archiveOpened (qmodPath : jsstring) (w : World) : World :=
  logEvent (EvLoadZip qmodPath) (logEvent (EvReadFile qmodPath) w).

Definition manifestRead (qmodPath name : jsstring) (w : World) : World :=
  logEvent (EvReadManifest name) (archiveOpened qmodPath w).

(** The warning of lines 156-161 for the declared cover [name]. *)
Definition coverNotFoundWarning (E : Env) (qmodPath name : jsstring) : jsstring :=
  lit "Cover file not found: "
  ++ pathJoin E (substring (length (qmodsPath E) + 1) qmodPath) name.

(** The events of [w'] that [w] does not have yet. *)
Definition newEvents (w w' : World) : list event :=
  drop (length (trace w)) (trace w').

(** The download URL of an enumerated mod file, as written in it. *)
Definition entryDownload (entry : jsstring * Mod) : jsstring :=
  orEmpty (get entry.2 "download").

(** The download URLs of a tree, in processing order. *)
Definition treeDownloads (tree : list (jsstring * list (jsstring * Mod)))
    : list jsstring :=
  tree ≫= (fun versionFiles => entryDownload <$> versionFiles.2).

(** The run after a step: the files [rest] still to come in the version, then
    the versions still to come. *)
Definition restOfRun (E : Env) (version : jsstring) (rest : list (jsstring * Mod))
    (tree : list (jsstring * list (jsstring * Mod))) (st : RunState)
    : Outcome RunState :=
  match runFiles E version rest st with
  | Continue st' => runVersions E tree st'
  | stop => stop
  end.

Definition laterDownloads (rest : list (jsstring * Mod))
    (tree : list (jsstring * list (jsstring * Mod))) : list jsstring :=
  (entryDownload <$> rest) ++ treeDownloads tree.

(** The record that line 294 appends for a mod left as [modInfo'] by
    [processQmod], when the Hash Cache is [hs]: the normalized record with the
    cache's value under the trimmed download URL as [hash]. *)
Definition catalogRecord (E : Env) (modInfo' : Mod) (hs : gmap jsstring jsstring)
    : Mod :=
  <["hash" := hs !! trim (orEmpty (get modInfo' "download"))]>
    (normalizeMod (modKeys E) modInfo').

(** Every record of the catalog has a hash, and the Hash Cache holds that
    hash under the record's download URL. *)
Definition catalogConsistent (st : RunState) : Prop :=
  ∀ version mods uniformMod,
    allMods st !! version = Some mods ->
    uniformMod ∈ mods ->
    ∃ download h,
      get uniformMod "download" = Some download
      ∧ get uniformMod "hash" = Some h
      ∧ hashes (world st) !! download = Some h.

(** [catalogConsistent], and no record's URL is among [pending], the URLs
    of the mods still to be processed. *)
Definition consistentApartFrom (pending : list jsstring) (st : RunState) : Prop :=
  ∀ version mods uniformMod,
    allMods st !! version = Some mods ->
    uniformMod ∈ mods ->
    ∃ download h,
      get uniformMod "download" = Some download
      ∧ get uniformMod "hash" = Some h
      ∧ hashes (world st) !! download = Some h
      ∧ download ∉ pending.

(** No liveness probe of a URL among [urls] fails: [--recheckUrls] is not
    given, or [checkUrl] finds every one of them alive. *)
Definition noDeadUrl (E : Env) (urls : list jsstring) : Prop :=
  recheckUrls E = false ∨ ∀ w url, url ∈ urls -> checkUrl E w url = true.

(** The field as the spec words it: trimmed, and [null] when absent or empty
    after trimming. *)
Definition trimmedOrNull (v : option jsstring) : option jsstring :=
  match v with
  | None => None
  | Some s => if bool_decide (trim s = []) then None else Some (trim s)
  end.

(** C8 as stated, for one call: every recognized field of the normalized
    record is the trimmed field of the mod that was passed in. *)
Definition normalizationStated (E : Env) (modInfo : Mod) (gameVersion : jsstring)
    (w : World) : Prop :=
  ∀ output modInfo' w' key,
    processQmod E modInfo gameVersion w = Ok (output, modInfo', w') ->
    key ∈ modKeys E ->
    get (normalizeMod (modKeys E) modInfo') key = trimmedOrNull (get modInfo key).

(** The fatal conditions of the spec for an enumerated mod file: stored off
    its canonical path, a required field blank or missing, or a modloader
    outside the accepted set. *)
Definition fatalEntry (E : Env) (version : jsstring) (entry : jsstring * Mod)
    : Prop :=
  shortModPathOf E version entry.1 ≠ requiredShortPath E version entry.2
  ∨ (∃ field, field ∈ requiredFields
              ∧ isNullOrWhitespace (get entry.2 field) = true)
  ∨ ¬ (∃ modloader, get entry.2 "modloader" = Some modloader
                    ∧ modloader ∈ validModLoaders E).

(** Some mod file of the tree is fatal. *)
Definition fatalTree (E : Env) (tree : list (jsstring * list (jsstring * Mod)))
    : Prop :=
  ∃ version files entry,
    (version, files) ∈ tree ∧ entry ∈ files ∧ fatalEntry E version entry.

(** C6 as stated: the declared cover name is the first of the two manifest
    fields that is not blank. *)
Definition declaredCoverStated (json : Manifest) : option jsstring :=
  match List.find (fun v => negb (isNullOrWhitespace v))
          [coverImageFilename json; coverImage json] with
  | Some name => name
  | None => None
  end.

(** ** Notions used in the further properties *)

(** The calls that reach the network for a package or a cover. *)
Definition isDownload (e : event) : bool :=
  match e with
  | EvDownload _ _ => true
  | _ => false
  end.

Definition isFetchBuffer (e : event) : bool :=
  match e with
  | EvFetchBuffer _ => true
  | _ => false
  end.

(** The calls that stay on the local disk. *)
Definition isLocalCall (e : event) : bool :=
  match e with
  | EvCheckUrl _ | EvDownload _ _ | EvFetchBuffer _ => false
  | _ => true
  end.

(** The calls that only write a result file or make a directory. *)
Definition isOutputWrite (e : event) : bool :=
  match e with
  | EvWriteFile _ | EvMkdir _ => true
  | _ => false
  end.

(** [w'] has the calls of [w], followed by calls that all satisfy [P]. *)
Definition extendsWith (P : event -> bool) (w w' : World) : Prop :=
  ∃ evs, trace w' = trace w ++ evs ∧ forallb P evs = true.

(** The file at [hashesPath] is the serialized Hash Cache. *)
Definition hashesPersisted (E : Env) (st : RunState) : Prop :=
  fsys (world st) !! hashesPath E = Some (stringifyHashes E (hashes (world st))).

(** The mod files of a tree, and its game versions, in processing order. *)
Definition treeFiles (tree : list (jsstring * list (jsstring * Mod)))
    : list (jsstring * Mod) :=
  tree ≫= snd.

Definition treeVersions (tree : list (jsstring * list (jsstring * Mod)))
    : list jsstring :=
  fst <$> tree.

(** Some game version of the tree is named like a property that a plain
    object inherits. *)
Definition inheritedVersion (E : Env)
    (tree : list (jsstring * list (jsstring * Mod))) : Prop :=
  ∃ version, version ∈ treeVersions tree ∧ inherited E version = true.

(** The record [uniformMod] carries the recognized fields of the mod file
    [entry], trimmed; [cover] and [hash], which processing sets, apart. *)
Definition recordOf (E : Env) (uniformMod : Mod) (entry : jsstring * Mod) : Prop :=
  ∀ key, key ∈ modKeys E -> key ≠ "cover" -> key ≠ "hash" ->
         get uniformMod key = trimmedOrNull (get entry.2 key).

(** The environment [E] with another [downloadFile]. *)
Definition withDownload (E : Env)
    (download : World -> jsstring -> jsstring -> option jsstring * gmap jsstring bytes)
    : Env :=
  {| args := args E;
     repoDir := repoDir E;
     modsPath := modsPath E;
     qmodsPath := qmodsPath E;
     coversPath := coversPath E;
     hashesPath := hashesPath E;
     allModsPath := allModsPath E;
     modKeys := modKeys E;
     validModLoaders := validModLoaders E;
     getFilename := getFilename E;
     computeBufferSha1 := computeBufferSha1 E;
     checkUrl := checkUrl E;
     downloadFile := download;
     fetchAsBuffer := fetchAsBuffer E;
     pathJoin := pathJoin E;
     pathBasename := pathBasename E;
     pathDirname := pathDirname E;
     loadZip := loadZip E;
     readManifest := readManifest E;
     entryArrayBuffer := entryArrayBuffer E;
     sharpPng := sharpPng E;
     stringifyHashes := stringifyHashes E;
     stringifyMods := stringifyMods E;
     protoAccessor := protoAccessor E |}.

(** * Properties *)

(** ** Strings *)

Lemma trimStart_head_not_space (s : jsstring) :
  match trimStart s with
  | [] => True
  | c :: _ => isWhiteSpace c = false
  end.
Proof.
  induction s as [|c s IH]; simpl; [exact I|].
  destruct (isWhiteSpace c) eqn:Hc; [exact IH | exact Hc].
Qed.

Lemma trimStart_fixed (s : jsstring) :
  match s with [] => True | c :: _ => isWhiteSpace c = false end ->
  trimStart s = s.
Proof. destruct s as [|c s]; simpl; [reflexivity|]. intros ->. reflexivity. Qed.

Lemma trimStart_suffix (s : jsstring) : ∃ p, s = p ++ trimStart s.
Proof.
  induction s as [|c s [p IH]]; simpl.
  - exists []. reflexivity.
  - destruct (isWhiteSpace c).
    + exists (c :: p). simpl. congruence.
    + exists []. reflexivity.
Qed.

Lemma trim_idempotent (s : jsstring) : trim (trim s) = trim s.
Proof.
  unfold trim, trimEnd.
  set (t := trimStart s).
  assert (Ht : match t with [] => True | c :: _ => isWhiteSpace c = false end)
    by apply trimStart_head_not_space.
  set (r := trimStart (rev t)).
  assert (Hr : match r with [] => True | c :: _ => isWhiteSpace c = false end)
    by apply trimStart_head_not_space.
  (* [rev r] is [t] without its trailing spaces: it still starts like [t] *)
  assert (Hfront : trimStart (rev r) = rev r).
  { destruct (trimStart_suffix (rev t)) as [p Hp]. fold r in Hp.
    destruct r as [|c r'] eqn:Er; [reflexivity|].
    assert (Et : t = rev (c :: r') ++ rev p).
    { rewrite <- (rev_involutive t), Hp, rev_app_distr. reflexivity. }
    apply trimStart_fixed.
    simpl in Et |- *. destruct (rev r') as [|a q] eqn:Eq; simpl in *.
    - exact Hr.
    - rewrite Et in Ht. exact Ht. }
  rewrite Hfront, rev_involutive. fold r.
  rewrite (trimStart_fixed r Hr). reflexivity.
Qed.

Lemma trim_nil : trim [] = [].
Proof. reflexivity. Qed.

Lemma not_blank_truthy (v : option jsstring) :
  isNullOrWhitespace v = false -> truthy v = true.
Proof.
  destruct v as [[|c s]|]; simpl; try reflexivity; discriminate.
Qed.

Lemma not_blank_trim (v : option jsstring) :
  isNullOrWhitespace v = false -> trim (orEmpty v) ≠ [].
Proof.
  destruct v as [s|]; simpl; [|discriminate].
  rewrite bool_decide_eq_false. auto.
Qed.

(** ** The stages of processQmod *)

Section Stages.
Variable E : Env.

Lemma recheck_hit download qmodHash w h w' :
  recheck E download qmodHash w = (Some h, w') ->
  qmodHash = Some h ∧ fsys w' = fsys w ∧ hashes w' = hashes w
  ∧ trace w' = trace w ++ (if recheckUrls E then [EvCheckUrl download] else []).
Proof.
  unfold recheck. intros H. repeat case_match; simplify_eq; simpl;
    rewrite ?app_nil_r; auto.
Qed.

Lemma recheck_miss download w w' :
  recheck E download (hashes w !! download) w = (None, w') ->
  hashes w' !! download = None ∧ fsys w' = fsys w
  ∧ ∀ k, k ≠ download -> hashes w' !! k = hashes w !! k.
Proof.
  unfold recheck. intros H. repeat case_match; simplify_eq; simpl.
  - split; [apply lookup_delete_eq|]. split; [reflexivity|].
    intros k Hk. apply lookup_delete_ne. congruence.
  - auto.
Qed.

Lemma obtainHash_hashes download qmodPath w qmodHash w' :
  obtainHash E download qmodPath w = (qmodHash, w') -> hashes w' = hashes w.
Proof. unfold obtainHash. intros H. repeat case_match; simplify_eq; reflexivity. Qed.

Lemma inspectArchive_reject qmodPath content output w output' w' :
  inspectArchive E qmodPath content output w = inl (output', w') ->
  hashes w' = hashes w ∧ ∃ msg, output' = pushError msg output.
Proof.
  unfold inspectArchive. intros H.
  repeat case_match; simplify_eq; simpl; eauto.
Qed.

Lemma inspectArchive_accept qmodPath content output w coverFile output' w' :
  inspectArchive E qmodPath content output w = inr (coverFile, output', w') ->
  hashes w' = hashes w ∧ fsys w' = fsys w
  ∧ errors output' = errors output ∧ hash output' = hash output.
Proof.
  unfold inspectArchive. intros H.
  repeat case_match; simplify_eq; simpl; eauto.
Qed.

Lemma fetchCoverBuffer_frame coverFile modInfo output w coverBuffer output' w' :
  fetchCoverBuffer E coverFile modInfo output w = (coverBuffer, output', w') ->
  hashes w' = hashes w ∧ fsys w' = fsys w
  ∧ errors output' = errors output ∧ hash output' = hash output.
Proof.
  unfold fetchCoverBuffer. intros H.
  repeat case_match; simplify_eq; simpl; eauto.
Qed.

Lemma linkCover_frame coverBuffer coverFilename modInfo output w modInfo' output' w' :
  linkCover E coverBuffer coverFilename modInfo output w = (modInfo', output', w') ->
  hashes w' = hashes w
  ∧ errors output' = errors output ∧ hash output' = hash output
  ∧ (modInfo' = modInfo
     ∨ modInfo' = <["cover" := Some (coverUrl E coverFilename)]> modInfo).
Proof.
  unfold linkCover. intros H.
  repeat case_match; simplify_eq; simpl; eauto 10.
Qed.

End Stages.

(** ** processQmod as a whole *)

(** Case analysis on every stage of a run of [processQmod] that returned. *)
Ltac stages H :=
  unfold processQmod in H;
  repeat match type of H with
  | context [recheck ?a ?b ?c ?d] =>
      let Hr := fresh "Hrecheck" in
      destruct (recheck a b c d) as [[?|] ?] eqn:Hr
  | context [obtainHash ?a ?b ?c ?d] =>
      let Ho := fresh "Hobtain" in
      destruct (obtainHash a b c d) as [[?|] ?] eqn:Ho
  | context [inspectArchive ?a ?b ?c ?d ?e] =>
      let Hi := fresh "Hinspect" in
      destruct (inspectArchive a b c d e) as [[? ?]|[[? ?] ?]] eqn:Hi
  | context [fetchCoverBuffer ?a ?b ?c ?d ?e] =>
      let Hf := fresh "Hfetch" in
      destruct (fetchCoverBuffer a b c d e) as [[? ?] ?] eqn:Hf
  | context [linkCover ?a ?b ?c ?d ?e ?f] =>
      let Hl := fresh "Hlink" in
      destruct (linkCover a b c d e f) as [[? ?] ?] eqn:Hl
  | _ => case_match
  end;
  simplify_eq.

Section ProcessQmod.
Variable E : Env.

(** With id, version and download set, [processQmod] returns. *)
Lemma processQmod_returns modInfo gameVersion w :
  truthy (get modInfo "id") = true ->
  truthy (get modInfo "version") = true ->
  truthy (get modInfo "download") = true ->
  ∃ output modInfo' w',
    processQmod E modInfo gameVersion w = Ok (output, modInfo', w').
Proof.
  intros Hid Hver Hdl. unfold processQmod. rewrite Hid, Hver, Hdl. simpl.
  repeat case_match; eauto.
Qed.

(** [processQmod] writes no field of the mod but [cover]. *)
Lemma processQmod_cover_only modInfo gameVersion w output modInfo' w' :
  processQmod E modInfo gameVersion w = Ok (output, modInfo', w') ->
  modInfo' = modInfo ∨ ∃ url, modInfo' = <["cover" := Some url]> modInfo.
Proof.
  intros H. stages H; eauto.
  apply linkCover_frame in Hlink as (_ & _ & _ & [-> | ->]); eauto.
Qed.

(** The only cache entry [processQmod] can change is the one under
    [mod.download]. *)
Lemma processQmod_hashes_frame modInfo gameVersion w output modInfo' w' k :
  processQmod E modInfo gameVersion w = Ok (output, modInfo', w') ->
  k ≠ orEmpty (get modInfo "download") ->
  hashes w' !! k = hashes w !! k.
Proof.
  intros H Hk. stages H; try reflexivity.
  - apply recheck_hit in Hrecheck as (_ & _ & -> & _). reflexivity.
  - apply recheck_hit in Hrecheck as (_ & _ & -> & _). reflexivity.
  - apply recheck_miss in Hrecheck as (_ & _ & Hr).
    apply inspectArchive_reject in Hinspect as (-> & _).
    apply obtainHash_hashes in Hobtain. simpl in *.
    rewrite lookup_insert_ne by congruence. rewrite Hobtain. simpl. auto.
  - apply recheck_miss in Hrecheck as (_ & _ & Hr).
    apply inspectArchive_accept in Hinspect as (Hi & _).
    apply fetchCoverBuffer_frame in Hfetch as (Hf & _).
    apply linkCover_frame in Hlink as (Hl & _).
    apply obtainHash_hashes in Hobtain. simpl in *.
    rewrite Hl, Hf, Hi. simpl.
    rewrite lookup_insert_ne by congruence. rewrite Hobtain. simpl. auto.
  - apply recheck_miss in Hrecheck as (_ & _ & Hr).
    apply obtainHash_hashes in Hobtain. simpl in *.
    rewrite lookup_insert_ne by congruence. rewrite Hobtain. simpl. auto.
  - apply recheck_miss in Hrecheck as (_ & _ & Hr).
    apply obtainHash_hashes in Hobtain. rewrite Hobtain. simpl. auto.
Qed.

Lemma pushError_not_empty msg output : errors (pushError msg output) ≠ [].
Proof. simpl. intros H. apply app_eq_nil in H as [_ H]. discriminate. Qed.

(** Without [--skipHashes], an outcome free of errors carries a hash, and
    the cache holds it under [mod.download]. *)
Lemma processQmod_success_hash modInfo gameVersion w output modInfo' w' :
  skipHashes E = false ->
  processQmod E modInfo gameVersion w = Ok (output, modInfo', w') ->
  errors output = [] ->
  ∃ h, hash output = Some h
       ∧ hashes w' !! orEmpty (get modInfo "download") = Some h.
Proof.
  intros Hskip H Herr. stages H; simpl in *;
    try (apply app_eq_nil in Herr as [_ Herr]; discriminate).
  - apply recheck_hit in Hrecheck as (Hq & _ & -> & _). eauto.
  - apply recheck_hit in Hrecheck as (Hq & _ & -> & _). eauto.
  - apply inspectArchive_reject in Hinspect as (_ & msg & ->).
    exfalso. exact (pushError_not_empty _ _ Herr).
  - apply inspectArchive_accept in Hinspect as (Hi & _ & _ & Hih).
    apply fetchCoverBuffer_frame in Hfetch as (Hf & _ & _ & Hfh).
    apply linkCover_frame in Hlink as (Hl & _ & Hlh & _).
    eexists. split.
    + rewrite Hlh, Hfh, Hih. reflexivity.
    + rewrite Hl, Hf, Hi. simpl. apply lookup_insert_eq.
Qed.

End ProcessQmod.

(** ** The loop body *)

Section Loop.
Variable E : Env.

Lemma get_insert_eq (m : Mod) key v : get (<[key := v]> m) key = v.
Proof. unfold get. rewrite lookup_insert_eq. reflexivity. Qed.

Lemma get_insert_ne (m : Mod) key key' v :
  key ≠ key' -> get (<[key := v]> m) key' = get m key'.
Proof. intros H. unfold get. rewrite lookup_insert_ne by exact H. reflexivity. Qed.

Lemma get_foldl_normalize keys (modInfo acc : Mod) key :
  get (foldl (fun uniformMod key =>
                <[key := normalizeField (get modInfo key)]> uniformMod) acc keys) key
  = if bool_decide (key ∈ keys) then normalizeField (get modInfo key)
    else get acc key.
Proof.
  revert acc. induction keys as [|k keys IH]; intros acc; cbn [foldl].
  - rewrite bool_decide_eq_false_2 by apply not_elem_of_nil. reflexivity.
  - rewrite IH. destruct (decide (key ∈ keys)) as [Hin|Hin].
    + rewrite !bool_decide_eq_true_2; [reflexivity| |exact Hin].
      apply elem_of_cons. auto.
    + rewrite (bool_decide_eq_false_2 _ Hin).
      destruct (decide (k = key)) as [->|Hne].
      * rewrite bool_decide_eq_true_2 by (apply elem_of_cons; auto).
        apply get_insert_eq.
      * rewrite bool_decide_eq_false_2.
        -- apply get_insert_ne. exact Hne.
        -- rewrite elem_of_cons. intros [?|?]; congruence.
Qed.

(** Every recognized key of the normalized record holds the trimmed field,
    [null] when that is empty; the record has no other key. *)
Lemma get_normalizeMod keys (modInfo : Mod) key :
  get (normalizeMod keys modInfo) key
  = if bool_decide (key ∈ keys) then normalizeField (get modInfo key) else None.
Proof. unfold normalizeMod. rewrite get_foldl_normalize. reflexivity. Qed.

Lemma normalizeField_not_blank v :
  isNullOrWhitespace v = false -> normalizeField v = Some (trim (orEmpty v)).
Proof.
  intros H. apply not_blank_trim in H. unfold normalizeField.
  rewrite bool_decide_eq_false_2 by exact H. reflexivity.
Qed.

Lemma validate_passed version modFilename (modInfo : Mod) :
  validate E version modFilename modInfo = None ->
  shortModPathOf E version modFilename = requiredShortPath E version modInfo
  ∧ (∀ field, field ∈ requiredFields ->
       isNullOrWhitespace (get modInfo field) = false)
  ∧ modLoaderInvalid E modInfo = false.
Proof.
  unfold validate. intros H.
  case_bool_decide as Hpath; cbn [negb] in H; [|discriminate].
  destruct (List.find _ requiredFields) eqn:Hfind; [discriminate|].
  destruct (modLoaderInvalid E modInfo) eqn:Hml; [discriminate|].
  split; [exact Hpath|]. split; [|reflexivity].
  intros field Hin. apply (find_none _ _ Hfind). apply list_elem_of_In. exact Hin.
Qed.

Lemma validate_passed_download version modFilename (modInfo : Mod) :
  validate E version modFilename modInfo = None ->
  isNullOrWhitespace (get modInfo "download") = false.
Proof.
  intros H. apply validate_passed in H as (_ & H & _). apply H.
  unfold requiredFields. set_solver.
Qed.

(** What a step that goes on has done. *)
Lemma processEntry_continue version modFilename (modInfo : Mod) st st' :
  processEntry E version (modFilename, modInfo) st = Continue st' ->
  validate E version modFilename modInfo = None
  ∧ ∃ qmodResult modInfo' w',
      processQmod E modInfo version (world st) = Ok (qmodResult, modInfo', w')
      ∧ st' = persistHashes E
                (settle version (errors qmodResult)
                   (normalizeMod (modKeys E) modInfo')
                   (mkRunState w' (allMods st))).
Proof.
  unfold processEntry, exitWithError. intros H.
  destruct (validate E version modFilename modInfo); [discriminate|].
  split; [reflexivity|].
  destruct (processQmod E modInfo version (world st)) as [[[q m] w]|]; [|discriminate].
  destruct (pushThrows version (errors q) st); [discriminate|].
  simplify_eq. eauto.
Qed.

(** A mod that passes validation is processed; the step then goes on, unless
    the mod is to be appended and the catalog has no list for the version. *)
Lemma processEntry_valid version modFilename (modInfo : Mod) st :
  validate E version modFilename modInfo = None ->
  ∃ qmodResult modInfo' w',
    processQmod E modInfo version (world st) = Ok (qmodResult, modInfo', w')
    ∧ processEntry E version (modFilename, modInfo) st
      = if pushThrows version (errors qmodResult) st then Threw pushTypeError
        else Continue
               (persistHashes E
                  (settle version (errors qmodResult)
                     (normalizeMod (modKeys E) modInfo')
                     (mkRunState w' (allMods st)))).
Proof.
  intros Hv. unfold processEntry. rewrite Hv.
  apply validate_passed in Hv as (_ & Hf & _).
  destruct (processQmod_returns E modInfo version (world st)) as (q & m & w & ->);
    [apply not_blank_truthy, Hf; unfold requiredFields; set_solver ..|].
  eauto.
Qed.

Lemma pushThrows_false version errs st :
  pushThrows version errs st = false <->
  errs ≠ [] ∨ is_Some (allMods st !! version).
Proof.
  unfold pushThrows. rewrite andb_false_iff, !bool_decide_eq_false.
  rewrite <- not_eq_None_Some. reflexivity.
Qed.

Lemma pushThrows_true version errs st :
  pushThrows version errs st = true <->
  errs = [] ∧ allMods st !! version = None.
Proof.
  unfold pushThrows. rewrite andb_true_iff, !bool_decide_eq_true. reflexivity.
Qed.

(** A step that goes on and appends found the list of the version. *)
Lemma processEntry_pushed version modFilename (modInfo : Mod) st st'
    qmodResult modInfo' w' :
  processEntry E version (modFilename, modInfo) st = Continue st' ->
  processQmod E modInfo version (world st) = Ok (qmodResult, modInfo', w') ->
  errors qmodResult = [] ->
  is_Some (allMods st !! version).
Proof.
  unfold processEntry. intros H Hp Herr. rewrite Hp in H.
  destruct (validate E version modFilename modInfo); [discriminate|].
  destruct (pushThrows version (errors qmodResult) st) eqn:Hpush; [discriminate|].
  apply pushThrows_false in Hpush as [Hne|Hsome]; [contradiction | exact Hsome].
Qed.

(** A step that goes on gives the catalog no new key. *)
Lemma processEntry_keys version (entry : jsstring * Mod) st st' v :
  processEntry E version entry st = Continue st' ->
  allMods st' !! v = None <-> allMods st !! v = None.
Proof.
  destruct entry as [modFilename modInfo]. intros Hstep.
  pose proof (processEntry_continue _ _ _ _ _ Hstep) as (_ & q & m & w' & Hp & ->).
  pose proof (processEntry_pushed _ _ _ _ _ _ _ _ Hstep Hp) as Hlist.
  unfold persistHashes, settle. cbn [allMods world].
  case_bool_decide as Herr; [|repeat case_match; reflexivity].
  cbn [allMods]. destruct (decide (version = v)) as [<-|Hne].
  - rewrite lookup_insert_eq. destruct (Hlist Herr) as [l Hl]. rewrite Hl.
    split; discriminate.
  - rewrite lookup_insert_ne by exact Hne. reflexivity.
Qed.

Lemma runFiles_keys version files st st' v :
  runFiles E version files st = Continue st' ->
  allMods st' !! v = None <-> allMods st !! v = None.
Proof.
  revert st. induction files as [|entry files IH]; intros st Hrun;
    cbn [runFiles] in Hrun.
  - simplify_eq. reflexivity.
  - destruct (processEntry E version entry st) as [st1| |] eqn:Hstep; try discriminate.
    rewrite (IH st1 Hrun). eapply processEntry_keys. exact Hstep.
Qed.

Lemma processQmod_download modInfo gameVersion w output modInfo' w' :
  processQmod E modInfo gameVersion w = Ok (output, modInfo', w') ->
  get modInfo' "download" = get modInfo "download".
Proof.
  intros H. apply processQmod_cover_only in H as [->|[url ->]]; [reflexivity|].
  apply get_insert_ne. discriminate.
Qed.

Lemma settle_hashes_frame version errs uniformMod st k :
  k ≠ orEmpty (get uniformMod "download") ->
  hashes (world (settle version errs uniformMod st)) !! k = hashes (world st) !! k.
Proof.
  intros Hk. unfold settle. repeat case_match; simpl; try reflexivity.
  apply lookup_delete_ne. congruence.
Qed.

Lemma settle_hashes_absent version errs uniformMod st k :
  hashes (world st) !! k = None ->
  hashes (world (settle version errs uniformMod st)) !! k = None.
Proof.
  intros Hk. unfold settle. repeat case_match; simpl; try exact Hk.
  rewrite lookup_delete. case_decide; [reflexivity | exact Hk].
Qed.

(** A step leaves the cache entries of other URLs alone: only the entries
    under the mod's download URL, as written and trimmed, can change. *)
Lemma processEntry_hashes_frame version modFilename (modInfo : Mod) st st' k :
  processEntry E version (modFilename, modInfo) st = Continue st' ->
  k ≠ orEmpty (get modInfo "download") ->
  k ≠ trim (orEmpty (get modInfo "download")) ->
  hashes (world st') !! k = hashes (world st) !! k.
Proof.
  intros H Hk Hkt. apply processEntry_continue in H as (Hv & q & m & w & Hp & ->).
  simpl. destruct (decide (k = orEmpty (get (normalizeMod (modKeys E) m) "download")))
    as [Heq|Hne].
  - (* that key is the trimmed URL, or the empty string *)
    rewrite get_normalizeMod in Heq. rewrite (processQmod_download _ _ _ _ _ _ Hp) in Heq.
    rewrite (normalizeField_not_blank _ (validate_passed_download _ _ _ Hv)) in Heq.
    case_bool_decide as Hkey; simpl in Heq.
    + congruence.
    + subst k. unfold settle. rewrite get_normalizeMod.
      rewrite (bool_decide_eq_false_2 _ Hkey). simpl.
      case_bool_decide; simpl; eapply processQmod_hashes_frame; eauto.
  - rewrite settle_hashes_frame by exact Hne. simpl.
    eapply processQmod_hashes_frame; eauto.
Qed.

(** A step adds no cache entry under a URL other than the mod's own. *)
Lemma processEntry_hashes_absent version modFilename (modInfo : Mod) st st' k :
  processEntry E version (modFilename, modInfo) st = Continue st' ->
  k ≠ orEmpty (get modInfo "download") ->
  hashes (world st) !! k = None ->
  hashes (world st') !! k = None.
Proof.
  intros H Hk Habs. apply processEntry_continue in H as (Hv & q & m & w & Hp & ->).
  simpl. apply settle_hashes_absent. simpl.
  rewrite (processQmod_hashes_frame _ _ _ _ _ _ _ _ Hp Hk). exact Habs.
Qed.

End Loop.

(** ** Claims about processQmod *)

(** C10. When id, version and download are not blank, as the catalog loop
    has checked before every call, none of the four [throw] statements of
    [processQmod] is reached: the call returns a [QmodResult]. *)
Theorem processQmod_never_throws (E : Env) (modInfo : Mod)
    (gameVersion : jsstring) (w : World) :
  isNullOrWhitespace (get modInfo "id") = false ->
  isNullOrWhitespace (get modInfo "version") = false ->
  isNullOrWhitespace (get modInfo "download") = false ->
  ∃ output modInfo' w',
    processQmod E modInfo gameVersion w = Ok (output, modInfo', w').
Proof.
  intros Hid Hver Hdl.
  apply processQmod_returns; apply not_blank_truthy; assumption.
Qed.

(** C3, amended. Without [--skipHashes], for a non-empty download URL that
    the Hash Cache maps to [h], and with [--recheckUrls] absent or the probe
    of the URL succeeding, [processQmod] returns [h] with no error and no
    warning, downloads and inspects nothing, and sets [mod.cover] to the URL
    of [covers/{h}.png] exactly when that file exists. *)
Theorem cache_hit (E : Env) (modInfo : Mod) (gameVersion : jsstring)
    (w : World) (download h : jsstring) :
  skipHashes E = false ->
  get modInfo "download" = Some download ->
  download ≠ [] ->
  hashes w !! download = Some h ->
  recheckUrls E = false ∨ checkUrl E w download = true ->
  cacheHitOutcome E modInfo gameVersion w download h.
Proof.
  intros Hskip Hdl Hne Hh Hlive. unfold cacheHitOutcome, processQmod.
  rewrite Hskip, Hdl. destruct download as [|c d]; [congruence|].
  cbn [truthy negb orEmpty]. rewrite Hh. unfold recheck.
  destruct (recheckUrls E) eqn:Hre.
  - destruct Hlive as [Hl|Hl]; [discriminate|]. rewrite Hl.
    change (existsSync (logEvent (EvCheckUrl (c :: d)) w) (coverFilenameOf E h))
      with (existsSync w (coverFilenameOf E h)).
    destruct (existsSync w _) eqn:Hex;
      eexists _, _, _; (split; [reflexivity|]); simpl; auto 10.
  - rewrite app_nil_r.
    destruct (existsSync w _) eqn:Hex;
      eexists _, _, _; (split; [reflexivity|]); simpl; auto 10.
Qed.

(** Once the package is there, the call is the archive inspection followed,
    unless that rejects the mod, by lines 178-215. *)
Lemma processQmod_after_package (E : Env) (modInfo : Mod) (gameVersion : jsstring)
    (w : World) (h : jsstring) (content : bytes) (w1 : World) :
  packageObtained E modInfo gameVersion w h content w1 ->
  processQmod E modInfo gameVersion w
  = match inspectArchive E (qmodPathOf E modInfo gameVersion) content
            (hashedOutput modInfo h) w1 with
    | inl (output, w2) => Ok (output, modInfo, w2)
    | inr (coverFile, output, w2) =>
        let '(coverBuffer, output, w3) :=
          fetchCoverBuffer E coverFile modInfo output w2 in
        let '(modInfo', output, w4) :=
          linkCover E coverBuffer (coverFilenameOf E h) modInfo output w3 in
        Ok (output, modInfo', w4)
    end.
Proof.
  intros (Hskip & Hid & Hver & Hdl & w0 & w0' & Hre & Hob & -> & Hfile).
  unfold processQmod. rewrite Hskip, Hid, Hver, Hdl. cbn [negb].
  rewrite Hre. cbv zeta. rewrite Hob. rewrite Hfile. reflexivity.
Qed.

Lemma settle_rejects version errs uniformMod st :
  errs ≠ [] -> allMods (settle version errs uniformMod st) = allMods st.
Proof.
  intros H. unfold settle. rewrite bool_decide_eq_false_2 by exact H.
  case_match; reflexivity.
Qed.

Lemma zipFile_None (zip : Zip) name : zip !! name = None -> zipFile zip name = None.
Proof. unfold zipFile. intros ->. reflexivity. Qed.

(** C5. Once the package is on disk: if it cannot be opened as an archive,
    the outcome has the error "Reading archive" and the local file is
    deleted; if it opens but holds neither [bmbfmod.json] nor [mod.json], the
    outcome has the error "No info json", the mod is rejected, and the disk
    is left as it was, the local file included. *)
Theorem local_file_deletion_policy (E : Env) (modInfo : Mod)
    (gameVersion : jsstring) (w : World) (h : jsstring) (content : bytes)
    (w1 : World) :
  packageObtained E modInfo gameVersion w h content w1 ->
  (loadZip E content = None ->
   ∃ output w',
     processQmod E modInfo gameVersion w = Ok (output, modInfo, w')
     ∧ errors output = [lit "Reading archive"]
     ∧ (∀ uniformMod st,
          allMods (settle gameVersion (errors output) uniformMod st) = allMods st)
     ∧ fsys w' !! qmodPathOf E modInfo gameVersion = None
     ∧ trace w'
       = trace (archiveOpened (qmodPathOf E modInfo gameVersion) w1)
         ++ [EvUnlink (qmodPathOf E modInfo gameVersion)])
  ∧ (∀ zip,
       loadZip E content = Some zip ->
       zip !! lit "bmbfmod.json" = None ->
       zip !! lit "mod.json" = None ->
       ∃ output w',
         processQmod E modInfo gameVersion w = Ok (output, modInfo, w')
         ∧ errors output = [lit "No info json"]
         ∧ (∀ uniformMod st,
              allMods (settle gameVersion (errors output) uniformMod st) = allMods st)
         ∧ fsys w' = fsys w1
         ∧ fsys w' !! qmodPathOf E modInfo gameVersion = Some content
         ∧ trace w' = trace (archiveOpened (qmodPathOf E modInfo gameVersion) w1)).
Proof.
  intros Hpkg. rewrite (processQmod_after_package _ _ _ _ _ _ _ Hpkg).
  destruct Hpkg as (_ & _ & _ & _ & w0 & w0' & _ & _ & _ & Hfile).
  unfold inspectArchive. split.
  - intros ->. eexists _, _. split; [reflexivity|]. cbn.
    split; [reflexivity|]. split; [|split; [apply lookup_delete_eq | reflexivity]].
    intros u st. case_match; reflexivity.
  - intros zip -> Hb Hm. unfold manifestEntry.
    rewrite (zipFile_None _ _ Hb), (zipFile_None _ _ Hm).
    eexists _, _. split; [reflexivity|]. cbn.
    split; [reflexivity|]. split; [|split; [reflexivity | split; [exact Hfile | reflexivity]]].
    intros u st. case_match; reflexivity.
Qed.

Lemma newEvents_app (w w' : World) (evs : list event) :
  trace w' = trace w ++ evs -> newEvents w w' = evs.
Proof. unfold newEvents. intros ->. apply drop_app_length. Qed.

Lemma fetchCoverBuffer_none_trace (E : Env) (modInfo : Mod) output w
    coverBuffer output' w' :
  fetchCoverBuffer E None modInfo output w = (coverBuffer, output', w') ->
  trace w' = trace w
  ∨ trace w' = trace w ++ [EvFetchBuffer (orEmpty (get modInfo "cover"))].
Proof. unfold fetchCoverBuffer. intros H. repeat case_match; simplify_eq; auto. Qed.

Lemma linkCover_trace (E : Env) coverBuffer coverFilename (modInfo : Mod)
    output w modInfo' output' w' :
  linkCover E coverBuffer coverFilename modInfo output w = (modInfo', output', w') ->
  trace w' = trace w
  ∨ trace w' = trace w ++ [EvMkdir (coversPath E); EvSharp coverFilename].
Proof.
  unfold linkCover. intros H.
  repeat case_match; simplify_eq; simpl; rewrite <- ?app_assoc; auto.
Qed.

(** C6, amended. The declared cover name is the first of the manifest's
    [coverImageFilename] and [coverImage] that is a non-empty string. When it
    is absent, blank or "undefined", the inspection hands on no cover entry
    and leaves the outcome as it was; when it names an entry the archive does
    not have, the inspection adds the warning and nothing else. Either way
    no entry is extracted, the outcome has no error, and the mod is admitted. *)
Theorem cover_filename_resolution (E : Env) (modInfo : Mod)
    (gameVersion : jsstring) (w : World) (h : jsstring) (content : bytes)
    (w1 : World) (zip : Zip) (infoFile : ZipEntry) (json : Manifest) :
  packageObtained E modInfo gameVersion w h content w1 ->
  loadZip E content = Some zip ->
  manifestEntry zip = Some infoFile ->
  readManifest E (entryData infoFile) = Some json ->
  declaredCover json
  = match List.find truthy [coverImageFilename json; coverImage json] with
    | Some name => name
    | None => coverImage json
    end
  ∧ (isNullOrWhitespace (declaredCover json) = true
     ∨ declaredCover json = Some (lit "undefined") ->
     inspectArchive E (qmodPathOf E modInfo gameVersion) content
       (hashedOutput modInfo h) w1
     = inr (None, hashedOutput modInfo h,
            manifestRead (qmodPathOf E modInfo gameVersion) (entryName infoFile) w1))
  ∧ (∀ name,
       declaredCover json = Some name ->
       isNullOrWhitespace (Some name) = false ->
       name ≠ lit "undefined" ->
       zip !! name = None ->
       inspectArchive E (qmodPathOf E modInfo gameVersion) content
         (hashedOutput modInfo h) w1
       = inr (None,
              pushWarning
                (coverNotFoundWarning E (qmodPathOf E modInfo gameVersion) name)
                (hashedOutput modInfo h),
              manifestRead (qmodPathOf E modInfo gameVersion) (entryName infoFile) w1))
  ∧ (isNullOrWhitespace (declaredCover json) = true
     ∨ declaredCover json = Some (lit "undefined")
     ∨ zip !! orEmpty (declaredCover json) = None ->
     ∃ output modInfo' w',
       processQmod E modInfo gameVersion w = Ok (output, modInfo', w')
       ∧ errors output = []
       ∧ (∀ name, EvExtractCover name ∉ newEvents w1 w')
       ∧ ∀ uniformMod st,
           ∃ appended,
             allMods (settle gameVersion (errors output) uniformMod st)
             = <[gameVersion := default [] (allMods st !! gameVersion) ++ [appended]]>
                 (allMods st)).
Proof.
  intros Hpkg Hzip Hinfo Hjson.
  set (qmodPath := qmodPathOf E modInfo gameVersion).
  assert (Hnone : isNullOrWhitespace (declaredCover json) = true
                  ∨ declaredCover json = Some (lit "undefined") ->
                  inspectArchive E qmodPath content (hashedOutput modInfo h) w1
                  = inr (None, hashedOutput modInfo h,
                         manifestRead qmodPath (entryName infoFile) w1)).
  { intros Hd. unfold inspectArchive. rewrite Hzip, Hinfo, Hjson. cbv zeta.
    destruct Hd as [-> | ->]; [reflexivity|].
    rewrite bool_decide_eq_true_2 by reflexivity.
    rewrite andb_false_r. reflexivity. }
  assert (Hmissing : ∀ name,
             declaredCover json = Some name ->
             isNullOrWhitespace (Some name) = false ->
             name ≠ lit "undefined" ->
             zip !! name = None ->
             inspectArchive E qmodPath content (hashedOutput modInfo h) w1
             = inr (None,
                    pushWarning (coverNotFoundWarning E qmodPath name)
                      (hashedOutput modInfo h),
                    manifestRead qmodPath (entryName infoFile) w1)).
  { intros name Hd Hnb Hne Hz. unfold inspectArchive.
    rewrite Hzip, Hinfo, Hjson. cbv zeta. rewrite Hd, Hnb.
    rewrite bool_decide_eq_false_2 by congruence.
    cbn [negb andb orEmpty]. rewrite (zipFile_None _ _ Hz). reflexivity. }
  split; [|split; [exact Hnone|split; [exact Hmissing|]]].
  { unfold declaredCover, jsOr. cbn [List.find].
    destruct (truthy (coverImageFilename json)); [reflexivity|].
    destruct (truthy (coverImage json)); reflexivity. }
  intros Hcase.
  assert (Hinspect : ∃ output2,
             inspectArchive E qmodPath content (hashedOutput modInfo h) w1
             = inr (None, output2, manifestRead qmodPath (entryName infoFile) w1)
             ∧ errors output2 = []).
  { destruct (isNullOrWhitespace (declaredCover json)) eqn:Hb.
    { eexists. split; [apply Hnone; auto | reflexivity]. }
    destruct (decide (declaredCover json = Some (lit "undefined"))) as [Hu|Hu].
    { eexists. split; [apply Hnone; auto | reflexivity]. }
    destruct Hcase as [?|[?|Hz]]; [discriminate | contradiction |].
    destruct (declaredCover json) as [name|] eqn:Hd; [|discriminate].
    eexists. split; [apply Hmissing; auto; congruence | reflexivity]. }
  destruct Hinspect as (output2 & Hinspect & Herr).
  rewrite (processQmod_after_package _ _ _ _ _ _ _ Hpkg).
  fold qmodPath. rewrite Hinspect.
  destruct (fetchCoverBuffer E None modInfo output2 _) as [[buffer output3] w3] eqn:Hfetch.
  destruct (linkCover E buffer (coverFilenameOf E h) modInfo output3 w3)
    as [[modInfo' output4] w4] eqn:Hlink.
  exists output4, modInfo', w4. split; [reflexivity|].
  pose proof (fetchCoverBuffer_frame _ _ _ _ _ _ _ _ Hfetch) as (_ & _ & Hf & _).
  pose proof (linkCover_frame _ _ _ _ _ _ _ _ _ Hlink) as (_ & Hl & _ & _).
  assert (Herr4 : errors output4 = []) by congruence.
  split; [exact Herr4|]. split.
  - intros name Hin.
    assert (Htr : ∃ evs, trace w4 = trace w1 ++ evs ∧ EvExtractCover name ∉ evs).
    { apply fetchCoverBuffer_none_trace in Hfetch.
      apply linkCover_trace in Hlink.
      unfold manifestRead, archiveOpened in Hfetch. cbn [trace logEvent] in Hfetch.
      destruct Hfetch as [Hf3|Hf3], Hlink as [Hl4|Hl4];
        rewrite Hl4, Hf3; rewrite <- ?app_assoc; eexists; (split; [reflexivity|]);
        cbn [app]; rewrite ?elem_of_cons, elem_of_nil; intros Hor;
        repeat (destruct Hor as [Hor|Hor]; [discriminate|]); exact Hor. }
    destruct Htr as (evs & Htr & Hevs).
    rewrite (newEvents_app _ _ _ Htr) in Hin. contradiction.
  - intros uniformMod st. rewrite Herr4. unfold settle.
    rewrite bool_decide_eq_true_2 by reflexivity. eexists. reflexivity.
Qed.

(** C7. When cover bytes were obtained, from the archive or from the mod's
    cover URL, and a file is already at [covers/{hash}.png], [processQmod]
    ends there, in the world in which it got the bytes (nothing decoded,
    encoded or written), with [mod.cover] set to the URL of that file; when
    no file is there, the cover is normalized and written. *)
Theorem cover_idempotence (E : Env) (modInfo : Mod) (gameVersion : jsstring)
    (w : World) (h : jsstring) (content : bytes) (w1 : World)
    (coverFile : option ZipEntry) (output2 : QmodResult) (w2 : World)
    (buffer : bytes) (output3 : QmodResult) (w3 : World) :
  packageObtained E modInfo gameVersion w h content w1 ->
  inspectArchive E (qmodPathOf E modInfo gameVersion) content
    (hashedOutput modInfo h) w1 = inr (coverFile, output2, w2) ->
  fetchCoverBuffer E coverFile modInfo output2 w2 = (Some buffer, output3, w3) ->
  (existsSync w3 (coverFilenameOf E h) = true ->
   processQmod E modInfo gameVersion w
   = Ok (output3,
         <["cover" := Some (coverUrl E (coverFilenameOf E h))]> modInfo,
         w3))
  ∧ (existsSync w3 (coverFilenameOf E h) = false ->
     ∃ output modInfo' w',
       processQmod E modInfo gameVersion w = Ok (output, modInfo', w')
       ∧ newEvents w3 w' = [EvMkdir (coversPath E); EvSharp (coverFilenameOf E h)])
  ∧ (∀ output modInfo' w',
       processQmod E modInfo gameVersion w = Ok (output, modInfo', w') ->
       EvSharp (coverFilenameOf E h) ∈ newEvents w3 w' ->
       existsSync w3 (coverFilenameOf E h) = false).
Proof.
  intros Hpkg Hinspect Hfetch.
  rewrite (processQmod_after_package _ _ _ _ _ _ _ Hpkg), Hinspect, Hfetch.
  unfold linkCover.
  destruct (existsSync w3 (coverFilenameOf E h)) eqn:Hex.
  - split; [reflexivity|]. split; [discriminate|].
    intros output modInfo' w' Hrun Hin. simplify_eq.
    rewrite (newEvents_app w' w' []) in Hin by (rewrite app_nil_r; reflexivity).
    apply elem_of_nil in Hin. contradiction.
  - split; [discriminate|]. split; [|reflexivity].
    intros _. destruct (sharpPng E buffer); eexists _, _, _;
      (split; [reflexivity|]); apply newEvents_app; simpl;
      rewrite <- app_assoc; reflexivity.
Qed.

(** ** The run after a step *)

Section Run.
Variable E : Env.

Lemma enterVersion_world version st : world (enterVersion E version st) = world st.
Proof. unfold enterVersion. repeat case_match; reflexivity. Qed.

Lemma enterVersion_other version st v :
  v ≠ version -> allMods (enterVersion E version st) !! v = allMods st !! v.
Proof.
  intros Hne. unfold enterVersion. repeat case_match; try reflexivity.
  cbn [allMods]. apply lookup_insert_ne. congruence.
Qed.

Lemma enterVersion_default version st v :
  default [] (allMods (enterVersion E version st) !! v) = default [] (allMods st !! v).
Proof.
  unfold enterVersion. destruct (allMods st !! version) eqn:Hv; [reflexivity|].
  destruct (inherited E version); [reflexivity|]. cbn [allMods].
  destruct (decide (version = v)) as [<-|Hne].
  - rewrite lookup_insert_eq, Hv. reflexivity.
  - rewrite lookup_insert_ne by exact Hne. reflexivity.
Qed.

Lemma runFiles_hashes_absent version files st st' k :
  k ∉ entryDownload <$> files ->
  hashes (world st) !! k = None ->
  runFiles E version files st = Continue st' ->
  hashes (world st') !! k = None.
Proof.
  revert st. induction files as [|[modFilename modInfo] files IH]; intros st Hk Habs Hrun.
  - simpl in Hrun. simplify_eq. exact Habs.
  - rewrite fmap_cons, not_elem_of_cons in Hk. destruct Hk as [Hne Hk].
    cbn [runFiles] in Hrun.
    destruct (processEntry E version (modFilename, modInfo) st) as [st1| |] eqn:Hstep;
      try discriminate.
    apply (IH st1 Hk); [|exact Hrun].
    eapply processEntry_hashes_absent; eauto.
Qed.

Lemma runVersions_hashes_absent tree st st' k :
  k ∉ treeDownloads tree ->
  hashes (world st) !! k = None ->
  runVersions E tree st = Continue st' ->
  hashes (world st') !! k = None.
Proof.
  revert st. induction tree as [|[version files] tree IH]; intros st Hk Habs Hrun.
  - simpl in Hrun. simplify_eq. exact Habs.
  - unfold treeDownloads in Hk. rewrite bind_cons, not_elem_of_app in Hk.
    destruct Hk as [Hfiles Htree]. cbn [runVersions] in Hrun.
    destruct (runFiles E version files (enterVersion E version st)) as [st1| |] eqn:Hfs;
      try discriminate.
    apply (IH st1 Htree); [|exact Hrun].
    eapply runFiles_hashes_absent; [exact Hfiles| |exact Hfs].
    rewrite enterVersion_world. exact Habs.
Qed.

(** A URL without cache entry stays without one to the end of the run,
    unless a mod still to come downloads from it. *)
Lemma restOfRun_hashes_absent version rest tree st st' k :
  k ∉ laterDownloads rest tree ->
  hashes (world st) !! k = None ->
  restOfRun E version rest tree st = Continue st' ->
  hashes (world st') !! k = None.
Proof.
  unfold laterDownloads, restOfRun. rewrite not_elem_of_app. intros [Hrest Htree] Habs Hrun.
  destruct (runFiles E version rest st) as [st1| |] eqn:Hfs; try discriminate.
  eapply runVersions_hashes_absent; [exact Htree| |exact Hrun].
  eapply runFiles_hashes_absent; eauto.
Qed.

End Run.

Lemma persistHashes_allMods (E : Env) st : allMods (persistHashes E st) = allMods st.
Proof. reflexivity. Qed.

Lemma persistHashes_hashes (E : Env) st :
  hashes (world (persistHashes E st)) = hashes (world st).
Proof. reflexivity. Qed.

(** ** Claims about the catalog loop *)

(** C4, amended. A mod that passes validation, misses the cache, has no
    local package file and whose download fails gets the single error
    "Not found" and is not appended; once it is processed the Hash Cache has
    no entry under its download URL, and it has none at the end of the run
    unless a mod still to come uses the same URL. *)
Theorem download_failure (E : Env) (version modFilename : jsstring)
    (modInfo : Mod) (st : RunState) (w0 : World) :
  validate E version modFilename modInfo = None ->
  skipHashes E = false ->
  recheck E (orEmpty (get modInfo "download"))
    (hashes (world st) !! orEmpty (get modInfo "download")) (world st) = (None, w0) ->
  fsys (world st) !! qmodPathOf E modInfo version = None ->
  (downloadFile E
     (logEvent (EvMkdir (pathDirname E (qmodPathOf E modInfo version))) w0)
     (orEmpty (get modInfo "download")) (qmodPathOf E modInfo version)).1 = None ->
  ∃ output w' st',
    processQmod E modInfo version (world st) = Ok (output, modInfo, w')
    ∧ errors output = [lit "Not found"]
    ∧ processEntry E version (modFilename, modInfo) st = Continue st'
    ∧ allMods st' = allMods st
    ∧ hashes (world st') !! orEmpty (get modInfo "download") = None
    ∧ ∀ rest tree stf,
        orEmpty (get modInfo "download") ∉ laterDownloads rest tree ->
        restOfRun E version rest tree st' = Continue stf ->
        hashes (world stf) !! orEmpty (get modInfo "download") = None.
Proof.
  intros Hv Hskip Hre Hfile Hdl.
  pose proof (validate_passed _ _ _ _ Hv) as (_ & Hfields & _).
  assert (Hid : truthy (get modInfo "id") = true)
    by (apply not_blank_truthy, Hfields; unfold requiredFields; set_solver).
  assert (Hver : truthy (get modInfo "version") = true)
    by (apply not_blank_truthy, Hfields; unfold requiredFields; set_solver).
  assert (Hd : truthy (get modInfo "download") = true)
    by (apply not_blank_truthy, Hfields; unfold requiredFields; set_solver).
  pose proof (recheck_miss _ _ _ _ Hre) as (Habs & Hfs & _).
  destruct (downloadFile E _ _ _) as [r fs'] eqn:Hdown. simpl in Hdl. subst r.
  assert (Hrun : processQmod E modInfo version (world st)
                 = Ok (pushError (lit "Not found")
                         (pushMessage (orEmpty (get modInfo "download")) emptyResult),
                       modInfo,
                       logEvent (EvDownload (orEmpty (get modInfo "download"))
                                   (qmodPathOf E modInfo version))
                         (setFsys fs'
                            (logEvent
                               (EvMkdir (pathDirname E (qmodPathOf E modInfo version)))
                               w0)))).
  { unfold processQmod. rewrite Hskip, Hid, Hver, Hd. cbn [negb]. rewrite Hre.
    cbv zeta. unfold obtainHash. cbn [fsys logEvent]. rewrite Hfs, Hfile.
    rewrite Hdown. reflexivity. }
  assert (Hstep : ∃ st', processEntry E version (modFilename, modInfo) st = Continue st'
                         ∧ allMods st' = allMods st
                         ∧ hashes (world st') !! orEmpty (get modInfo "download") = None).
  { unfold processEntry, pushThrows. rewrite Hv, Hrun. cbn [errors pushError].
    rewrite bool_decide_eq_false_2 by discriminate. cbn [andb].
    eexists. split; [reflexivity|].
    rewrite persistHashes_allMods, persistHashes_hashes. split.
    - rewrite settle_rejects by discriminate. reflexivity.
    - apply settle_hashes_absent. exact Habs. }
  destruct Hstep as (st' & Hstep & Hmods & Hnone).
  eexists _, _, st'. split; [exact Hrun|]. split; [reflexivity|].
  split; [exact Hstep|]. split; [exact Hmods|]. split; [exact Hnone|].
  intros rest tree stf Hlater Hrest.
  eapply restOfRun_hashes_absent; eauto.
Qed.

Section Admission.
Variable E : Env.
Hypothesis download_recognized : "download" ∈ modKeys E.

Lemma normalized_download version modFilename (modInfo modInfo' : Mod)
    gameVersion w output w' :
  validate E version modFilename modInfo = None ->
  processQmod E modInfo gameVersion w = Ok (output, modInfo', w') ->
  get (normalizeMod (modKeys E) modInfo') "download"
  = Some (trim (orEmpty (get modInfo "download")))
  ∧ trim (orEmpty (get modInfo "download")) ≠ []
  ∧ get modInfo' "download" = get modInfo "download".
Proof.
  intros Hv Hp. pose proof (validate_passed_download _ _ _ _ Hv) as Hnb.
  pose proof (processQmod_download _ _ _ _ _ _ _ Hp) as Hd.
  rewrite get_normalizeMod, bool_decide_eq_true_2 by exact download_recognized.
  rewrite Hd, (normalizeField_not_blank _ Hnb).
  split; [reflexivity|]. split; [apply not_blank_trim; exact Hnb | reflexivity].
Qed.

(** The step of a validated mod, by whether its outcome has errors: the
    record is appended and the cache kept, or nothing is appended and the
    entry under the trimmed URL deleted. *)
Lemma processEntry_admission version modFilename (modInfo : Mod) st :
  validate E version modFilename modInfo = None ->
  ∃ output modInfo' w',
    processQmod E modInfo version (world st) = Ok (output, modInfo', w')
    ∧ processEntry E version (modFilename, modInfo) st
      = if pushThrows version (errors output) st then Threw pushTypeError
        else
          Continue
            (persistHashes E
               (if bool_decide (errors output = [])
                then mkRunState w'
                       (<[version := default [] (allMods st !! version)
                                     ++ [catalogRecord E modInfo' (hashes w')]]>
                          (allMods st))
                else mkRunState
                       (setHashes
                          (delete (trim (orEmpty (get modInfo "download")))
                             (hashes w'))
                          w')
                       (allMods st))).
Proof.
  intros Hv.
  destruct (processEntry_valid E _ _ _ st Hv) as (q & m & w' & Hp & Hstep).
  exists q, m, w'. split; [exact Hp|]. rewrite Hstep.
  destruct (pushThrows version (errors q) st); [reflexivity|]. do 2 f_equal.
  destruct (normalized_download _ _ _ _ _ _ _ _ Hv Hp) as (Hnd & Hne & Hd).
  unfold settle, catalogRecord. rewrite Hnd, Hd. cbn [orEmpty world allMods].
  destruct (trim (orEmpty (get modInfo "download"))) as [|c t] eqn:Ht; [congruence|].
  cbn [truthy]. reflexivity.
Qed.

(** The same, read off a step that went on. *)
Lemma processEntry_admitted version modFilename (modInfo : Mod) st st' :
  processEntry E version (modFilename, modInfo) st = Continue st' ->
  ∃ output modInfo' w',
    processQmod E modInfo version (world st) = Ok (output, modInfo', w')
    ∧ (errors output = [] -> is_Some (allMods st !! version))
    ∧ st' = persistHashes E
              (if bool_decide (errors output = [])
               then mkRunState w'
                      (<[version := default [] (allMods st !! version)
                                    ++ [catalogRecord E modInfo' (hashes w')]]>
                         (allMods st))
               else mkRunState
                      (setHashes
                         (delete (trim (orEmpty (get modInfo "download")))
                            (hashes w'))
                         w')
                      (allMods st)).
Proof.
  intros Hstep. pose proof (processEntry_continue _ _ _ _ _ _ Hstep) as (Hv & _).
  destruct (processEntry_admission version modFilename modInfo st Hv)
    as (output & modInfo' & w' & Hp & Hstep').
  exists output, modInfo', w'. split; [exact Hp|].
  split; [intros Herr; eapply processEntry_pushed; eauto|].
  rewrite Hstep in Hstep'.
  destruct (pushThrows version (errors output) st); [discriminate|].
  injection Hstep' as ->. reflexivity.
Qed.

End Admission.


(** ** The catalog and the Hash Cache agree *)

(** Without [--recheckUrls] a cached URL is a hit whatever the hash is: the
    outcome carries the hash and nothing else, and the world is untouched. *)
Lemma processQmod_hit (E : Env) (modInfo : Mod) gameVersion w h :
  skipHashes E = false ->
  recheckUrls E = false ->
  truthy (get modInfo "download") = true ->
  hashes w !! orEmpty (get modInfo "download") = Some h ->
  ∃ modInfo',
    processQmod E modInfo gameVersion w = Ok (setHash h emptyResult, modInfo', w).
Proof.
  intros hashing no_recheck Hdl Hh. unfold processQmod. rewrite hashing, Hdl.
  cbn [negb]. rewrite Hh. unfold recheck. rewrite no_recheck.
  destruct (existsSync w (coverFilenameOf E h)); eauto.
Qed.

(** When the liveness probe does not fail either, a cached URL is a hit that
    leaves the cache alone. *)
Lemma processQmod_cached (E : Env) (modInfo : Mod) gameVersion w h :
  skipHashes E = false ->
  recheckUrls E = false ∨ checkUrl E w (orEmpty (get modInfo "download")) = true ->
  truthy (get modInfo "download") = true ->
  hashes w !! orEmpty (get modInfo "download") = Some h ->
  ∃ modInfo' w',
    processQmod E modInfo gameVersion w = Ok (setHash h emptyResult, modInfo', w')
    ∧ hashes w' = hashes w.
Proof.
  intros hashing Halive Hdl Hh. unfold processQmod. rewrite hashing, Hdl.
  cbn [negb]. rewrite Hh. unfold recheck.
  destruct (recheckUrls E) eqn:Hre.
  - destruct Halive as [?|Halive]; [discriminate|]. rewrite Halive.
    destruct (existsSync _ (coverFilenameOf E h)); eauto.
  - destruct (existsSync w (coverFilenameOf E h)); eauto.
Qed.

Section Consistency.
Variable E : Env.
Hypothesis hashing : skipHashes E = false.
Hypothesis download_recognized : "download" ∈ modKeys E.

Lemma processEntry_consistent version modFilename (modInfo : Mod) pending st st' :
  trim (orEmpty (get modInfo "download")) = orEmpty (get modInfo "download") ->
  orEmpty (get modInfo "download") ∉ pending ->
  consistentApartFrom (orEmpty (get modInfo "download") :: pending) st ->
  processEntry E version (modFilename, modInfo) st = Continue st' ->
  consistentApartFrom pending st'.
Proof.
  intros Htrim Hfresh Hinv Hstep.
  pose proof (processEntry_continue _ _ _ _ _ _ Hstep) as (Hv & _).
  destruct (processEntry_admitted E download_recognized version modFilename modInfo
              st st' Hstep) as (output & modInfo' & w' & Hp & _ & ->).
  destruct (normalized_download E download_recognized _ _ _ _ _ _ _ _ Hv Hp)
    as (Hnd & Hne & Hd).
  set (d0 := orEmpty (get modInfo "download")) in *.
  (* what the invariant gives for a record that was there before the step *)
  assert (Hold : ∀ version' mods u,
             allMods st !! version' = Some mods -> u ∈ mods ->
             ∃ download h,
               get u "download" = Some download ∧ get u "hash" = Some h
               ∧ hashes w' !! download = Some h ∧ download ≠ d0
               ∧ download ∉ pending).
  { intros version' mods u Hl Hu.
    destruct (Hinv version' mods u Hl Hu) as (d & h & H1 & H2 & H3 & H4).
    rewrite not_elem_of_cons in H4. destruct H4 as [Hne0 Hpend].
    exists d, h. repeat split; auto.
    rewrite (processQmod_hashes_frame _ _ _ _ _ _ _ _ Hp Hne0). exact H3. }
  intros version' mods u Hl Hu. rewrite persistHashes_allMods in Hl.
  rewrite persistHashes_hashes.
  case_bool_decide as Herr; cbn [allMods world hashes setHashes] in *.
  - destruct (decide (version = version')) as [<-|Hver].
    + rewrite lookup_insert_eq in Hl. injection Hl as <-.
      apply elem_of_app in Hu as [Hu|Hu].
      * destruct (allMods st !! version) as [old|] eqn:Hlo; cbn [default] in Hu;
          [|apply elem_of_nil in Hu; contradiction].
        destruct (Hold version old u Hlo Hu) as (d & h & ? & ? & ? & ? & ?). eauto 10.
      * apply list_elem_of_singleton in Hu as ->.
        destruct (processQmod_success_hash E _ _ _ _ _ _ hashing Hp Herr)
          as (h & _ & Hh).
        exists d0, h. unfold catalogRecord. rewrite Hd. fold d0. rewrite Htrim.
        rewrite get_insert_ne by discriminate. rewrite get_insert_eq.
        rewrite Hnd, Htrim. auto.
    + rewrite lookup_insert_ne in Hl by exact Hver.
      destruct (Hold version' mods u Hl Hu) as (d & h & ? & ? & ? & ? & ?). eauto 10.
  - destruct (Hold version' mods u Hl Hu) as (d & h & ? & ? & ? & Hne0 & ?).
    exists d, h. repeat split; auto.
    rewrite Htrim, lookup_delete_ne by congruence. assumption.
Qed.

Lemma runFiles_consistent version files pending st st' :
  Forall (fun d => trim d = d) (entryDownload <$> files) ->
  NoDup ((entryDownload <$> files) ++ pending) ->
  consistentApartFrom ((entryDownload <$> files) ++ pending) st ->
  runFiles E version files st = Continue st' ->
  consistentApartFrom pending st'.
Proof.
  revert st. induction files as [|[modFilename modInfo] files IH];
    intros st Htrim Hnd Hinv Hrun.
  - simpl in Hrun. simplify_eq. exact Hinv.
  - rewrite fmap_cons in *. cbn [app] in *.
    apply Forall_cons in Htrim as [Ht Htrim].
    apply NoDup_cons in Hnd as [Hfresh Hnd].
    cbn [runFiles] in Hrun.
    destruct (processEntry E version (modFilename, modInfo) st) as [st1| |] eqn:Hstep;
      try discriminate.
    apply (IH st1 Htrim Hnd); [|exact Hrun].
    eapply processEntry_consistent; eauto.
Qed.

(** Entering a version adds at most an empty list. *)
Lemma enterVersion_lookup version st v mods :
  allMods (enterVersion E version st) !! v = Some mods ->
  allMods st !! v = Some mods ∨ mods = [].
Proof.
  unfold enterVersion. destruct (allMods st !! version) eqn:Hv; [auto|].
  destruct (inherited E version); [auto|]. cbn [allMods].
  destruct (decide (version = v)) as [<-|Hne].
  - rewrite lookup_insert_eq. intros [= <-]. auto.
  - rewrite lookup_insert_ne by exact Hne. auto.
Qed.

Lemma enterVersion_consistent version pending st :
  consistentApartFrom pending st ->
  consistentApartFrom pending (enterVersion E version st).
Proof.
  intros Hinv version' mods u Hl Hu. rewrite enterVersion_world.
  apply enterVersion_lookup in Hl as [Hl| ->]; [eapply Hinv; eauto|].
  apply elem_of_nil in Hu. contradiction.
Qed.

Lemma runVersions_consistent tree st st' :
  Forall (fun d => trim d = d) (treeDownloads tree) ->
  NoDup (treeDownloads tree) ->
  consistentApartFrom (treeDownloads tree) st ->
  runVersions E tree st = Continue st' ->
  consistentApartFrom [] st'.
Proof.
  revert st. induction tree as [|[version files] tree IH]; intros st Htrim Hnd Hinv Hrun.
  - simpl in Hrun. simplify_eq. exact Hinv.
  - unfold treeDownloads in Htrim, Hnd, Hinv. rewrite bind_cons in Htrim, Hnd, Hinv.
    cbn [snd] in *. fold (treeDownloads tree) in *.
    apply Forall_app in Htrim as [Htf Htt].
    cbn [runVersions] in Hrun.
    destruct (runFiles E version files (enterVersion E version st)) as [st1| |] eqn:Hfs;
      try discriminate.
    apply (IH st1 Htt); [apply NoDup_app in Hnd; tauto | | exact Hrun].
    eapply runFiles_consistent; [exact Htf | exact Hnd | | exact Hfs].
    apply enterVersion_consistent. exact Hinv.
Qed.

(** When no liveness probe fails the URLs may be shared: a mod whose URL is
    cached is a hit, which leaves the cache alone and cannot be rejected. *)
Variable urls : list jsstring.
Hypothesis alive : noDeadUrl E urls.

Lemma processEntry_agrees version modFilename (modInfo : Mod) st st' :
  trim (orEmpty (get modInfo "download")) = orEmpty (get modInfo "download") ->
  orEmpty (get modInfo "download") ∈ urls ->
  catalogConsistent st ->
  processEntry E version (modFilename, modInfo) st = Continue st' ->
  catalogConsistent st'.
Proof.
  intros Htrim Hurl Hinv Hstep.
  pose proof (processEntry_continue _ _ _ _ _ _ Hstep) as (Hv & _).
  destruct (processEntry_admitted E download_recognized version modFilename modInfo
              st st' Hstep) as (output & modInfo' & w' & Hp & _ & ->).
  destruct (normalized_download E download_recognized _ _ _ _ _ _ _ _ Hv Hp)
    as (Hnd & Hne & Hd).
  set (d0 := orEmpty (get modInfo "download")) in *.
  assert (Hcases : errors output = [] ∧ hashes w' = hashes (world st)
                   ∨ hashes (world st) !! d0 = None).
  { destruct (hashes (world st) !! d0) as [h0|] eqn:Hh0; [left | right; reflexivity].
    destruct (processQmod_cached E modInfo version (world st) h0 hashing)
      as (m' & w1 & Hhit & Hsame);
      [destruct alive as [Hre|Hall]; [left; exact Hre | right; apply Hall; exact Hurl]
      |apply not_blank_truthy; eapply validate_passed_download; exact Hv
      |exact Hh0|].
    rewrite Hp in Hhit. injection Hhit as -> _ ->. split; [reflexivity | exact Hsame]. }
  (* what the invariant gives for a record that was there before the step *)
  assert (Hold : ∀ version' mods u,
             allMods st !! version' = Some mods -> u ∈ mods ->
             ∃ download h,
               get u "download" = Some download ∧ get u "hash" = Some h
               ∧ hashes w' !! download = Some h
               ∧ (errors output ≠ [] -> download ≠ d0)).
  { intros version' mods u Hl Hu.
    destruct (Hinv version' mods u Hl Hu) as (d & h & H1 & H2 & H3).
    exists d, h. split; [exact H1|]. split; [exact H2|].
    destruct Hcases as [[Herr Hsame]|Hnone].
    - split; [rewrite Hsame; exact H3 | contradiction].
    - assert (Hne0 : d ≠ d0) by (intros ->; congruence).
      split; [|intros _; exact Hne0].
      rewrite (processQmod_hashes_frame _ _ _ _ _ _ _ _ Hp Hne0). exact H3. }
  intros version' mods u Hl Hu. rewrite persistHashes_allMods in Hl.
  rewrite persistHashes_hashes.
  case_bool_decide as Herr; cbn [allMods world hashes setHashes] in *.
  - destruct (decide (version = version')) as [<-|Hver].
    + rewrite lookup_insert_eq in Hl. injection Hl as <-.
      apply elem_of_app in Hu as [Hu|Hu].
      * destruct (allMods st !! version) as [old|] eqn:Hlo; cbn [default] in Hu;
          [|apply elem_of_nil in Hu; contradiction].
        destruct (Hold version old u Hlo Hu) as (d & h & ? & ? & ? & _). eauto 10.
      * apply list_elem_of_singleton in Hu as ->.
        destruct (processQmod_success_hash E _ _ _ _ _ _ hashing Hp Herr)
          as (h & _ & Hh).
        exists d0, h. unfold catalogRecord. rewrite Hd. fold d0. rewrite Htrim.
        rewrite get_insert_ne by discriminate. rewrite get_insert_eq.
        rewrite Hnd, Htrim. auto.
    + rewrite lookup_insert_ne in Hl by exact Hver.
      destruct (Hold version' mods u Hl Hu) as (d & h & ? & ? & ? & _). eauto 10.
  - destruct (Hold version' mods u Hl Hu) as (d & h & ? & ? & ? & Hne0).
    exists d, h. repeat split; auto.
    rewrite Htrim, lookup_delete_ne by (intros Heq; apply (Hne0 Herr); congruence).
    assumption.
Qed.

Lemma runFiles_agrees version files st st' :
  Forall (fun d => trim d = d ∧ d ∈ urls) (entryDownload <$> files) ->
  catalogConsistent st ->
  runFiles E version files st = Continue st' ->
  catalogConsistent st'.
Proof.
  revert st. induction files as [|[modFilename modInfo] files IH];
    intros st Htrim Hinv Hrun.
  - simpl in Hrun. simplify_eq. exact Hinv.
  - rewrite fmap_cons in Htrim. apply Forall_cons in Htrim as [[Ht Hu] Htrim].
    cbn [runFiles] in Hrun.
    destruct (processEntry E version (modFilename, modInfo) st) as [st1| |] eqn:Hstep;
      try discriminate.
    apply (IH st1 Htrim); [|exact Hrun].
    eapply processEntry_agrees; eauto.
Qed.

Lemma runVersions_agrees tree st st' :
  Forall (fun d => trim d = d ∧ d ∈ urls) (treeDownloads tree) ->
  catalogConsistent st ->
  runVersions E tree st = Continue st' ->
  catalogConsistent st'.
Proof.
  revert st. induction tree as [|[version files] tree IH]; intros st Htrim Hinv Hrun.
  - simpl in Hrun. simplify_eq. exact Hinv.
  - unfold treeDownloads in Htrim. rewrite bind_cons in Htrim.
    cbn [snd] in Htrim. fold (treeDownloads tree) in Htrim.
    apply Forall_app in Htrim as [Htf Htt].
    cbn [runVersions] in Hrun.
    destruct (runFiles E version files (enterVersion E version st)) as [st1| |] eqn:Hfs;
      try discriminate.
    apply (IH st1 Htt); [|exact Hrun].
    eapply runFiles_agrees; [exact Htf | | exact Hfs].
    intros version' mods u Hl Hu. rewrite enterVersion_world.
    apply enterVersion_lookup in Hl as [Hl| ->]; [eapply Hinv; eauto|].
    apply elem_of_nil in Hu. contradiction.
Qed.

End Consistency.

(** C1, amended. In a run without [--skipHashes], in which every download
    URL is free of surrounding whitespace and either no liveness probe fails
    ([--recheckUrls] is not given, or every probe finds its URL alive) or no
    two mods have the same download URL, every record of the finished catalog
    has a hash, and that hash is what the Hash Cache holds under the record's
    download URL when the run ends. *)
Theorem catalog_hash_consistency (E : Env)
    (tree : list (jsstring * list (jsstring * Mod))) (w : World) (st : RunState) :
  skipHashes E = false ->
  "download" ∈ modKeys E ->
  Forall (fun download => trim download = download) (treeDownloads tree) ->
  noDeadUrl E (treeDownloads tree) ∨ NoDup (treeDownloads tree) ->
  run E tree w = Continue st ->
  catalogConsistent st.
Proof.
  intros Hskip Hkey Htrim Hshared Hrun. unfold run in Hrun.
  destruct (runVersions E tree (mkRunState w ∅)) as [st1| |] eqn:Hvs; try discriminate.
  injection Hrun as <-.
  assert (Hinv : catalogConsistent st1).
  { destruct Hshared as [Halive|Hnd].
    - eapply (runVersions_agrees E Hskip Hkey (treeDownloads tree) Halive); eauto.
      + rewrite Forall_forall in Htrim. apply Forall_forall. intros d Hd.
        split; [apply Htrim; exact Hd | exact Hd].
      + intros version mods u Hl. cbn [allMods] in Hl. rewrite lookup_empty in Hl.
        discriminate.
    - assert (Hinv : consistentApartFrom [] st1).
      { eapply runVersions_consistent; eauto.
        intros version mods u Hl. cbn [allMods] in Hl. rewrite lookup_empty in Hl.
        discriminate. }
      intros version mods u Hl Hu.
      destruct (Hinv version mods u Hl Hu) as (d & h & ? & ? & ? & _). eauto. }
  intros version mods u Hl Hu. cbn [allMods world hashes setFsys logEvent] in *.
  exact (Hinv version mods u Hl Hu).
Qed.

(** ** Normalization *)

Lemma normalizeField_trimmedOrNull (v : option jsstring) :
  normalizeField v = trimmedOrNull v.
Proof. destruct v as [s|]; reflexivity. Qed.

(** C8, amended. Whatever the outcome, every recognized field of the
    normalized record is the trimmed field of the mod record as [processQmod]
    left it, [null] when that is absent or empty after trimming; and
    [processQmod] leaves every field but [cover] as it was read. *)
Theorem field_normalization (E : Env) (modInfo : Mod) (gameVersion : jsstring)
    (w : World) (output : QmodResult) (modInfo' : Mod) (w' : World)
    (key : string) :
  processQmod E modInfo gameVersion w = Ok (output, modInfo', w') ->
  key ∈ modKeys E ->
  get (normalizeMod (modKeys E) modInfo') key = trimmedOrNull (get modInfo' key)
  ∧ (key ≠ "cover" -> get modInfo' key = get modInfo key).
Proof.
  intros Hp Hkey. split.
  - rewrite get_normalizeMod, bool_decide_eq_true_2 by exact Hkey.
    apply normalizeField_trimmedOrNull.
  - intros Hne. apply processQmod_cover_only in Hp as [->|[url ->]]; [reflexivity|].
    apply get_insert_ne. congruence.
Qed.

(** ** Fatal validation *)

Section Validation.
Variable E : Env.

Lemma validate_fatal version (entry : jsstring * Mod) :
  fatalEntry E version entry <-> validate E version entry.1 entry.2 ≠ None.
Proof.
  destruct entry as [modFilename modInfo]. unfold fatalEntry. cbn [fst snd]. split.
  - intros Hfatal Hv. apply validate_passed in Hv as (Hpath & Hfields & Hml).
    destruct Hfatal as [Hp|[(field & Hin & Hb)|Hl]].
    + contradiction.
    + rewrite (Hfields field Hin) in Hb. discriminate.
    + apply Hl. unfold modLoaderInvalid in Hml.
      destruct (get modInfo "modloader") as [l|]; [|discriminate].
      exists l. split; [reflexivity|].
      apply negb_false_iff, bool_decide_eq_true in Hml. exact Hml.
  - intros Hv.
    destruct (decide (shortModPathOf E version modFilename
                      = requiredShortPath E version modInfo)) as [Hpath|Hpath];
      [|left; exact Hpath].
    right. unfold validate in Hv.
    rewrite bool_decide_eq_true_2 in Hv by exact Hpath. cbn [negb] in Hv.
    destruct (List.find _ requiredFields) as [field|] eqn:Hfind.
    + left. apply find_some in Hfind as [Hin Hb].
      exists field. split; [apply list_elem_of_In; exact Hin | exact Hb].
    + right. destruct (modLoaderInvalid E modInfo) eqn:Hml; [|congruence].
      intros (l & Hl & Hin). unfold modLoaderInvalid in Hml. rewrite Hl in Hml.
      rewrite bool_decide_eq_true_2 in Hml by exact Hin. discriminate.
Qed.

Lemma processEntry_fatal version (entry : jsstring * Mod) st :
  validate E version entry.1 entry.2 ≠ None ->
  ∃ msg, processEntry E version entry st = Exited 1 msg st.
Proof.
  destruct entry as [modFilename modInfo]. cbn [fst snd]. intros Hv.
  unfold processEntry. destruct (validate E version modFilename modInfo) as [msg|];
    [|congruence].
  exists msg. reflexivity.
Qed.

(** How a pass over the files of a version ends: normally when all of them
    are valid, with exit status 1 as soon as one is not, and by the TypeError
    of line 294 only when the catalog has no list for the version. *)
Lemma runFiles_outcome version files st :
  match runFiles E version files st with
  | Continue _ => Forall (fun entry => validate E version entry.1 entry.2 = None) files
  | Exited status _ _ =>
      status = 1%Z
      ∧ Exists (fun entry => validate E version entry.1 entry.2 ≠ None) files
  | Threw msg => msg = pushTypeError ∧ allMods st !! version = None
  end.
Proof.
  revert st. induction files as [|entry files IH]; intros st; cbn [runFiles].
  - constructor.
  - destruct (validate E version entry.1 entry.2) as [msg|] eqn:Hv.
    + destruct (processEntry_fatal version entry st) as (msg' & ->); [congruence|].
      split; [reflexivity|]. apply Exists_cons_hd. congruence.
    + destruct entry as [modFilename modInfo].
      destruct (processEntry_valid E version modFilename modInfo st Hv)
        as (q & m & w' & _ & Hstep).
      destruct (pushThrows version (errors q) st) eqn:Hpush.
      * rewrite Hstep. apply pushThrows_true in Hpush as [_ Hnone].
        split; [reflexivity | exact Hnone].
      * specialize (IH (persistHashes E
                          (settle version (errors q) (normalizeMod (modKeys E) m)
                             (mkRunState w' (allMods st))))).
        rewrite Hstep.
        destruct (runFiles E version files _) as [st2|status msg st2|msg].
        -- apply Forall_cons. split; [exact Hv | exact IH].
        -- destruct IH as [-> IH]. split; [reflexivity|]. apply Exists_cons_tl.
           exact IH.
        -- destruct IH as [-> IH]. split; [reflexivity|].
           apply (processEntry_keys E version (modFilename, modInfo) st _ version Hstep).
           exact IH.
Qed.

Lemma runVersions_outcome tree st :
  match runVersions E tree st with
  | Continue _ =>
      Forall (fun versionFiles =>
                Forall (fun entry => validate E versionFiles.1 entry.1 entry.2 = None)
                  versionFiles.2) tree
  | Exited status _ _ =>
      status = 1%Z
      ∧ Exists (fun versionFiles =>
                  Exists (fun entry => validate E versionFiles.1 entry.1 entry.2 ≠ None)
                    versionFiles.2) tree
  | Threw msg => msg = pushTypeError ∧ inheritedVersion E tree
  end.
Proof.
  revert st. induction tree as [|[version files] tree IH]; intros st; cbn [runVersions].
  - constructor.
  - pose proof (runFiles_outcome version files (enterVersion E version st)) as Hfs.
    destruct (runFiles E version files (enterVersion E version st)) as [st1| |].
    + specialize (IH st1). destruct (runVersions E tree st1).
      * apply Forall_cons. split; [exact Hfs | exact IH].
      * destruct IH as [-> IH]. split; [reflexivity|]. apply Exists_cons_tl. exact IH.
      * destruct IH as [-> (v & Hv & Hinh)]. split; [reflexivity|].
        exists v. split; [|exact Hinh]. unfold treeVersions in *.
        rewrite fmap_cons. apply elem_of_cons. auto.
    + destruct Hfs as [-> Hfs]. split; [reflexivity|]. apply Exists_cons_hd. exact Hfs.
    + destruct Hfs as [-> Hnone]. split; [reflexivity|].
      exists version. split.
      * unfold treeVersions. rewrite fmap_cons. apply elem_of_cons. auto.
      * unfold enterVersion in Hnone.
        destruct (allMods st !! version) eqn:Hl; [congruence|].
        destruct (inherited E version); [reflexivity|].
        cbn [allMods] in Hnone. rewrite lookup_insert_eq in Hnone. discriminate.
Qed.

End Validation.

(** C9. A mod file stored off its canonical path, with a blank or missing
    name, id, version or download, or with a modloader outside the accepted
    set stops the run at once with exit status 1, in the state the run was in,
    the mod unprocessed. Every other mod file is processed, and whatever
    errors its outcome has the run goes on; only a mod that is to be appended
    for a game version without a list in the catalog stops it, by the
    TypeError of line 294. So a run ends with a non-zero status when some
    enumerated mod file is fatal, and runs to completion otherwise, unless
    that TypeError is thrown, which takes a game version named like a
    property that a plain object inherits. *)
Theorem fatal_validation (E : Env)
    (tree : list (jsstring * list (jsstring * Mod))) (w : World) :
  (∀ version entry st,
     fatalEntry E version entry ->
     ∃ msg, processEntry E version entry st = Exited 1 msg st)
  ∧ (∀ version entry st,
       ¬ fatalEntry E version entry ->
       ∃ output modInfo' w',
         processQmod E entry.2 version (world st) = Ok (output, modInfo', w')
         ∧ (errors output ≠ [] ∨ is_Some (allMods st !! version) ->
            ∃ st', processEntry E version entry st = Continue st')
         ∧ (errors output = [] ∧ allMods st !! version = None ->
            processEntry E version entry st = Threw pushTypeError))
  ∧ (fatalTree E tree ->
     (∃ status msg st, run E tree w = Exited status msg st ∧ status ≠ 0%Z)
     ∨ (run E tree w = Threw pushTypeError ∧ inheritedVersion E tree))
  ∧ (¬ fatalTree E tree ->
     (∃ st, run E tree w = Continue st)
     ∨ (run E tree w = Threw pushTypeError ∧ inheritedVersion E tree)).
Proof.
  split; [|split; [|split]].
  - intros version entry st Hfatal.
    apply processEntry_fatal, validate_fatal. exact Hfatal.
  - intros version [modFilename modInfo] st Hok.
    assert (Hv : validate E version modFilename modInfo = None).
    { destruct (validate E version modFilename modInfo) eqn:Hv; [|reflexivity].
      exfalso. apply Hok, validate_fatal. cbn [fst snd]. congruence. }
    destruct (processEntry_valid E version modFilename modInfo st Hv)
      as (q & m & w' & Hp & Hstep).
    exists q, m, w'. split; [exact Hp|]. rewrite Hstep. split.
    + intros Hgo. apply pushThrows_false in Hgo. rewrite Hgo. eauto.
    + intros Hthrow. apply pushThrows_true in Hthrow. rewrite Hthrow. reflexivity.
  - intros (version & files & entry & Hvf & He & Hfatal).
    pose proof (runVersions_outcome E tree (mkRunState w ∅)) as Hout. unfold run.
    destruct (runVersions E tree (mkRunState w ∅)) as [st|status msg st|msg].
    + exfalso. rewrite Forall_forall in Hout. specialize (Hout _ Hvf).
      cbn [fst snd] in Hout. rewrite Forall_forall in Hout. specialize (Hout _ He).
      apply validate_fatal in Hfatal. contradiction.
    + destruct Hout as [-> _]. left. eexists _, _, _.
      split; [reflexivity | discriminate].
    + destruct Hout as [-> Hinh]. right. split; [reflexivity | exact Hinh].
  - intros Hok.
    pose proof (runVersions_outcome E tree (mkRunState w ∅)) as Hout. unfold run.
    destruct (runVersions E tree (mkRunState w ∅)) as [st|status msg st|msg].
    + left. eexists. reflexivity.
    + exfalso. destruct Hout as [_ Hout]. apply Hok.
      apply Exists_exists in Hout as ([version files] & Hvf & Hfiles).
      apply Exists_exists in Hfiles as (entry & He & Hv). cbn [fst snd] in *.
      exists version, files, entry. repeat split; [exact Hvf | exact He |].
      apply validate_fatal. exact Hv.
    + destruct Hout as [-> Hinh]. right. split; [reflexivity | exact Hinh].
Qed.

(** * Concrete runs *)

Import Example.

Ltac evaluate := vm_compute; reflexivity.
Ltac decided :=
  match goal with
  | |- ?P =>
      let d := constr:(_ : Decision P) in
      apply (@bool_decide_unpack P d); vm_compute; exact I
  end.

(** Foo's package is downloaded at a cache miss. *)
Ltac foo_downloaded disk pkg :=
  unfold packageObtained; repeat (split; [evaluate|]);
  exists (onDisk disk), (downloaded disk pkg ∅); repeat split; evaluate.

Example normalize_spaced :
  get (normalizeMod (modKeys (env [] ∅)) spaced) "name" = Some (lit "Foo")
  ∧ get (normalizeMod (modKeys (env [] ∅)) spaced) "description" = None
  ∧ get (normalizeMod (modKeys (env [] ∅)) spaced) "cover" = None.
Proof. repeat split; evaluate. Qed.

Example trim_examples :
  trim (lit "  a b  ") = lit "a b" ∧ trim (lit "   ") = [] ∧ trim [160%N; 97%N; 10%N] = [97%N].
Proof. repeat split; evaluate. Qed.

(** ** C1 *)

Lemma catalog_hash_consistency_witness :
  finalNames (run (serving "Z1") twoVersions emptyWorld) nextVersion
  = [Some (lit "Foo")]
  ∧ ∀ st, run (serving "Z1") twoVersions emptyWorld = Continue st ->
          catalogConsistent st.
Proof.
  split; [evaluate|]. intros st Hrun.
  apply (catalog_hash_consistency (serving "Z1") twoVersions emptyWorld).
  - evaluate.
  - decided.
  - repeat constructor.
  - left. left. evaluate.
  - exact Hrun.
Defined.

(** C1 as stated fails under [--skipHashes]: the run admits foo, and its
    record has no hash, the Hash Cache having nothing under its URL. *)
Lemma catalog_hash_missing_under_skipHashes :
  finalNames (run (env [lit "--skipHashes"] ∅) fooTree emptyWorld) gameVersion
  = [Some (lit "Foo")]
  ∧ finalHash (run (env [lit "--skipHashes"] ∅) fooTree emptyWorld) fooUrl = None
  ∧ ∀ st, run (env [lit "--skipHashes"] ∅) fooTree emptyWorld = Continue st ->
          ¬ catalogConsistent st.
Proof.
  split; [evaluate|]. split; [evaluate|]. intros st Hrun Hc.
  assert (Hf : finalField (Continue st) gameVersion "hash" = [None])
    by (rewrite <- Hrun; evaluate).
  unfold finalField in Hf.
  destruct (allMods st !! gameVersion) as [[|u mods]|] eqn:Hl; try discriminate.
  injection Hf as Hh _.
  destruct (Hc gameVersion (u :: mods) u Hl) as (download & h & _ & Hh' & _).
  - apply elem_of_cons. left. reflexivity.
  - congruence.
Qed.

(** The two behaviours that the amended C1 leaves aside. A download URL
    written with a leading space is cached under the URL as written and looked
    up under the trimmed one: the mod is admitted without hash. *)
Example hash_lost_under_untrimmed_url :
  finalField
    (run (env [] {[ lit " http://x/foo.qmod" := content "Z1" ]})
       [(gameVersion, [(fooFile, record "Foo" "foo" "1.0" " http://x/foo.qmod")])]
       emptyWorld)
    gameVersion "hash"
  = [None]
  ∧ finalHash
      (run (env [] {[ lit " http://x/foo.qmod" := content "Z1" ]})
         [(gameVersion, [(fooFile, record "Foo" "foo" "1.0" " http://x/foo.qmod")])]
         emptyWorld)
      (lit " http://x/foo.qmod")
    = Some (lit "hZ1").
Proof. split; evaluate. Qed.

(** With [--recheckUrls] and the URL dead, foo is admitted under 1.37 from
    its local package; under 1.38 its package is corrupt, it is rejected, and
    the entry of the URL is deleted from under the record admitted before. *)
Example hash_deleted_by_later_mod :
  finalField
    (run (env [lit "--recheckUrls"] ∅) twoVersions
       (onDisk {[ fooPath := content "Z1"; fooPathNext := content "junk" ]}))
    gameVersion "hash"
  = [Some (lit "hZ1")]
  ∧ finalNames
      (run (env [lit "--recheckUrls"] ∅) twoVersions
         (onDisk {[ fooPath := content "Z1"; fooPathNext := content "junk" ]}))
      nextVersion
    = []
  ∧ finalHash
      (run (env [lit "--recheckUrls"] ∅) twoVersions
         (onDisk {[ fooPath := content "Z1"; fooPathNext := content "junk" ]}))
      fooUrl
    = None.
Proof. repeat split; evaluate. Qed.

(** ** C2 *)


(** The same step appends the record of a mod without error to the list. *)
Example admission_appends :
  finalNames
    (processEntry (serving "Z1") gameVersion (fooFile, foo)
       (mkRunState emptyWorld {[ gameVersion := [] ]}))
    gameVersion
  = [Some (lit "Foo")].
Proof. evaluate. Qed.


(** What the amended C2 leaves aside: a rejected mod whose URL is written
    with a leading space keeps its cache entry, line 297 deleting under the
    trimmed URL. *)
Example rejected_entry_kept_under_untrimmed_url :
  finalNames
    (run (env [] {[ lit " http://x/foo.qmod" := content "Z0" ]})
       [(gameVersion, [(fooFile, record "Foo" "foo" "1.0" " http://x/foo.qmod")])]
       emptyWorld)
    gameVersion
  = []
  ∧ finalHash
      (run (env [] {[ lit " http://x/foo.qmod" := content "Z0" ]})
         [(gameVersion, [(fooFile, record "Foo" "foo" "1.0" " http://x/foo.qmod")])]
         emptyWorld)
      (lit " http://x/foo.qmod")
    = Some (lit "hZ0")
  ∧ finalHash
      (run (env [] {[ lit " http://x/foo.qmod" := content "Z0" ]})
         [(gameVersion, [(fooFile, record "Foo" "foo" "1.0" " http://x/foo.qmod")])]
         emptyWorld)
      (lit "http://x/foo.qmod")
    = None.
Proof. repeat split; evaluate. Qed.

(** ** C3 *)

Lemma cache_hit_witness :
  cacheHitOutcome (env [] ∅) foo gameVersion
    cachedWorld fooUrl (lit "abc123").
Proof.
  apply cache_hit.
  - vm_compute; reflexivity.
  - vm_compute; reflexivity.
  - vm_compute; discriminate.
  - vm_compute; reflexivity.
  - left. vm_compute; reflexivity.
Defined.

(** C3 as stated fails under [--skipHashes]: the URL is cached and no recheck
    is asked for, yet [processQmod] returns at line 60 with no hash. *)
Lemma cache_hit_fails_under_skipHashes :
  get foo "download" = Some (fooUrl)
  ∧ hashes cachedWorld !! fooUrl = Some (lit "abc123")
  ∧ recheckUrls (env [lit "--skipHashes"] ∅) = false
  ∧ ¬ cacheHitOutcome (env [lit "--skipHashes"] ∅) foo
        gameVersion cachedWorld (fooUrl) (lit "abc123").
Proof.
  split; [vm_compute; reflexivity|].
  split; [vm_compute; reflexivity|].
  split; [vm_compute; reflexivity|].
  intros (output & modInfo' & w' & Hrun & Hhash & _).
  apply (f_equal outcomeOf) in Hrun. vm_compute in Hrun.
  injection Hrun as <-. discriminate Hhash.
Qed.

(** ** C4 *)

Lemma download_failure_witness :
  ∃ output w' st',
    processQmod (env [] ∅) foo gameVersion emptyWorld = Ok (output, foo, w')
    ∧ errors output = [lit "Not found"]
    ∧ processEntry (env [] ∅) gameVersion (fooFile, foo) (mkRunState emptyWorld ∅)
      = Continue st'
    ∧ allMods st' = ∅
    ∧ hashes (world st') !! fooUrl = None.
Proof.
  destruct (download_failure (env [] ∅) gameVersion fooFile foo
              (mkRunState emptyWorld ∅) emptyWorld)
    as (output & w' & st' & Hp & Herr & Hstep & Hmods & Hnone & _);
    [evaluate ..|].
  exists output, w', st'. auto.
Defined.

(** C4 as stated fails when a mod still to come shares the URL: under 1.37
    foo has no cache entry and no local package, and its download fails with
    "Not found"; under 1.38 the same mod file, with the same download URL,
    finds its package on disk, and at the end of the run the cache has an
    entry under that URL. *)
Lemma failed_url_cached_by_later_mod :
  validate (env [] ∅) gameVersion fooFile foo = None
  ∧ skipHashes (env [] ∅) = false
  ∧ hashes (onDisk {[ fooPathNext := content "Z1" ]}) !! entryDownload (fooFile, foo)
    = None
  ∧ fsys (onDisk {[ fooPathNext := content "Z1" ]})
      !! qmodPathOf (env [] ∅) foo gameVersion
    = None
  ∧ errors <$> outcomeOf
      (processQmod (env [] ∅) foo gameVersion (onDisk {[ fooPathNext := content "Z1" ]}))
    = Some [lit "Not found"]
  ∧ finalNames (run (env [] ∅) twoVersions (onDisk {[ fooPathNext := content "Z1" ]}))
      gameVersion
    = []
  ∧ finalNames (run (env [] ∅) twoVersions (onDisk {[ fooPathNext := content "Z1" ]}))
      nextVersion
    = [Some (lit "Foo")]
  ∧ finalHash (run (env [] ∅) twoVersions (onDisk {[ fooPathNext := content "Z1" ]}))
      (entryDownload (fooFile, foo))
    = Some (lit "hZ1").
Proof. repeat split; evaluate. Qed.

(** ** C5 *)

Lemma junk_downloaded :
  packageObtained (serving "junk") foo gameVersion emptyWorld (lit "hjunk")
    (content "junk") (downloaded ∅ "junk" (cachedAs "junk")).
Proof. foo_downloaded (∅ : gmap jsstring bytes) "junk". Qed.

Lemma bare_archive_downloaded :
  packageObtained (serving "Z0") foo gameVersion emptyWorld (lit "hZ0")
    (content "Z0") (downloaded ∅ "Z0" (cachedAs "Z0")).
Proof. foo_downloaded (∅ : gmap jsstring bytes) "Z0". Qed.

Lemma local_file_deletion_policy_witness :
  (∃ output w',
     processQmod (serving "junk") foo gameVersion emptyWorld = Ok (output, foo, w')
     ∧ errors output = [lit "Reading archive"]
     ∧ fsys w' !! fooPath = None)
  ∧ (∃ output w',
       processQmod (serving "Z0") foo gameVersion emptyWorld = Ok (output, foo, w')
       ∧ errors output = [lit "No info json"]
       ∧ fsys w' !! fooPath = Some (content "Z0")).
Proof.
  split.
  - destruct (local_file_deletion_policy (serving "junk") foo gameVersion emptyWorld
                (lit "hjunk") (content "junk") (downloaded ∅ "junk" (cachedAs "junk"))
                junk_downloaded) as [Hunreadable _].
    destruct Hunreadable as (output & w' & Hp & Herr & _ & Hgone & _); [evaluate|].
    exists output, w'. auto.
  - destruct (local_file_deletion_policy (serving "Z0") foo gameVersion emptyWorld
                (lit "hZ0") (content "Z0") (downloaded ∅ "Z0" (cachedAs "Z0"))
                bare_archive_downloaded) as [_ Hbare].
    destruct (Hbare ∅) as (output & w' & Hp & Herr & _ & _ & Hkept & _);
      [evaluate ..|].
    exists output, w'. auto.
Defined.

(** ** C6 *)

Lemma plain_archive_downloaded :
  packageObtained (serving "Z1") foo gameVersion emptyWorld (lit "hZ1")
    (content "Z1") (downloaded ∅ "Z1" (cachedAs "Z1")).
Proof. foo_downloaded (∅ : gmap jsstring bytes) "Z1". Qed.

Lemma coverless_archive_downloaded :
  packageObtained (serving "Z4") foo gameVersion emptyWorld (lit "hZ4")
    (content "Z4") (downloaded ∅ "Z4" (cachedAs "Z4")).
Proof. foo_downloaded (∅ : gmap jsstring bytes) "Z4". Qed.

Lemma cover_filename_resolution_witness :
  (∃ output modInfo' w',
     processQmod (serving "Z1") foo gameVersion emptyWorld = Ok (output, modInfo', w')
     ∧ errors output = [])
  ∧ inspectArchive (serving "Z4") (qmodPathOf (serving "Z4") foo gameVersion)
      (content "Z4") (hashedOutput foo (lit "hZ4")) (downloaded ∅ "Z4" (cachedAs "Z4"))
    = inr (None,
           pushWarning
             (coverNotFoundWarning (serving "Z4")
                (qmodPathOf (serving "Z4") foo gameVersion) (lit "cover.png"))
             (hashedOutput foo (lit "hZ4")),
           manifestRead (qmodPathOf (serving "Z4") foo gameVersion) (lit "mod.json")
             (downloaded ∅ "Z4" (cachedAs "Z4"))).
Proof.
  split.
  - destruct (cover_filename_resolution (serving "Z1") foo gameVersion emptyWorld
                (lit "hZ1") (content "Z1") (downloaded ∅ "Z1" (cachedAs "Z1"))
                (archive Init.Byte.x31) (mkZipEntry (lit "mod.json") (content "none"))
                (mkManifest None None) plain_archive_downloaded)
      as (_ & _ & _ & Hkept); [evaluate ..|].
    destruct Hkept as (output & modInfo' & w' & Hp & Herr & _); [left; evaluate|].
    exists output, modInfo', w'. auto.
  - destruct (cover_filename_resolution (serving "Z4") foo gameVersion emptyWorld
                (lit "hZ4") (content "Z4") (downloaded ∅ "Z4" (cachedAs "Z4"))
                (archive Init.Byte.x34) (mkZipEntry (lit "mod.json") (content "cover"))
                (mkManifest (Some (lit "cover.png")) None) coverless_archive_downloaded)
      as (_ & _ & Hmissing & _); [evaluate ..|].
    apply (Hmissing (lit "cover.png")); [evaluate | evaluate | | evaluate].
    vm_compute. discriminate.
Defined.

Example cover_not_found_warning :
  coverNotFoundWarning (serving "Z4") (qmodPathOf (serving "Z4") foo gameVersion)
    (lit "cover.png")
  = lit "Cover file not found: 1.37/foo-1.0.qmod/cover.png".
Proof. evaluate. Qed.

(** C6 as stated fails on a blank first field: [coverImageFilename] is a
    single space and [coverImage] names the entry [cover.png], which the
    archive has. The first non-blank field is [cover.png], yet the code takes
    the space as the declared name, extracts nothing and links no cover. *)
Lemma blank_first_field_wins :
  readManifest (serving "Z3") (content "blank")
  = Some (mkManifest (Some (lit " ")) (Some (lit "cover.png")))
  ∧ declaredCoverStated (mkManifest (Some (lit " ")) (Some (lit "cover.png")))
    = Some (lit "cover.png")
  ∧ declaredCover (mkManifest (Some (lit " ")) (Some (lit "cover.png")))
    = Some (lit " ")
  ∧ archive Init.Byte.x33 !! lit "cover.png" = Some (content "img")
  ∧ trace <$> worldOf (processQmod (serving "Z3") foo gameVersion emptyWorld)
    = Some [EvMkdir (lit "/repo/qmods/1.37"); EvDownload fooUrl fooPath;
            EvReadFile fooPath; EvLoadZip fooPath; EvReadManifest (lit "mod.json")]
  ∧ (fun m => get m "cover")
      <$> modOf (processQmod (serving "Z3") foo gameVersion emptyWorld)
    = Some None
  ∧ warnings <$> outcomeOf (processQmod (serving "Z3") foo gameVersion emptyWorld)
    = Some [].
Proof. repeat split; evaluate. Qed.

(** ** C7 *)

Lemma cover_archive_downloaded :
  packageObtained (serving "Z2") foo gameVersion
    (onDisk {[ lit "/repo/covers/hZ2.png" := content "old" ]}) (lit "hZ2")
    (content "Z2")
    (downloaded {[ lit "/repo/covers/hZ2.png" := content "old" ]} "Z2" (cachedAs "Z2")).
Proof. foo_downloaded ({[ lit "/repo/covers/hZ2.png" := content "old" ]} : gmap jsstring bytes) "Z2". Qed.

Lemma cover_idempotence_witness :
  processQmod (serving "Z2") foo gameVersion
    (onDisk {[ lit "/repo/covers/hZ2.png" := content "old" ]})
  = Ok (hashedOutput foo (lit "hZ2"),
        <["cover" := Some (coverUrl (serving "Z2")
                             (coverFilenameOf (serving "Z2") (lit "hZ2")))]> foo,
        logEvent (EvExtractCover (lit "cover.png"))
          (manifestRead (qmodPathOf (serving "Z2") foo gameVersion) (lit "mod.json")
             (downloaded {[ lit "/repo/covers/hZ2.png" := content "old" ]} "Z2"
                (cachedAs "Z2")))).
Proof.
  apply (cover_idempotence (serving "Z2") foo gameVersion
           (onDisk {[ lit "/repo/covers/hZ2.png" := content "old" ]})
           (lit "hZ2") (content "Z2")
           (downloaded {[ lit "/repo/covers/hZ2.png" := content "old" ]} "Z2"
              (cachedAs "Z2"))
           (Some (mkZipEntry (lit "cover.png") (content "img")))
           (hashedOutput foo (lit "hZ2"))
           (manifestRead (qmodPathOf (serving "Z2") foo gameVersion) (lit "mod.json")
              (downloaded {[ lit "/repo/covers/hZ2.png" := content "old" ]} "Z2"
                 (cachedAs "Z2")))
           (content "img")
           (hashedOutput foo (lit "hZ2"))
           (logEvent (EvExtractCover (lit "cover.png"))
              (manifestRead (qmodPathOf (serving "Z2") foo gameVersion) (lit "mod.json")
                 (downloaded {[ lit "/repo/covers/hZ2.png" := content "old" ]} "Z2"
                    (cachedAs "Z2"))))
           cover_archive_downloaded).
  - reflexivity.
  - reflexivity.
  - evaluate.
Defined.

Example cover_url_of_hash :
  coverUrl (serving "Z2") (coverFilenameOf (serving "Z2") (lit "hZ2"))
  = lit "./covers/hZ2.png"
  ∧ coverFilenameOf (serving "Z2") (lit "hZ2") = lit "/repo/covers/hZ2.png".
Proof. split; evaluate. Qed.

(** ** C8 *)

Lemma field_normalization_witness :
  get (normalizeMod (modKeys (env [] ∅))
         (<["cover" := Some (coverUrl (env [] ∅)
                               (coverFilenameOf (env [] ∅) (lit "abc123")))]> spaced))
      "name"
  = trimmedOrNull
      (get (<["cover" := Some (coverUrl (env [] ∅)
                                 (coverFilenameOf (env [] ∅) (lit "abc123")))]> spaced)
         "name")
  ∧ ("name" ≠ "cover" ->
     get (<["cover" := Some (coverUrl (env [] ∅)
                               (coverFilenameOf (env [] ∅) (lit "abc123")))]> spaced)
       "name"
     = get spaced "name").
Proof.
  apply (field_normalization (env [] ∅) spaced gameVersion cachedWorld
           (setHash (lit "abc123") emptyResult) _ cachedWorld "name").
  - reflexivity.
  - decided.
Defined.

(** C8 as stated fails for [cover]: on a cache hit with the cover on disk,
    [processQmod] writes the cover URL into the record, so the normalized
    [cover] is that URL and not the (missing) cover the mod came with. *)
Lemma normalized_cover_is_not_the_input :
  get foo "cover" = None
  ∧ "cover" ∈ modKeys (env [] ∅)
  ∧ (fun m => get (normalizeMod (modKeys (env [] ∅)) m) "cover")
      <$> modOf (processQmod (env [] ∅) foo gameVersion cachedWorld)
    = Some (Some (lit "./covers/abc123.png"))
  ∧ ¬ normalizationStated (env [] ∅) foo gameVersion cachedWorld.
Proof.
  split; [evaluate|]. split; [decided|]. split; [evaluate|]. intros Hstated.
  assert (Hcover : get (normalizeMod (modKeys (env [] ∅))
                          (<["cover" := Some (coverUrl (env [] ∅)
                                                (coverFilenameOf (env [] ∅)
                                                   (lit "abc123")))]> foo)) "cover"
                   = trimmedOrNull (get foo "cover")).
  { apply (Hstated (setHash (lit "abc123") emptyResult) _ cachedWorld "cover");
      [reflexivity | decided]. }
  vm_compute in Hcover. discriminate.
Qed.

(** ** C9 *)

Lemma fatal_validation_witness :
  ∃ status msg st,
    run (env [] ∅) [(gameVersion, [(lit "wrong.json", foo)])] emptyWorld
    = Exited status msg st
    ∧ status ≠ 0%Z.
Proof.
  destruct (fatal_validation (env [] ∅) [(gameVersion, [(lit "wrong.json", foo)])]
              emptyWorld) as (_ & _ & Hfatal & _).
  destruct Hfatal as [Hexit|[Hthrew _]].
  - exists gameVersion, [(lit "wrong.json", foo)], (lit "wrong.json", foo).
    split; [apply elem_of_cons; left; reflexivity|].
    split; [apply elem_of_cons; left; reflexivity|].
    left. vm_compute. discriminate.
  - exact Hexit.
  - vm_compute in Hthrew. discriminate.
Defined.

Example fatal_examples :
  validate (env [] ∅) gameVersion fooFile foo = None
  ∧ validate (env [] ∅) gameVersion fooFile (<["name" := Some (lit " ")]> foo)
    = Some (lit "Mod name not set")
  ∧ validate (env [] ∅) gameVersion fooFile (<["modloader" := Some (lit "Other")]> foo)
    = Some (lit "Mod loader is invalid")
  ∧ validate (env [] ∅) gameVersion fooFile (delete "download" foo)
    = Some (lit "Mod download not set").
Proof. repeat split; evaluate. Qed.

(** ** C10 *)

Lemma processQmod_never_throws_witness :
  ∃ output modInfo' w',
    processQmod (env [] ∅)
      foo gameVersion
      emptyWorld
    = Ok (output, modInfo', w').
Proof. apply processQmod_never_throws; vm_compute; reflexivity. Defined.

(** * Further properties of the script *)

(** ** The base of the cover URLs (lines 33-43) *)

Lemma startsWith_app (p s : jsstring) : startsWith p (p ++ s) = true.
Proof.
  induction p as [|c p IH]; [reflexivity|].
  cbn [app startsWith]. rewrite N.eqb_refl. exact IH.
Qed.

(** X1. The base of the cover URLs is what follows [--baseHref=] in the first
    command-line argument that starts with it, later ones being ignored, and
    [.] when no argument does. *)
Theorem urlBase_first_baseHref (E : Env) (before : list jsstring) :
  Forall (fun arg => startsWith baseHrefArg arg = false) before ->
  (args E = before -> urlBase E = lit ".")
  ∧ (∀ value after,
       args E = before ++ (baseHrefArg ++ value) :: after -> urlBase E = value).
Proof.
  intros Hbefore.
  assert (Hfind : ∀ rest,
             List.find (startsWith baseHrefArg) (before ++ rest)
             = List.find (startsWith baseHrefArg) rest).
  { intros rest. induction Hbefore as [|arg before Harg _ IH]; [reflexivity|].
    cbn [app List.find]. rewrite Harg. exact IH. }
  split.
  - intros Hargs. unfold urlBase. rewrite Hargs, <- (app_nil_r before), Hfind.
    reflexivity.
  - intros value after Hargs. unfold urlBase. rewrite Hargs, Hfind.
    cbn [List.find]. rewrite startsWith_app. unfold substring.
    apply drop_app_length.
Qed.

Lemma urlBase_first_baseHref_witness :
  urlBase (env [lit "--skipHashes"; lit "--baseHref=https://mods.example";
                lit "--baseHref=ignored"] ∅)
  = lit "https://mods.example".
Proof.
  apply (urlBase_first_baseHref _ [lit "--skipHashes"]) with (after := [lit "--baseHref=ignored"]).
  - repeat constructor.
  - reflexivity.
Defined.

(** ** When processQmod throws (lines 66-68, 91-101) *)

(** X2. [processQmod] throws exactly when hashing is not skipped and either
    the download field is missing or empty, or the cache gives no usable hash
    and the id or the version is missing or empty; the message is the one of
    the first such field in the order download, id, version. The check of
    line 99 never fires. *)
Theorem processQmod_throws (E : Env) (modInfo : Mod) (gameVersion : jsstring)
    (w : World) (msg : jsstring) :
  (processQmod E modInfo gameVersion w = Throw msg
   <-> skipHashes E = false
       ∧ ((truthy (get modInfo "download") = false
           ∧ msg = lit "Mod download not set.")
          ∨ (truthy (get modInfo "download") = true
             ∧ (recheck E (orEmpty (get modInfo "download"))
                  (hashes w !! orEmpty (get modInfo "download")) w).1 = None
             ∧ ((truthy (get modInfo "id") = false ∧ msg = lit "Mod ID not set")
                ∨ (truthy (get modInfo "id") = true
                   ∧ truthy (get modInfo "version") = false
                   ∧ msg = lit "Mod version not set")))))
  ∧ processQmod E modInfo gameVersion w ≠ Throw (lit "Mod download not set").
Proof.
  assert (Hperiod : lit "Mod download not set." ≠ lit "Mod download not set")
    by (vm_compute; discriminate).
  unfold processQmod.
  destruct (skipHashes E); [split; [split; [discriminate | intros [? _]; discriminate]
                                   | discriminate]|].
  destruct (truthy (get modInfo "download")) eqn:Hdl; cbn [negb].
  2:{ split; [|congruence]. split.
      - intros [= <-]. auto.
      - intros (_ & [[_ ->]|[? _]]); [reflexivity | discriminate]. }
  destruct (recheck E _ _ w) as [[h|] w1] eqn:Hre; cbn [fst].
  { split; [split|]; [case_match; discriminate | | case_match; discriminate].
    intros (_ & [[? _]|(_ & ? & _)]); discriminate. }
  destruct (truthy (get modInfo "id")) eqn:Hid; cbn [negb].
  2:{ split; [|discriminate]. split.
      - intros [= <-]. auto 10.
      - intros (_ & [[? _]|(_ & _ & [[_ ->]|(? & _)])]);
          [discriminate | reflexivity | discriminate]. }
  destruct (truthy (get modInfo "version")) eqn:Hver; cbn [negb].
  2:{ split; [|discriminate]. split.
      - intros [= <-]. auto 10.
      - intros (_ & [[? _]|(_ & _ & [[? _]|(_ & _ & ->)])]);
          [discriminate | discriminate | reflexivity]. }
  assert (Hok : ∀ m, (let qmodPath := qmodPathOf E modInfo gameVersion in
                      let w := logEvent (EvMkdir (pathDirname E qmodPath)) w1 in
                      let output := pushMessage (orEmpty (get modInfo "download"))
                                      emptyResult in
                      let '(qmodHash, w) :=
                        obtainHash E (orEmpty (get modInfo "download")) qmodPath w in
                      match qmodHash with
                      | None => Ok (pushError (lit "Not found") output, modInfo, w)
                      | Some qmodHash =>
                          let w := setHashes (<[orEmpty (get modInfo "download")
                                                := qmodHash]> (hashes w)) w in
                          let output := setHash qmodHash output in
                          match fsys w !! qmodPath with
                          | None =>
                              Ok (pushError (lit "Local file not found") output,
                                  modInfo, w)
                          | Some content =>
                              match inspectArchive E qmodPath content output w with
                              | inl (output, w) => Ok (output, modInfo, w)
                              | inr (coverFile, output, w) =>
                                  let '(coverBuffer, output, w) :=
                                    fetchCoverBuffer E coverFile modInfo output w in
                                  let '(modInfo, output, w) :=
                                    linkCover E coverBuffer (coverFilenameOf E qmodHash)
                                      modInfo output w in
                                  Ok (output, modInfo, w)
                              end
                          end
                      end) ≠ Throw m).
  { intros m. cbv zeta. repeat case_match; discriminate. }
  split; [split|]; [intros H; exfalso; exact (Hok _ H) | | apply Hok].
  intros (_ & [[? _]|(_ & _ & [[? _]|(_ & ? & _)])]); discriminate.
Qed.

(** ** The shape of an outcome *)

Lemma inspectArchive_accept_messages (E : Env) qmodPath content output w
    coverFile output' w' :
  inspectArchive E qmodPath content output w = inr (coverFile, output', w') ->
  messages output' = messages output.
Proof.
  unfold inspectArchive. intros H. repeat case_match; simplify_eq; reflexivity.
Qed.

Lemma fetchCoverBuffer_messages (E : Env) coverFile (modInfo : Mod) output w
    coverBuffer output' w' :
  fetchCoverBuffer E coverFile modInfo output w = (coverBuffer, output', w') ->
  messages output' = messages output.
Proof.
  unfold fetchCoverBuffer. intros H. repeat case_match; simplify_eq; reflexivity.
Qed.

Lemma linkCover_messages (E : Env) coverBuffer coverFilename (modInfo : Mod)
    output w modInfo' output' w' :
  linkCover E coverBuffer coverFilename modInfo output w = (modInfo', output', w') ->
  messages output' = messages output.
Proof.
  unfold linkCover. intros H. repeat case_match; simplify_eq; reflexivity.
Qed.

Lemma processQmod_caches_hash (E : Env) (modInfo : Mod) (gameVersion : jsstring)
    (w : World) (output : QmodResult) (modInfo' : Mod) (w' : World) :
  skipHashes E = false ->
  processQmod E modInfo gameVersion w = Ok (output, modInfo', w') ->
  hashes w' !! orEmpty (get modInfo "download") = hash output.
Proof.
  intros Hskip H. stages H; simpl in *.
  - apply recheck_hit in Hrecheck as (Hq & _ & -> & _). exact Hq.
  - apply recheck_hit in Hrecheck as (Hq & _ & -> & _). exact Hq.
  - apply inspectArchive_reject in Hinspect as (-> & msg & ->). simpl.
    apply lookup_insert_eq.
  - apply inspectArchive_accept in Hinspect as (Hi & _ & _ & Hih).
    apply fetchCoverBuffer_frame in Hfetch as (Hf & _ & _ & Hfh).
    apply linkCover_frame in Hlink as (Hl & _ & Hlh & _).
    rewrite Hl, Hf, Hi, Hlh, Hfh, Hih. simpl. apply lookup_insert_eq.
  - apply lookup_insert_eq.
  - apply recheck_miss in Hrecheck as (Hnone & _).
    apply obtainHash_hashes in Hobtain. rewrite Hobtain. exact Hnone.
Qed.

(** X3. Without [--skipHashes], the hash of a returned outcome is what the
    Hash Cache holds under [mod.download] when the call returns: both are
    absent after a failed download, both are the hash otherwise, also when
    the outcome has an error. *)
Theorem outcome_hash_is_cached (E : Env) (modInfo : Mod) (gameVersion : jsstring)
    (w : World) (output : QmodResult) (modInfo' : Mod) (w' : World) :
  skipHashes E = false ->
  processQmod E modInfo gameVersion w = Ok (output, modInfo', w') ->
  hashes w' !! orEmpty (get modInfo "download") = hash output.
Proof. apply processQmod_caches_hash. Qed.


(** X4. A returned outcome has at most one error. When it has one, the mod
    record is returned as it was passed and the outcome has no warning. Its
    messages are the download URL alone, or nothing on a cache hit or when
    hashing is skipped. It lacks a hash only when hashing is skipped or the
    download failed. *)
Theorem outcome_shape (E : Env) (modInfo : Mod) (gameVersion : jsstring)
    (w : World) (output : QmodResult) (modInfo' : Mod) (w' : World) :
  processQmod E modInfo gameVersion w = Ok (output, modInfo', w') ->
  length (errors output) ≤ 1
  ∧ (errors output ≠ [] -> modInfo' = modInfo ∧ warnings output = [])
  ∧ (messages output = []
     ∨ messages output = [orEmpty (get modInfo "download")])
  ∧ (hash output = None ->
     skipHashes E = true ∨ errors output = [lit "Not found"]).
Proof.
  intros H. stages H; simpl in *;
    try (repeat split; (lia || auto || (intros; congruence)); fail).
  - apply inspectArchive_reject in Hinspect as (_ & msg & ->). simpl.
    repeat split; auto; discriminate.
  - pose proof (inspectArchive_accept _ _ _ _ _ _ _ _ Hinspect) as (_ & _ & Hie & Hih).
    pose proof (inspectArchive_accept_messages _ _ _ _ _ _ _ _ Hinspect) as Him.
    pose proof (fetchCoverBuffer_frame _ _ _ _ _ _ _ _ Hfetch) as (_ & _ & Hfe & Hfh).
    pose proof (fetchCoverBuffer_messages _ _ _ _ _ _ _ _ Hfetch) as Hfm.
    pose proof (linkCover_frame _ _ _ _ _ _ _ _ _ Hlink) as (_ & Hle & Hlh & _).
    pose proof (linkCover_messages _ _ _ _ _ _ _ _ _ Hlink) as Hlm.
    simpl in *.
    assert (He : errors output = []) by congruence.
    rewrite He. repeat split.
    + simpl. lia.
    + congruence.
    + congruence.
    + right. congruence.
    + congruence.
Qed.

(** ** Rechecking a dead URL (lines 70-79) *)

(** X5. With [--recheckUrls], a cached URL that no longer answers is
    treated as never cached: the call is the call on the world with the probe
    recorded and the entry deleted, so the package is hashed afresh from disk
    or downloaded again, and the stale hash is not returned. *)
Theorem recheck_dead_is_miss (E : Env) (modInfo : Mod) (gameVersion : jsstring)
    (w : World) (stale : jsstring) :
  skipHashes E = false ->
  recheckUrls E = true ->
  truthy (get modInfo "download") = true ->
  hashes w !! orEmpty (get modInfo "download") = Some stale ->
  checkUrl E w (orEmpty (get modInfo "download")) = false ->
  processQmod E modInfo gameVersion w
  = processQmod E modInfo gameVersion
      (setHashes (delete (orEmpty (get modInfo "download")) (hashes w))
         (logEvent (EvCheckUrl (orEmpty (get modInfo "download"))) w)).
Proof.
  intros Hskip Hre Hdl Hstale Hdead. unfold processQmod.
  rewrite Hskip, Hdl. cbn [negb]. rewrite Hstale. unfold recheck at 1.
  rewrite Hre, Hdead. cbn [hashes setHashes logEvent].
  rewrite lookup_delete_eq. reflexivity.
Qed.

(** ** The calls a run of processQmod makes *)

Lemma extendsWith_refl P w : extendsWith P w w.
Proof. exists []. split; [symmetry; apply app_nil_r | reflexivity]. Qed.

Lemma extendsWith_same P w w' : trace w' = trace w -> extendsWith P w w'.
Proof. intros H. exists []. split; [rewrite H; symmetry; apply app_nil_r | reflexivity]. Qed.

Lemma extendsWith_trans P w1 w2 w3 :
  extendsWith P w1 w2 -> extendsWith P w2 w3 -> extendsWith P w1 w3.
Proof.
  intros (e1 & H1 & F1) (e2 & H2 & F2). exists (e1 ++ e2). split.
  - rewrite H2, H1, app_assoc. reflexivity.
  - rewrite forallb_app, F1, F2. reflexivity.
Qed.

Lemma extendsWith_log P e w w' :
  P e = true -> extendsWith P (logEvent e w) w' -> extendsWith P w w'.
Proof.
  intros He H. apply (extendsWith_trans P w (logEvent e w) w'); [|exact H].
  exists [e]. split; [reflexivity | simpl; rewrite He; reflexivity].
Qed.

Lemma extendsWith_weaken (P Q : event -> bool) w w' :
  (∀ e, P e = true -> Q e = true) -> extendsWith P w w' -> extendsWith Q w w'.
Proof.
  intros HPQ (evs & Ht & HF). exists evs. split; [exact Ht|].
  apply forallb_forall. intros e He. apply HPQ.
  exact (proj1 (forallb_forall P evs) HF e He).
Qed.

Lemma extendsWith_not_in P w w' e :
  extendsWith P w w' -> P e = false -> e ∉ newEvents w w'.
Proof.
  intros (evs & Ht & HF) He Hin. rewrite (newEvents_app _ _ _ Ht) in Hin.
  apply list_elem_of_In in Hin.
  rewrite (proj1 (forallb_forall P evs) HF e Hin) in He. discriminate.
Qed.

Lemma recheck_extends (E : Env) download qmodHash w qmodHash' w' :
  recheck E download qmodHash w = (qmodHash', w') ->
  extendsWith (fun e => negb (isDownload e) && negb (isFetchBuffer e)) w w'.
Proof.
  unfold recheck. intros H. repeat case_match; simplify_eq;
    first [apply extendsWith_refl
          | exists [EvCheckUrl download]; split; reflexivity].
Qed.

Lemma inspectArchive_extends (E : Env) qmodPath content output w :
  match inspectArchive E qmodPath content output w with
  | inl (_, w') => extendsWith isLocalCall w w'
  | inr (_, _, w') => extendsWith isLocalCall w w'
  end.
Proof.
  unfold inspectArchive.
  repeat case_match; simplify_eq;
    (eexists; split; [simpl; rewrite <- ?app_assoc; reflexivity | reflexivity]).
Qed.

Lemma fetchCoverBuffer_entry_extends (E : Env) coverFile (modInfo : Mod) output w
    coverBuffer output' w' :
  fetchCoverBuffer E (Some coverFile) modInfo output w = (coverBuffer, output', w') ->
  trace w' = trace w ++ [EvExtractCover (entryName coverFile)].
Proof.
  unfold fetchCoverBuffer. intros H. repeat case_match; simplify_eq; reflexivity.
Qed.

Lemma fetchCoverBuffer_extends (E : Env) coverFile (modInfo : Mod) output w
    coverBuffer output' w' :
  fetchCoverBuffer E coverFile modInfo output w = (coverBuffer, output', w') ->
  extendsWith (fun e => negb (isDownload e)) w w'.
Proof.
  unfold fetchCoverBuffer. intros H. repeat case_match; simplify_eq;
    first [apply extendsWith_refl
          | eexists [_]; split; reflexivity].
Qed.

Lemma linkCover_extends (E : Env) coverBuffer coverFilename (modInfo : Mod)
    output w modInfo' output' w' :
  linkCover E coverBuffer coverFilename modInfo output w = (modInfo', output', w') ->
  extendsWith isLocalCall w w'.
Proof.
  intros H. apply linkCover_trace in H as [H|H].
  - apply extendsWith_same. exact H.
  - eexists. split; [exact H | reflexivity].
Qed.

Lemma local_not_download e : isLocalCall e = true -> negb (isDownload e) = true.
Proof. destruct e; simpl; congruence. Qed.

Lemma local_not_fetch e : isLocalCall e = true -> negb (isFetchBuffer e) = true.
Proof. destruct e; simpl; congruence. Qed.

(** X6. When the package of a mod is already on disk at its path, a call of
    [processQmod] downloads nothing, whatever the cache says. *)
Theorem no_download_with_local_package (E : Env) (modInfo : Mod)
    (gameVersion : jsstring) (w : World) (content : bytes)
    (output : QmodResult) (modInfo' : Mod) (w' : World) :
  fsys w !! qmodPathOf E modInfo gameVersion = Some content ->
  processQmod E modInfo gameVersion w = Ok (output, modInfo', w') ->
  extendsWith (fun e => negb (isDownload e)) w w'
  ∧ ∀ url path, EvDownload url path ∉ newEvents w w'.
Proof.
  intros Hlocal H.
  assert (Hext : extendsWith (fun e => negb (isDownload e)) w w').
  { unfold processQmod in H.
    destruct (skipHashes E); [simplify_eq; apply extendsWith_refl|].
    destruct (truthy (get modInfo "download")); cbn [negb] in H; [|discriminate].
    destruct (recheck E _ _ w) as [qmodHash w0] eqn:Hre.
    assert (Hfs0 : fsys w0 = fsys w).
    { unfold recheck in Hre. repeat case_match; simplify_eq; reflexivity. }
    apply recheck_extends in Hre.
    apply (extendsWith_trans _ w w0 w').
    { eapply extendsWith_weaken; [|exact Hre].
      intros e He. apply andb_true_iff in He as [He _]. exact He. }
    destruct qmodHash as [h|].
    { repeat case_match; simplify_eq; apply extendsWith_refl. }
    destruct (truthy (get modInfo "id")); cbn [negb] in H; [|discriminate].
    destruct (truthy (get modInfo "version")); cbn [negb] in H; [|discriminate].
    cbv zeta in H. unfold obtainHash in H. cbn [fsys logEvent] in H.
    rewrite Hfs0, Hlocal in H. cbn [fsys setHashes logEvent] in H.
    rewrite Hfs0, Hlocal in H.
    match type of H with
    | context [inspectArchive _ _ _ _ ?w1] =>
        apply (extendsWith_trans _ w0 w1 w');
          [exists [EvMkdir (pathDirname E (qmodPathOf E modInfo gameVersion));
                   EvReadFile (qmodPathOf E modInfo gameVersion)];
           split; [simpl; rewrite <- app_assoc; reflexivity | reflexivity]|]
    end.
    match type of H with
    | context [inspectArchive ?a ?b ?c ?d ?e] =>
        pose proof (inspectArchive_extends a b c d e) as Hi;
        destruct (inspectArchive a b c d e) as [[o2 w2]|[[cf o2] w2]]
    end.
    - simplify_eq. eapply extendsWith_weaken; [apply local_not_download | exact Hi].
    - destruct (fetchCoverBuffer E cf modInfo o2 w2) as [[buf o3] w3] eqn:Hf.
      destruct (linkCover E buf _ modInfo o3 w3) as [[m4 o4] w4] eqn:Hl.
      simplify_eq.
      eapply extendsWith_trans;
        [eapply extendsWith_weaken; [apply local_not_download | exact Hi]|].
      eapply extendsWith_trans; [eapply fetchCoverBuffer_extends; exact Hf|].
      eapply extendsWith_weaken; [apply local_not_download|].
      eapply linkCover_extends; exact Hl. }
  split; [exact Hext|]. intros url path.
  eapply extendsWith_not_in; [exact Hext | reflexivity].
Qed.

(** ** The manifest (lines 142-167) *)

Lemma manifestEntry_precedence (zip : Zip) (infoFile : ZipEntry) :
  manifestEntry zip = Some infoFile ->
  match zip !! lit "bmbfmod.json" with
  | Some data => infoFile = mkZipEntry (lit "bmbfmod.json") data
  | None =>
      ∃ data, zip !! lit "mod.json" = Some data
              ∧ infoFile = mkZipEntry (lit "mod.json") data
  end.
Proof.
  unfold manifestEntry, zipFile. intros H.
  destruct (zip !! lit "bmbfmod.json") as [data|]; cbn [fmap option_fmap option_map] in H.
  - congruence.
  - destruct (zip !! lit "mod.json") as [data|]; cbn [fmap option_fmap option_map] in H;
      [|discriminate].
    exists data. split; [reflexivity | congruence].
Qed.

(** X7. The manifest is [bmbfmod.json] whenever the archive has that entry,
    [mod.json] being read only without it. When the manifest cannot be read
    or parsed, the outcome has the single error "Processing " followed by the
    name of that entry, the mod record and the disk are left as they were (the
    package is not deleted), and the hash stays cached. *)
Theorem manifest_unreadable (E : Env) (modInfo : Mod) (gameVersion : jsstring)
    (w : World) (h : jsstring) (content : bytes) (w1 : World) (zip : Zip)
    (infoFile : ZipEntry) :
  packageObtained E modInfo gameVersion w h content w1 ->
  loadZip E content = Some zip ->
  manifestEntry zip = Some infoFile ->
  readManifest E (entryData infoFile) = None ->
  processQmod E modInfo gameVersion w
  = Ok (pushError (lit "Processing " ++ entryName infoFile) (hashedOutput modInfo h),
        modInfo,
        manifestRead (qmodPathOf E modInfo gameVersion) (entryName infoFile) w1)
  ∧ fsys w1 !! qmodPathOf E modInfo gameVersion = Some content
  ∧ hashes w1 !! orEmpty (get modInfo "download") = Some h
  ∧ (is_Some (zip !! lit "bmbfmod.json") -> entryName infoFile = lit "bmbfmod.json")
  ∧ (zip !! lit "bmbfmod.json" = None -> entryName infoFile = lit "mod.json").
Proof.
  intros Hpkg Hzip Hinfo Hjson.
  rewrite (processQmod_after_package _ _ _ _ _ _ _ Hpkg).
  destruct Hpkg as (_ & _ & _ & _ & w0 & w0' & _ & _ & -> & Hfile).
  split; [|split; [exact Hfile|split; [apply lookup_insert_eq|]]].
  - unfold inspectArchive. rewrite Hzip, Hinfo, Hjson. reflexivity.
  - apply manifestEntry_precedence in Hinfo.
    destruct (zip !! lit "bmbfmod.json") as [data|].
    + subst infoFile. split; [reflexivity | discriminate].
    + destruct Hinfo as (data & _ & ->). split; [intros [? ?]; discriminate | reflexivity].
Qed.

(** ** Where the cover comes from (lines 153-188) *)

(** X8. When the manifest declares a cover that the archive has, the cover
    is read from the archive and the mod's cover URL is never fetched, not
    even when reading the entry fails: in that case the outcome has the
    warning "Error fetching cover buffer" and the mod keeps the cover it came
    with. The mod is admitted either way. *)
Theorem archive_cover_preferred (E : Env) (modInfo : Mod) (gameVersion : jsstring)
    (w : World) (h : jsstring) (content : bytes) (w1 : World) (zip : Zip)
    (infoFile : ZipEntry) (json : Manifest) (name : jsstring) (data : bytes) :
  packageObtained E modInfo gameVersion w h content w1 ->
  loadZip E content = Some zip ->
  manifestEntry zip = Some infoFile ->
  readManifest E (entryData infoFile) = Some json ->
  declaredCover json = Some name ->
  isNullOrWhitespace (Some name) = false ->
  name ≠ lit "undefined" ->
  zip !! name = Some data ->
  ∃ output modInfo' w',
    processQmod E modInfo gameVersion w = Ok (output, modInfo', w')
    ∧ errors output = []
    ∧ EvExtractCover name ∈ newEvents w1 w'
    ∧ (∀ url, EvFetchBuffer url ∉ newEvents w1 w')
    ∧ (entryArrayBuffer E data = None ->
       modInfo' = modInfo
       ∧ warnings output = [lit "Error fetching cover buffer"]
       ∧ fsys w' = fsys w1).
Proof.
  intros Hpkg Hzip Hinfo Hjson Hd Hnb Hne Hz.
  rewrite (processQmod_after_package _ _ _ _ _ _ _ Hpkg).
  set (qmodPath := qmodPathOf E modInfo gameVersion).
  assert (Hinspect :
            inspectArchive E qmodPath content (hashedOutput modInfo h) w1
            = inr (Some (mkZipEntry name data), hashedOutput modInfo h,
                   manifestRead qmodPath (entryName infoFile) w1)).
  { unfold inspectArchive. rewrite Hzip, Hinfo, Hjson. cbv zeta. rewrite Hd, Hnb.
    rewrite bool_decide_eq_false_2 by congruence.
    cbn [negb andb orEmpty]. unfold zipFile. rewrite Hz. reflexivity. }
  rewrite Hinspect.
  destruct (fetchCoverBuffer E (Some (mkZipEntry name data)) modInfo _ _)
    as [[buffer output3] w3] eqn:Hfetch.
  destruct (linkCover E buffer (coverFilenameOf E h) modInfo output3 w3)
    as [[modInfo' output4] w4] eqn:Hlink.
  exists output4, modInfo', w4. split; [reflexivity|].
  pose proof (fetchCoverBuffer_frame _ _ _ _ _ _ _ _ Hfetch) as (_ & _ & Hf & _).
  pose proof (linkCover_frame _ _ _ _ _ _ _ _ _ Hlink) as (_ & Hl & _ & _).
  pose proof (fetchCoverBuffer_entry_extends _ _ _ _ _ _ _ _ Hfetch) as Ht3.
  cbn [entryName] in Ht3.
  assert (Ht : ∃ evs, trace w4
                      = trace w1
                        ++ [EvReadFile qmodPath; EvLoadZip qmodPath;
                            EvReadManifest (entryName infoFile); EvExtractCover name]
                        ++ evs
                      ∧ forallb isLocalCall evs = true).
  { destruct (linkCover_extends _ _ _ _ _ _ _ _ _ Hlink) as (evs & Ht4 & HF).
    exists evs. split; [|exact HF]. rewrite Ht4, Ht3.
    unfold manifestRead, archiveOpened. cbn [trace logEvent].
    rewrite <- !app_assoc. reflexivity. }
  destruct Ht as (evs & Ht & HF).
  split; [rewrite Hl, Hf; reflexivity|]. split; [|split].
  - rewrite (newEvents_app _ _ _ Ht). apply elem_of_app. left.
    rewrite !elem_of_cons. auto.
  - intros url Hin. rewrite (newEvents_app _ _ _ Ht) in Hin.
    apply elem_of_app in Hin as [Hin|Hin].
    + repeat (apply elem_of_cons in Hin as [Hin|Hin]; [discriminate|]).
      apply elem_of_nil in Hin. contradiction.
    + apply list_elem_of_In in Hin.
      pose proof (proj1 (forallb_forall _ _) HF _ Hin) as Hlocal. discriminate.
  - intros Hfail. unfold fetchCoverBuffer in Hfetch. cbn [entryData] in Hfetch.
    rewrite Hfail in Hfetch. simplify_eq. cbn [linkCover] in Hlink. simplify_eq.
    repeat split.
Qed.

(** ** A first cover (lines 190-213) *)

(** X9. With cover bytes in hand and no file yet at [covers/{hash}.png]:
    when the image is normalized, exactly that file is written, with the
    encoded image, and [mod.cover] is set to its URL without any warning
    added; when the image cannot be processed the disk is left as it was,
    [mod.cover] is not touched and the outcome gains the two warnings. The
    outcome has no error either way. *)
Theorem first_cover (E : Env) (modInfo : Mod) (gameVersion : jsstring)
    (w : World) (h : jsstring) (content : bytes) (w1 : World)
    (coverFile : option ZipEntry) (output2 : QmodResult) (w2 : World)
    (buffer : bytes) (output3 : QmodResult) (w3 : World) :
  packageObtained E modInfo gameVersion w h content w1 ->
  inspectArchive E (qmodPathOf E modInfo gameVersion) content
    (hashedOutput modInfo h) w1 = inr (coverFile, output2, w2) ->
  fetchCoverBuffer E coverFile modInfo output2 w2 = (Some buffer, output3, w3) ->
  existsSync w3 (coverFilenameOf E h) = false ->
  ∃ output modInfo' w',
    processQmod E modInfo gameVersion w = Ok (output, modInfo', w')
    ∧ errors output = []
    ∧ hashes w' = hashes w3
    ∧ match sharpPng E buffer with
      | Ok png =>
          output = output3
          ∧ modInfo' = <["cover" := Some (coverUrl E (coverFilenameOf E h))]> modInfo
          ∧ fsys w' = <[coverFilenameOf E h := png]> (fsys w3)
      | Throw message =>
          warnings output
          = warnings output3 ++ [lit "Error processing cover file"; message]
          ∧ modInfo' = modInfo
          ∧ fsys w' = fsys w3
      end.
Proof.
  intros Hpkg Hinspect Hfetch Hex.
  rewrite (processQmod_after_package _ _ _ _ _ _ _ Hpkg), Hinspect, Hfetch.
  pose proof (inspectArchive_accept _ _ _ _ _ _ _ _ Hinspect) as (_ & _ & Hie & _).
  pose proof (fetchCoverBuffer_frame _ _ _ _ _ _ _ _ Hfetch) as (_ & _ & Hfe & _).
  assert (He : errors output3 = []) by (rewrite Hfe, Hie; reflexivity).
  unfold linkCover. rewrite Hex.
  destruct (sharpPng E buffer) as [png|message]; eexists _, _, _;
    (split; [reflexivity|]); simpl.
  - auto.
  - rewrite <- app_assoc. auto.
Qed.

(** ** Calling processQmod again *)

Lemma linkCover_linked (E : Env) coverBuffer coverFilename (modInfo : Mod)
    output w modInfo' output' w' :
  linkCover E coverBuffer coverFilename modInfo output w = (modInfo', output', w') ->
  modInfo' = modInfo
  ∨ (modInfo' = <["cover" := Some (coverUrl E coverFilename)]> modInfo
     ∧ existsSync w' coverFilename = true).
Proof.
  unfold linkCover. intros H.
  destruct coverBuffer as [buffer|]; [|simplify_eq; auto].
  destruct (existsSync w coverFilename) eqn:Hex; [simplify_eq; auto|].
  destruct (sharpPng E buffer); simplify_eq; [|auto].
  right. split; [reflexivity|]. unfold existsSync. cbn [fsys setFsys].
  rewrite lookup_insert_eq. apply bool_decide_eq_true_2. eauto.
Qed.

Lemma processQmod_linked (E : Env) (modInfo : Mod) (gameVersion : jsstring)
    (w : World) (output : QmodResult) (modInfo' : Mod) (w' : World) (h : jsstring) :
  skipHashes E = false ->
  processQmod E modInfo gameVersion w = Ok (output, modInfo', w') ->
  hash output = Some h ->
  truthy (get modInfo "download") = true
  ∧ (modInfo' = modInfo
     ∨ (modInfo' = <["cover" := Some (coverUrl E (coverFilenameOf E h))]> modInfo
        ∧ existsSync w' (coverFilenameOf E h) = true)).
Proof.
  intros Hskip H Hh. stages H; simpl in *; simplify_eq; auto;
    match goal with
    | Hlink : linkCover _ _ _ _ _ _ = _ |- _ =>
        apply inspectArchive_accept in Hinspect as (_ & _ & _ & Hih);
        apply fetchCoverBuffer_frame in Hfetch as (_ & _ & _ & Hfh);
        pose proof (linkCover_frame _ _ _ _ _ _ _ _ _ Hlink) as (_ & _ & Hlh & _);
        rewrite Hlh, Hfh, Hih in Hh; simpl in Hh; simplify_eq;
        split; [reflexivity|]; eapply linkCover_linked; exact Hlink
    | _ => idtac
    end.
Qed.

(** X10. A call that returned a hash makes the next call for the same mod a
    cache hit (without [--skipHashes] and [--recheckUrls]): called again on
    the world the first call left, [processQmod] returns the same hash with
    no message, error or warning and leaves that world as it is (nothing is
    downloaded, read or encoded again). The record it returns is the one of
    the first call, unless the first call left the record without cover link. *)
Theorem second_call_hits_cache (E : Env) (modInfo : Mod) (gameVersion : jsstring)
    (w : World) (output : QmodResult) (modInfo' : Mod) (w' : World) (h : jsstring) :
  skipHashes E = false ->
  recheckUrls E = false ->
  processQmod E modInfo gameVersion w = Ok (output, modInfo', w') ->
  hash output = Some h ->
  ∃ modInfo'',
    processQmod E modInfo gameVersion w' = Ok (setHash h emptyResult, modInfo'', w')
    ∧ (modInfo'' = modInfo' ∨ modInfo' = modInfo).
Proof.
  intros Hskip Hre H Hh.
  pose proof (processQmod_caches_hash _ _ _ _ _ _ _ Hskip H) as Hcached.
  rewrite Hh in Hcached.
  destruct (processQmod_linked _ _ _ _ _ _ _ _ Hskip H Hh) as (Hdl & Hlinked).
  unfold processQmod. rewrite Hskip, Hdl. cbn [negb]. rewrite Hcached.
  unfold recheck. rewrite Hre.
  destruct Hlinked as [->|[-> Hex]].
  - destruct (existsSync w' (coverFilenameOf E h)); eexists; split; eauto.
  - rewrite Hex. eexists. split; [reflexivity | auto].
Qed.

(** ** The catalog (lines 226-299) *)

Section Catalog.
Variable E : Env.

Lemma processEntry_catalog version (entry : jsstring * Mod) st st' :
  processEntry E version entry st = Continue st' ->
  (∀ v, v ≠ version -> allMods st' !! v = allMods st !! v)
  ∧ (allMods st' = allMods st
     ∨ ∃ uniformMod,
         recordOf E uniformMod entry
         ∧ allMods st'
           = <[version := default [] (allMods st !! version) ++ [uniformMod]]>
               (allMods st)).
Proof.
  destruct entry as [modFilename modInfo]. intros Hstep.
  apply processEntry_continue in Hstep as (_ & q & m & w' & Hp & ->).
  rewrite persistHashes_allMods. unfold settle.
  assert (Hrec : ∀ h, recordOf E (normalizeMod (modKeys E) m) (modFilename, modInfo)
                      ∧ recordOf E (<["hash" := h]> (normalizeMod (modKeys E) m))
                          (modFilename, modInfo)).
  { intros h.
    assert (Hn : recordOf E (normalizeMod (modKeys E) m) (modFilename, modInfo)).
    { intros key Hkey Hc _. cbn [snd].
      rewrite get_normalizeMod, bool_decide_eq_true_2 by exact Hkey.
      rewrite normalizeField_trimmedOrNull. f_equal.
      apply processQmod_cover_only in Hp as [->|[url ->]]; [reflexivity|].
      apply get_insert_ne. congruence. }
    split; [exact Hn|]. intros key Hkey Hc Hh.
    rewrite get_insert_ne by congruence. apply Hn; assumption. }
  case_bool_decide; cbn [allMods world].
  - split.
    + intros v Hv. case_match; cbn [allMods]; apply lookup_insert_ne; congruence.
    + right. case_match.
      * eexists. split; [|reflexivity]. apply Hrec.
      * eexists. split; [exact (proj1 (Hrec None)) | reflexivity].
  - split; [intros v _; case_match; reflexivity|]. left. case_match; reflexivity.
Qed.

(** What a pass over the files of a version does to the catalog. *)
Lemma runFiles_catalog version files st st' :
  runFiles E version files st = Continue st' ->
  (∀ v, v ≠ version -> allMods st' !! v = allMods st !! v)
  ∧ ∃ added admitted,
      (allMods st' = allMods st ∧ added = []
       ∨ allMods st' !! version
         = Some (default [] (allMods st !! version) ++ added))
      ∧ default [] (allMods st' !! version)
        = default [] (allMods st !! version) ++ added
      ∧ Forall2 (recordOf E) added admitted
      ∧ sublist admitted files.
Proof.
  revert st. induction files as [|entry files IH]; intros st Hrun; cbn [runFiles] in Hrun.
  - simplify_eq. split; [reflexivity|]. exists [], [].
    rewrite app_nil_r. repeat split; auto; constructor.
  - destruct (processEntry E version entry st) as [st1| |] eqn:Hstep; try discriminate.
    destruct (processEntry_catalog _ _ _ _ Hstep) as (Hother1 & Hthis1).
    destruct (IH st1 Hrun) as (Hother & added & admitted & Hshape & Hthis & Hrec & Hsub).
    split; [intros v Hv; rewrite (Hother v Hv); apply Hother1; exact Hv|].
    destruct Hthis1 as [Hsame|(u & Hu & Hins)].
    + exists added, admitted. rewrite <- Hsame. repeat split; auto.
      apply sublist_cons. exact Hsub.
    + assert (Hl1 : allMods st1 !! version
                    = Some (default [] (allMods st !! version) ++ [u]))
        by (rewrite Hins; apply lookup_insert_eq).
      exists (u :: added), (entry :: admitted).
      assert (Hd : default [] (allMods st' !! version)
                   = default [] (allMods st !! version) ++ u :: added).
      { rewrite Hthis, Hl1. cbn [default from_option id]. rewrite <- app_assoc.
        reflexivity. }
      repeat split.
      * right. destruct Hshape as [[Hs ->]|Hs].
        -- rewrite Hs, Hl1. reflexivity.
        -- rewrite Hs, Hl1. cbn [default from_option id]. rewrite <- app_assoc.
           reflexivity.
      * exact Hd.
      * constructor; assumption.
      * apply sublist_skip. exact Hsub.
Qed.

End Catalog.

(** X11. A pass over the mod files of a game version only appends to that
    version's list and touches no other list. The records it appends are
    those of some of the files, in the order of the files, each carrying
    the trimmed fields of its file ([cover] and [hash] apart); so at most one
    record is added per file. *)
Theorem catalog_grows_in_file_order (E : Env) (version : jsstring)
    (files : list (jsstring * Mod)) (st st' : RunState) :
  runFiles E version files st = Continue st' ->
  (∀ v, v ≠ version -> allMods st' !! v = allMods st !! v)
  ∧ ∃ added admitted,
      default [] (allMods st' !! version)
      = default [] (allMods st !! version) ++ added
      ∧ Forall2 (recordOf E) added admitted
      ∧ sublist admitted files
      ∧ length added ≤ length files.
Proof.
  intros Hrun.
  destruct (runFiles_catalog E _ _ _ _ Hrun)
    as (Hother & added & admitted & _ & Hthis & Hrec & Hsub).
  split; [exact Hother|]. exists added, admitted. repeat split; auto.
  rewrite (Forall2_length _ _ _ Hrec). apply sublist_length. exact Hsub.
Qed.

Section CatalogKeys.
Variable E : Env.

Lemma enterVersion_keys version st v :
  is_Some (allMods (enterVersion E version st) !! v)
  <-> v = version ∧ inherited E version = false ∨ is_Some (allMods st !! v).
Proof.
  unfold enterVersion. destruct (allMods st !! version) eqn:Hv.
  - split; [auto|]. intros [[-> _]|H]; [rewrite Hv; eauto | exact H].
  - destruct (inherited E version).
    + split; [auto|]. intros [[_ H]|H]; [discriminate | exact H].
    + cbn [allMods]. destruct (decide (version = v)) as [<-|Hne].
      * rewrite lookup_insert_eq. split; eauto.
      * rewrite lookup_insert_ne by exact Hne. split; [auto|].
        intros [[-> _]|H]; [congruence | exact H].
Qed.

Lemma runVersions_keys tree st st' v :
  runVersions E tree st = Continue st' ->
  is_Some (allMods st' !! v)
  <-> v ∈ treeVersions tree ∧ inherited E v = false ∨ is_Some (allMods st !! v).
Proof.
  revert st. induction tree as [|[version files] tree IH]; intros st Hrun;
    cbn [runVersions] in Hrun.
  - simplify_eq. unfold treeVersions. rewrite fmap_nil, elem_of_nil. tauto.
  - destruct (runFiles E version files (enterVersion E version st)) as [st1| |] eqn:Hfs;
      try discriminate.
    rewrite (IH st1 Hrun). unfold treeVersions. rewrite fmap_cons, elem_of_cons.
    cbn [fst]. fold (treeVersions tree).
    rewrite <- !not_eq_None_Some.
    rewrite (runFiles_keys E version files _ _ v Hfs).
    rewrite !not_eq_None_Some, enterVersion_keys.
    split.
    + intros [[Hin Hi]|[[-> Hi]|Hsome]]; auto.
    + intros [[[->|Hin] Hi]|Hsome]; auto.
Qed.

End CatalogKeys.

(** X12. The finished catalog has a list for every enumerated game version
    that is not named like a property which a plain object inherits, also for
    one without any admitted mod, and for no other key. *)
Theorem catalog_has_every_version (E : Env)
    (tree : list (jsstring * list (jsstring * Mod))) (w : World) (st : RunState)
    (version : jsstring) :
  run E tree w = Continue st ->
  is_Some (allMods st !! version)
  <-> version ∈ treeVersions tree ∧ inherited E version = false.
Proof.
  unfold run. intros Hrun.
  destruct (runVersions E tree (mkRunState w ∅)) as [st1| |] eqn:Hvs; try discriminate.
  injection Hrun as <-. cbn [allMods].
  rewrite (runVersions_keys E _ _ _ version Hvs). cbn [allMods].
  rewrite lookup_empty. split; [intros [H|[? H]]; [exact H | discriminate] | auto].
Qed.

Section InheritedVersion.
Variable E : Env.

Lemma runFiles_unlisted version files st :
  allMods st !! version = None ->
  match runFiles E version files st with
  | Continue st' | Exited _ _ st' => allMods st' = allMods st
  | Threw msg => msg = pushTypeError
  end.
Proof.
  revert st. induction files as [|[modFilename modInfo] files IH]; intros st Hnone;
    cbn [runFiles].
  - reflexivity.
  - destruct (validate E version modFilename modInfo) as [msg|] eqn:Hv.
    + destruct (processEntry_fatal E version (modFilename, modInfo) st) as (msg' & ->);
        [cbn [fst snd]; congruence | reflexivity].
    + destruct (processEntry_valid E version modFilename modInfo st Hv)
        as (q & m & w' & _ & ->).
      unfold pushThrows. rewrite (bool_decide_eq_true_2 _ Hnone), andb_true_r.
      case_bool_decide as Herr; [reflexivity|].
      set (st1 := persistHashes E _).
      assert (Hsame : allMods st1 = allMods st).
      { unfold st1. rewrite persistHashes_allMods.
        rewrite settle_rejects by exact Herr. reflexivity. }
      specialize (IH st1). rewrite Hsame in IH. specialize (IH Hnone).
      destruct (runFiles E version files st1); [congruence | congruence | exact IH].
Qed.

End InheritedVersion.

(** X20. For a game version named like a property that a plain object
    inherits, and without a list in the catalog, the pass over the mod files
    never lists a mod: it leaves the catalog as it was, when it completes
    or exits on a fatal mod file, or it ends by the TypeError that line 294
    throws at the first mod whose outcome has no error. *)
Theorem inherited_version_never_listed (E : Env) (version : jsstring)
    (files : list (jsstring * Mod)) (st : RunState) :
  inherited E version = true ->
  allMods st !! version = None ->
  match runFiles E version files (enterVersion E version st) with
  | Continue st' | Exited _ _ st' => allMods st' = allMods st
  | Threw msg => msg = pushTypeError
  end.
Proof.
  intros Hinh Hnone.
  assert (Henter : enterVersion E version st = st)
    by (unfold enterVersion; rewrite Hnone, Hinh; reflexivity).
  rewrite Henter. apply runFiles_unlisted. exact Hnone.
Qed.

(** ** Normalizing twice (lines 277-286) *)

Lemma lookup_normalizeMod keys (modInfo : Mod) key :
  normalizeMod keys modInfo !! key
  = if bool_decide (key ∈ keys) then Some (normalizeField (get modInfo key)) else None.
Proof.
  unfold normalizeMod.
  assert (H : ∀ acc : Mod,
             foldl (fun uniformMod key =>
                      <[key := normalizeField (get modInfo key)]> uniformMod) acc keys
             !! key
             = if bool_decide (key ∈ keys)
               then Some (normalizeField (get modInfo key)) else acc !! key).
  { induction keys as [|k keys IH]; intros acc; cbn [foldl].
    - rewrite bool_decide_eq_false_2 by apply not_elem_of_nil. reflexivity.
    - rewrite IH. destruct (decide (key ∈ keys)) as [Hin|Hin].
      + rewrite !bool_decide_eq_true_2; [reflexivity| |exact Hin].
        apply elem_of_cons. auto.
      + rewrite (bool_decide_eq_false_2 _ Hin).
        destruct (decide (k = key)) as [->|Hne].
        * rewrite bool_decide_eq_true_2 by (apply elem_of_cons; auto).
          apply lookup_insert_eq.
        * rewrite bool_decide_eq_false_2.
          -- apply lookup_insert_ne. exact Hne.
          -- rewrite elem_of_cons. intros [?|?]; congruence. }
  rewrite H, lookup_empty. reflexivity.
Qed.

Lemma normalizeField_value (v : option jsstring) (s : jsstring) :
  normalizeField v = Some s -> s ≠ [] ∧ trim s = s.
Proof.
  unfold normalizeField. case_bool_decide as Ht; [discriminate|].
  intros [= <-]. split; [exact Ht | apply trim_idempotent].
Qed.

Lemma normalizeField_idempotent (v : option jsstring) :
  normalizeField (normalizeField v) = normalizeField v.
Proof.
  destruct (normalizeField v) as [s|] eqn:Hv; [|reflexivity].
  apply normalizeField_value in Hv as [Hne Htrim].
  unfold normalizeField. cbn [orEmpty]. rewrite Htrim.
  rewrite bool_decide_eq_false_2 by exact Hne. reflexivity.
Qed.

(** X13. The normalized record has exactly the recognized keys. A value in
    it is never the empty string and has no whitespace at either end. And
    normalizing is idempotent: normalizing a normalized record gives it back. *)
Theorem normalizeMod_idempotent (keys : list string) (modInfo : Mod) :
  (∀ key, is_Some (normalizeMod keys modInfo !! key) <-> key ∈ keys)
  ∧ (∀ key s, get (normalizeMod keys modInfo) key = Some s ->
              s ≠ [] ∧ trim s = s ∧ isNullOrWhitespace (Some s) = false)
  ∧ normalizeMod keys (normalizeMod keys modInfo) = normalizeMod keys modInfo.
Proof.
  split; [|split].
  - intros key. rewrite lookup_normalizeMod. case_bool_decide; split; eauto.
    + intros [? ?]. discriminate.
    + contradiction.
  - intros key s Hs. rewrite get_normalizeMod in Hs.
    case_bool_decide; [|discriminate].
    apply normalizeField_value in Hs as [Hne Htrim]. repeat split; auto.
    cbn [isNullOrWhitespace]. rewrite Htrim. apply bool_decide_eq_false_2. exact Hne.
  - apply map_eq. intros key. rewrite !lookup_normalizeMod.
    case_bool_decide as Hkey; [|reflexivity]. f_equal.
    rewrite get_normalizeMod, bool_decide_eq_true_2 by exact Hkey.
    apply normalizeField_idempotent.
Qed.

(** ** The Hash Cache over a run *)

Section CacheOverRun.
Variable E : Env.

Lemma processEntry_persists version (entry : jsstring * Mod) st st' :
  processEntry E version entry st = Continue st' -> hashesPersisted E st'.
Proof.
  destruct entry as [modFilename modInfo]. intros Hstep.
  apply processEntry_continue in Hstep as (_ & q & m & w' & _ & ->).
  unfold hashesPersisted, persistHashes. cbn [world fsys hashes setFsys logEvent].
  apply lookup_insert_eq.
Qed.

Lemma runFiles_persists version files st st' :
  runFiles E version files st = Continue st' ->
  files ≠ [] ∨ hashesPersisted E st ->
  hashesPersisted E st'.
Proof.
  revert st. induction files as [|entry files IH]; intros st Hrun Hor;
    cbn [runFiles] in Hrun.
  - simplify_eq. destruct Hor as [Hne|?]; [exfalso; apply Hne; reflexivity | assumption].
  - destruct (processEntry E version entry st) as [st1| |] eqn:Hstep; try discriminate.
    apply (IH st1 Hrun). right. eapply processEntry_persists. exact Hstep.
Qed.

Lemma runVersions_persists tree st st' :
  runVersions E tree st = Continue st' ->
  treeFiles tree ≠ [] ∨ hashesPersisted E st ->
  hashesPersisted E st'.
Proof.
  revert st. induction tree as [|[version files] tree IH]; intros st Hrun Hor;
    cbn [runVersions] in Hrun.
  - simplify_eq. destruct Hor as [Hne|?]; [exfalso; apply Hne; reflexivity | assumption].
  - destruct (runFiles E version files (enterVersion E version st)) as [st1| |] eqn:Hfs;
      try discriminate.
    apply (IH st1 Hrun). unfold treeFiles in Hor. rewrite bind_cons in Hor.
    cbn [snd] in Hor. fold (treeFiles tree) in Hor.
    destruct (decide (treeFiles tree = [])) as [Hnil|Hnil]; [|left; exact Hnil].
    right. apply (runFiles_persists version files _ _ Hfs).
    rewrite Hnil, app_nil_r in Hor. destruct Hor as [Hne|Hp]; [left; exact Hne|].
    right. unfold hashesPersisted in *. rewrite enterVersion_world. exact Hp.
Qed.

Lemma runFiles_hashes_frame version files st st' k :
  k ∉ entryDownload <$> files ->
  k ∉ trim <$> (entryDownload <$> files) ->
  runFiles E version files st = Continue st' ->
  hashes (world st') !! k = hashes (world st) !! k.
Proof.
  revert st. induction files as [|[modFilename modInfo] files IH];
    intros st Hk Hkt Hrun; cbn [runFiles] in Hrun.
  - simplify_eq. reflexivity.
  - rewrite !fmap_cons, not_elem_of_cons in *.
    destruct Hk as [Hne Hk], Hkt as [Hnet Hkt].
    destruct (processEntry E version (modFilename, modInfo) st) as [st1| |] eqn:Hstep;
      try discriminate.
    rewrite (IH st1 Hk Hkt Hrun).
    eapply processEntry_hashes_frame; eauto.
Qed.

Lemma runVersions_hashes_frame tree st st' k :
  k ∉ treeDownloads tree ->
  k ∉ trim <$> treeDownloads tree ->
  runVersions E tree st = Continue st' ->
  hashes (world st') !! k = hashes (world st) !! k.
Proof.
  revert st. induction tree as [|[version files] tree IH]; intros st Hk Hkt Hrun;
    cbn [runVersions] in Hrun.
  - simplify_eq. reflexivity.
  - unfold treeDownloads in Hk, Hkt. rewrite bind_cons in Hk, Hkt.
    rewrite fmap_app in Hkt. rewrite not_elem_of_app in Hk, Hkt.
    destruct Hk as [Hf Ht], Hkt as [Hft Htt]. cbn [snd] in *.
    destruct (runFiles E version files (enterVersion E version st)) as [st1| |] eqn:Hfs;
      try discriminate.
    rewrite (IH st1 Ht Htt Hrun).
    rewrite (runFiles_hashes_frame version files _ _ k Hf Hft Hfs).
    rewrite enterVersion_world. reflexivity.
Qed.

End CacheOverRun.

(** X14. The hashes file is rewritten after every mod that is processed, so
    that at the end of a run that processed at least one mod file it is the
    serialized Hash Cache as the run leaves it (the catalog file being another
    file). *)
Theorem hashes_file_in_sync (E : Env)
    (tree : list (jsstring * list (jsstring * Mod))) (w : World) (st : RunState) :
  run E tree w = Continue st ->
  treeFiles tree ≠ [] ->
  hashesPath E ≠ allModsPath E ->
  (∀ version entry st0 st1,
     processEntry E version entry st0 = Continue st1 -> hashesPersisted E st1)
  ∧ hashesPersisted E st
  ∧ fsys (world st) !! allModsPath E = Some (stringifyMods E (allMods st)).
Proof.
  unfold run. intros Hrun Hfiles Hpaths.
  destruct (runVersions E tree (mkRunState w ∅)) as [st1| |] eqn:Hvs; try discriminate.
  injection Hrun as <-.
  pose proof (runVersions_persists E _ _ _ Hvs (or_introl Hfiles)) as Hp.
  split; [intros version entry st0 st2; apply processEntry_persists|].
  unfold hashesPersisted in *. cbn [world fsys hashes setFsys logEvent allMods].
  split; [|apply lookup_insert_eq].
  rewrite lookup_insert_ne by congruence. exact Hp.
Qed.

(** X15. A run leaves alone every cache entry whose URL is not the download
    URL of one of its mod files, as written or trimmed: such an entry is at
    the end what it was when the cache was loaded. *)
Theorem unrelated_cache_entries_kept (E : Env)
    (tree : list (jsstring * list (jsstring * Mod))) (w : World) (st : RunState)
    (url : jsstring) :
  url ∉ treeDownloads tree ->
  url ∉ trim <$> treeDownloads tree ->
  run E tree w = Continue st ->
  hashes (world st) !! url = hashes w !! url.
Proof.
  unfold run. intros Hk Hkt Hrun.
  destruct (runVersions E tree (mkRunState w ∅)) as [st1| |] eqn:Hvs; try discriminate.
  injection Hrun as <-. cbn [world hashes setFsys logEvent].
  apply (runVersions_hashes_frame E _ _ _ _ Hk Hkt Hvs).
Qed.

(** ** A run with --skipHashes *)

Section SkipRun.
Variable E : Env.
Hypothesis skipping : skipHashes E = true.
Hypothesis download_recognized : "download" ∈ modKeys E.

Lemma processEntry_skip version modFilename (modInfo : Mod) st st' :
  processEntry E version (modFilename, modInfo) st = Continue st' ->
  st' = persistHashes E
          (mkRunState (world st)
             (<[version := default [] (allMods st !! version)
                           ++ [catalogRecord E modInfo (hashes (world st))]]>
                (allMods st))).
Proof.
  intros Hstep.
  destruct (processEntry_admitted E download_recognized version modFilename modInfo
              st st' Hstep) as (output & modInfo' & w' & Hp & _ & ->).
  unfold processQmod in Hp. rewrite skipping in Hp. injection Hp as <- <- <-.
  reflexivity.
Qed.

Lemma runFiles_skip version files st st' :
  runFiles E version files st = Continue st' ->
  hashes (world st') = hashes (world st)
  ∧ extendsWith isOutputWrite (world st) (world st')
  ∧ (files = [] ∧ allMods st' = allMods st
     ∨ allMods st' !! version
       = Some (default [] (allMods st !! version)
               ++ ((fun entry => catalogRecord E entry.2 (hashes (world st)))
                     <$> files))).
Proof.
  revert st. induction files as [|[modFilename modInfo] files IH]; intros st Hrun;
    cbn [runFiles] in Hrun.
  - simplify_eq. split; [reflexivity|]. split; [apply extendsWith_refl | auto].
  - destruct (processEntry E version (modFilename, modInfo) st) as [st1| |] eqn:Hstep;
      try discriminate.
    apply processEntry_skip in Hstep. subst st1.
    destruct (IH _ Hrun) as (Hh & Hext & Hcat).
    rewrite persistHashes_hashes in Hh. cbn [world] in Hh.
    split; [exact Hh|]. split.
    + eapply extendsWith_trans; [|exact Hext].
      exists [EvWriteFile (hashesPath E)]. split; reflexivity.
    + right. rewrite persistHashes_allMods, persistHashes_hashes in Hcat.
      cbn [allMods world] in Hcat. rewrite lookup_insert_eq in Hcat.
      rewrite fmap_cons. cbn [snd].
      destruct Hcat as [[Hnil Hsame]|Hnew].
      * rewrite Hnil, Hsame. apply lookup_insert_eq.
      * rewrite Hnew. cbn [default from_option id]. rewrite <- app_assoc.
        reflexivity.
Qed.

Lemma runVersions_other tree st st' v :
  v ∉ treeVersions tree ->
  runVersions E tree st = Continue st' ->
  allMods st' !! v = allMods st !! v.
Proof.
  revert st. induction tree as [|[version files] tree IH]; intros st Hv Hrun;
    cbn [runVersions] in Hrun.
  - simplify_eq. reflexivity.
  - unfold treeVersions in Hv. rewrite fmap_cons, not_elem_of_cons in Hv.
    destruct Hv as [Hne Hv]. cbn [fst] in Hne.
    destruct (runFiles E version files (enterVersion E version st)) as [st1| |] eqn:Hfs;
      try discriminate.
    rewrite (IH st1 Hv Hrun).
    destruct (runFiles_catalog E _ _ _ _ Hfs) as (Hother & _).
    rewrite (Hother v Hne). apply enterVersion_other. exact Hne.
Qed.

Lemma runVersions_skip tree st st' :
  NoDup (treeVersions tree) ->
  (∀ v, v ∈ treeVersions tree -> allMods st !! v = None) ->
  runVersions E tree st = Continue st' ->
  hashes (world st') = hashes (world st)
  ∧ extendsWith isOutputWrite (world st) (world st')
  ∧ ∀ version files,
      (version, files) ∈ tree ->
      (inherited E version = false ->
       allMods st' !! version
       = Some ((fun entry => catalogRecord E entry.2 (hashes (world st))) <$> files))
      ∧ (inherited E version = true ->
         files = [] ∧ allMods st' !! version = None).
Proof.
  revert st. induction tree as [|[version files] tree IH]; intros st Hnd Hfresh Hrun;
    cbn [runVersions] in Hrun.
  - simplify_eq. split; [reflexivity|]. split; [apply extendsWith_refl|].
    intros version files Hin. apply elem_of_nil in Hin. contradiction.
  - unfold treeVersions in Hnd, Hfresh. rewrite fmap_cons in Hnd, Hfresh.
    cbn [fst] in *. fold (treeVersions tree) in *.
    apply NoDup_cons in Hnd as [Hnotin Hnd].
    destruct (runFiles E version files (enterVersion E version st)) as [st1| |] eqn:Hfs;
      try discriminate.
    assert (Hnone : allMods st !! version = None)
      by (apply Hfresh, elem_of_cons; auto).
    destruct (runFiles_skip _ _ _ _ Hfs) as (Hh1 & Hext1 & Hcat1).
    destruct (runFiles_catalog E _ _ _ _ Hfs) as (Hother1 & _).
    pose proof (runFiles_keys E _ _ _ _ version Hfs) as Hkeys1.
    rewrite enterVersion_world in Hh1, Hext1, Hcat1.
    destruct (IH st1 Hnd) as (Hh & Hext & Hcat); [|exact Hrun|].
    { intros v Hv. rewrite Hother1 by (intros ->; contradiction).
      rewrite enterVersion_other by (intros ->; contradiction).
      apply Hfresh, elem_of_cons. auto. }
    split; [congruence|]. split; [eapply extendsWith_trans; eauto|].
    intros version' files' Hin. apply elem_of_cons in Hin as [[= -> ->]|Hin].
    + rewrite (runVersions_other _ _ _ _ Hnotin Hrun).
      unfold enterVersion in Hcat1, Hkeys1. rewrite Hnone in Hcat1, Hkeys1.
      split; intros Hinh; rewrite Hinh in Hcat1, Hkeys1; cbn [allMods] in *.
      * rewrite lookup_insert_eq in Hcat1. cbn [default from_option id app] in Hcat1.
        destruct Hcat1 as [[Hnil Hsame]|Hnew];
          [rewrite Hnil, Hsame; apply lookup_insert_eq | exact Hnew].
      * apply Hkeys1 in Hnone. destruct Hcat1 as [[Hnil _]|Hnew];
          [split; [exact Hnil | exact Hnone] | congruence].
    + rewrite Hh1 in Hcat. exact (Hcat _ _ Hin).
Qed.

End SkipRun.

(** X16. A run with [--skipHashes] over distinct game versions that all pass
    validation leaves the Hash Cache as it was loaded, makes no call but the
    writes of its two result files, and admits every mod file: the list of a
    game version has one record per file, in the order of the files, each
    with the hash that the cache as loaded holds under its trimmed download
    URL, if any. A game version named like a property that a plain object
    inherits has no list, and no mod file either when the run completes. *)
Theorem skipHashes_run (E : Env)
    (tree : list (jsstring * list (jsstring * Mod))) (w : World) (st : RunState) :
  skipHashes E = true ->
  "download" ∈ modKeys E ->
  NoDup (treeVersions tree) ->
  run E tree w = Continue st ->
  hashes (world st) = hashes w
  ∧ extendsWith isOutputWrite w (world st)
  ∧ ∀ version files,
      (version, files) ∈ tree ->
      (inherited E version = false ->
       allMods st !! version
       = Some ((fun entry => catalogRecord E entry.2 (hashes w)) <$> files))
      ∧ (inherited E version = true ->
         files = [] ∧ allMods st !! version = None).
Proof.
  unfold run. intros Hskip Hkey Hnd Hrun.
  destruct (runVersions E tree (mkRunState w ∅)) as [st1| |] eqn:Hvs; try discriminate.
  injection Hrun as <-. cbn [world hashes allMods setFsys logEvent].
  destruct (runVersions_skip E Hskip Hkey _ _ _ Hnd (fun v _ => lookup_empty v) Hvs)
    as (Hh & Hext & Hcat).
  split; [exact Hh|]. split; [|exact Hcat].
  eapply extendsWith_trans; [exact Hext|].
  exists [EvMkdir (pathDirname E (allModsPath E)); EvWriteFile (allModsPath E)].
  split; [simpl; rewrite <- app_assoc; reflexivity | reflexivity].
Qed.

(** * Concrete runs for the further properties *)

Lemma junk_run :
  processQmod (serving "junk") foo gameVersion emptyWorld
  = Ok (pushError (lit "Reading archive") (hashedOutput foo (lit "hjunk")),
        foo,
        setFsys (delete fooPath
                   (fsys (logEvent (EvUnlink fooPath)
                            (archiveOpened fooPath
                               (downloaded ∅ "junk" (cachedAs "junk"))))))
          (logEvent (EvUnlink fooPath)
             (archiveOpened fooPath (downloaded ∅ "junk" (cachedAs "junk"))))).
Proof. reflexivity. Qed.

Lemma outcome_hash_is_cached_witness :
  hashes
    (setFsys (delete fooPath
                (fsys (logEvent (EvUnlink fooPath)
                         (archiveOpened fooPath
                            (downloaded ∅ "junk" (cachedAs "junk"))))))
       (logEvent (EvUnlink fooPath)
          (archiveOpened fooPath (downloaded ∅ "junk" (cachedAs "junk")))))
    !! orEmpty (get foo "download")
  = hash (pushError (lit "Reading archive") (hashedOutput foo (lit "hjunk"))).
Proof.
  apply (outcome_hash_is_cached (serving "junk") foo gameVersion emptyWorld _ foo).
  - evaluate.
  - exact junk_run.
Defined.

Lemma outcome_shape_witness :
  length (errors (pushError (lit "Reading archive") (hashedOutput foo (lit "hjunk")))) ≤ 1
  ∧ (errors (pushError (lit "Reading archive") (hashedOutput foo (lit "hjunk"))) ≠ [] ->
     foo = foo
     ∧ warnings (pushError (lit "Reading archive") (hashedOutput foo (lit "hjunk"))) = [])
  ∧ (messages (pushError (lit "Reading archive") (hashedOutput foo (lit "hjunk"))) = []
     ∨ messages (pushError (lit "Reading archive") (hashedOutput foo (lit "hjunk")))
       = [orEmpty (get foo "download")])
  ∧ (hash (pushError (lit "Reading archive") (hashedOutput foo (lit "hjunk"))) = None ->
     skipHashes (serving "junk") = true
     ∨ errors (pushError (lit "Reading archive") (hashedOutput foo (lit "hjunk")))
       = [lit "Not found"]).
Proof.
  exact (outcome_shape (serving "junk") foo gameVersion emptyWorld _ _ _ junk_run).
Defined.

Lemma recheck_dead_is_miss_witness :
  processQmod (env [lit "--recheckUrls"] ∅) foo gameVersion
    (mkWorld {[ fooPath := content "Z1" ]} {[ fooUrl := lit "stale" ]} [])
  = processQmod (env [lit "--recheckUrls"] ∅) foo gameVersion
      (setHashes
         (delete (orEmpty (get foo "download"))
            (hashes (mkWorld {[ fooPath := content "Z1" ]} {[ fooUrl := lit "stale" ]} [])))
         (logEvent (EvCheckUrl (orEmpty (get foo "download")))
            (mkWorld {[ fooPath := content "Z1" ]} {[ fooUrl := lit "stale" ]} []))).
Proof.
  apply (recheck_dead_is_miss (env [lit "--recheckUrls"] ∅) foo gameVersion
           (mkWorld {[ fooPath := content "Z1" ]} {[ fooUrl := lit "stale" ]} [])
           (lit "stale")); evaluate.
Defined.

Example recheck_dead_rehashes :
  hash <$> outcomeOf
    (processQmod (env [lit "--recheckUrls"] ∅) foo gameVersion
       (mkWorld {[ fooPath := content "Z1" ]} {[ fooUrl := lit "stale" ]} []))
  = Some (Some (lit "hZ1")).
Proof. evaluate. Qed.

Lemma local_bare_run :
  processQmod (env [] ∅) foo gameVersion (onDisk {[ fooPath := content "Z0" ]})
  = Ok (pushError (lit "No info json") (hashedOutput foo (lit "hZ0")),
        foo,
        archiveOpened fooPath
          (mkWorld {[ fooPath := content "Z0" ]} (cachedAs "Z0")
             [EvMkdir (lit "/repo/qmods/1.37"); EvReadFile fooPath])).
Proof. reflexivity. Qed.

Lemma no_download_with_local_package_witness :
  extendsWith (fun e => negb (isDownload e)) (onDisk {[ fooPath := content "Z0" ]})
    (archiveOpened fooPath
       (mkWorld {[ fooPath := content "Z0" ]} (cachedAs "Z0")
          [EvMkdir (lit "/repo/qmods/1.37"); EvReadFile fooPath]))
  ∧ ∀ url path,
      EvDownload url path
      ∉ newEvents (onDisk {[ fooPath := content "Z0" ]})
          (archiveOpened fooPath
             (mkWorld {[ fooPath := content "Z0" ]} (cachedAs "Z0")
                [EvMkdir (lit "/repo/qmods/1.37"); EvReadFile fooPath])).
Proof.
  apply (no_download_with_local_package (env [] ∅) foo gameVersion
           (onDisk {[ fooPath := content "Z0" ]}) (content "Z0")
           (pushError (lit "No info json") (hashedOutput foo (lit "hZ0"))) foo).
  - evaluate.
  - exact local_bare_run.
Defined.

Lemma broken_manifest_downloaded :
  packageObtained (serving "Z9") foo gameVersion emptyWorld (lit "hZ9")
    (content "Z9") (downloaded ∅ "Z9" (cachedAs "Z9")).
Proof. foo_downloaded (∅ : gmap jsstring bytes) "Z9". Qed.

Lemma manifest_unreadable_witness :
  processQmod (serving "Z9") foo gameVersion emptyWorld
  = Ok (pushError (lit "Processing " ++ lit "bmbfmod.json")
          (hashedOutput foo (lit "hZ9")),
        foo,
        manifestRead (qmodPathOf (serving "Z9") foo gameVersion) (lit "bmbfmod.json")
          (downloaded ∅ "Z9" (cachedAs "Z9"))).
Proof.
  apply (manifest_unreadable (serving "Z9") foo gameVersion emptyWorld (lit "hZ9")
           (content "Z9") (downloaded ∅ "Z9" (cachedAs "Z9"))
           (archive Init.Byte.x39)
           (mkZipEntry (lit "bmbfmod.json") (content "{"))
           broken_manifest_downloaded); evaluate.
Defined.

Lemma cover_archive_downloaded_fresh :
  packageObtained (serving "Z2") foo gameVersion emptyWorld (lit "hZ2")
    (content "Z2") (downloaded ∅ "Z2" (cachedAs "Z2")).
Proof. foo_downloaded (∅ : gmap jsstring bytes) "Z2". Qed.

Lemma archive_cover_preferred_witness :
  ∃ output modInfo' w',
    processQmod (serving "Z2") (<["cover" := Some (lit "http://x/foo.png")]> foo)
      gameVersion emptyWorld
    = Ok (output, modInfo', w')
    ∧ errors output = []
    ∧ ∀ url, EvFetchBuffer url ∉ newEvents (downloaded ∅ "Z2" (cachedAs "Z2")) w'.
Proof.
  destruct (archive_cover_preferred (serving "Z2")
              (<["cover" := Some (lit "http://x/foo.png")]> foo) gameVersion emptyWorld
              (lit "hZ2") (content "Z2") (downloaded ∅ "Z2" (cachedAs "Z2"))
              (archive Init.Byte.x32) (mkZipEntry (lit "mod.json") (content "cover"))
              (mkManifest (Some (lit "cover.png")) None) (lit "cover.png")
              (content "img"))
    as (output & modInfo' & w' & Hrun & Herr & _ & Hfetch & _).
  - foo_downloaded (∅ : gmap jsstring bytes) "Z2".
  - evaluate.
  - evaluate.
  - evaluate.
  - evaluate.
  - evaluate.
  - vm_compute. discriminate.
  - evaluate.
  - exists output, modInfo', w'. auto.
Defined.

Lemma first_cover_witness :
  ∃ output modInfo' w',
    processQmod (serving "Z2") foo gameVersion emptyWorld = Ok (output, modInfo', w')
    ∧ errors output = []
    ∧ modInfo' = <["cover" := Some (coverUrl (serving "Z2")
                                     (coverFilenameOf (serving "Z2") (lit "hZ2")))]> foo
    ∧ fsys w' !! coverFilenameOf (serving "Z2") (lit "hZ2") = Some (content "img").
Proof.
  destruct (first_cover (serving "Z2") foo gameVersion emptyWorld (lit "hZ2")
              (content "Z2") (downloaded ∅ "Z2" (cachedAs "Z2"))
              (Some (mkZipEntry (lit "cover.png") (content "img")))
              (hashedOutput foo (lit "hZ2"))
              (manifestRead (qmodPathOf (serving "Z2") foo gameVersion) (lit "mod.json")
                 (downloaded ∅ "Z2" (cachedAs "Z2")))
              (content "img")
              (hashedOutput foo (lit "hZ2"))
              (logEvent (EvExtractCover (lit "cover.png"))
                 (manifestRead (qmodPathOf (serving "Z2") foo gameVersion)
                    (lit "mod.json") (downloaded ∅ "Z2" (cachedAs "Z2"))))
              cover_archive_downloaded_fresh)
    as (output & modInfo' & w' & Hrun & Herr & _ & Hsharp).
  - reflexivity.
  - reflexivity.
  - evaluate.
  - change (sharpPng (serving "Z2") (content "img")) with
      (Ok (A := bytes) (content "img")) in Hsharp.
    destruct Hsharp as (_ & Hmod & Hfs).
    exists output, modInfo', w'. repeat split; auto.
    rewrite Hfs. apply lookup_insert_eq.
Defined.

Lemma plain_run :
  processQmod (serving "Z1") foo gameVersion emptyWorld
  = Ok (hashedOutput foo (lit "hZ1"), foo,
        manifestRead fooPath (lit "mod.json") (downloaded ∅ "Z1" (cachedAs "Z1"))).
Proof. reflexivity. Qed.

Lemma second_call_hits_cache_witness :
  ∃ modInfo'',
    processQmod (serving "Z1") foo gameVersion
      (manifestRead fooPath (lit "mod.json") (downloaded ∅ "Z1" (cachedAs "Z1")))
    = Ok (setHash (lit "hZ1") emptyResult, modInfo'',
          manifestRead fooPath (lit "mod.json") (downloaded ∅ "Z1" (cachedAs "Z1")))
    ∧ (modInfo'' = foo ∨ foo = foo).
Proof.
  apply (second_call_hits_cache (serving "Z1") foo gameVersion emptyWorld
           (hashedOutput foo (lit "hZ1")) foo
           (manifestRead fooPath (lit "mod.json") (downloaded ∅ "Z1" (cachedAs "Z1")))
           (lit "hZ1")).
  - evaluate.
  - evaluate.
  - exact plain_run.
  - reflexivity.
Defined.

Lemma catalog_grows_in_file_order_witness :
  finalNames (runFiles (serving "Z1") gameVersion [(fooFile, foo)]
                (mkRunState emptyWorld {[ gameVersion := [] ]})) gameVersion
  = [Some (lit "Foo")]
  ∧ ∀ st',
      runFiles (serving "Z1") gameVersion [(fooFile, foo)] (mkRunState emptyWorld {[ gameVersion := [] ]})
      = Continue st' ->
      ∃ added admitted,
        default [] (allMods st' !! gameVersion)
        = default [] (allMods (mkRunState emptyWorld {[ gameVersion := [] ]}) !! gameVersion) ++ added
        ∧ Forall2 (recordOf (serving "Z1")) added admitted
        ∧ sublist admitted [(fooFile, foo)]
        ∧ length added ≤ length [(fooFile, foo)].
Proof.
  split; [evaluate|]. intros st' Hrun.
  exact (proj2 (catalog_grows_in_file_order (serving "Z1") gameVersion
                  [(fooFile, foo)] (mkRunState emptyWorld {[ gameVersion := [] ]}) st' Hrun)).
Defined.

Lemma catalog_has_every_version_witness :
  finalNames (run (env [] ∅) twoVersions (onDisk {[ fooPathNext := content "Z1" ]}))
    gameVersion
  = []
  ∧ ∀ st,
      run (env [] ∅) twoVersions (onDisk {[ fooPathNext := content "Z1" ]})
      = Continue st ->
      is_Some (allMods st !! gameVersion)
      <-> gameVersion ∈ treeVersions twoVersions
          ∧ inherited (env [] ∅) gameVersion = false.
Proof.
  split; [evaluate|]. intros st Hrun.
  exact (catalog_has_every_version (env [] ∅) twoVersions
           (onDisk {[ fooPathNext := content "Z1" ]}) st gameVersion Hrun).
Defined.

Lemma inherited_version_never_listed_witness :
  runFiles (env [lit "--skipHashes"] ∅) (lit "constructor") [(fooFile, foo)]
    (enterVersion (env [lit "--skipHashes"] ∅) (lit "constructor")
       (mkRunState emptyWorld ∅))
  = Threw pushTypeError
  ∧ match
      runFiles (env [lit "--skipHashes"] ∅) (lit "constructor") [(fooFile, foo)]
        (enterVersion (env [lit "--skipHashes"] ∅) (lit "constructor")
           (mkRunState emptyWorld ∅))
    with
    | Continue st' | Exited _ _ st' => allMods st' = allMods (mkRunState emptyWorld ∅)
    | Threw msg => msg = pushTypeError
    end.
Proof.
  split; [evaluate|].
  apply (inherited_version_never_listed (env [lit "--skipHashes"] ∅)
           (lit "constructor") [(fooFile, foo)] (mkRunState emptyWorld ∅)).
  - evaluate.
  - reflexivity.
Defined.

(** A directory named [constructor]: the run ends by the TypeError when a mod
    of it is admitted, and without it the finished catalog has no such key. *)
Example inherited_version_runs :
  run (env [lit "--skipHashes"] ∅) [(lit "constructor", [(fooFile, foo)])] emptyWorld
  = Threw pushTypeError
  ∧ allMods <$> (match run (env [] ∅) [(lit "constructor", []); (gameVersion, [])]
                         emptyWorld with
                 | Continue st => Some st
                 | _ => None
                 end)
    = Some {[ gameVersion := [] ]}.
Proof. split; evaluate. Qed.

Lemma hashes_file_in_sync_witness :
  finalNames (run (serving "Z1") fooTree emptyWorld) gameVersion = [Some (lit "Foo")]
  ∧ ∀ st,
      run (serving "Z1") fooTree emptyWorld = Continue st ->
      hashesPersisted (serving "Z1") st
      ∧ fsys (world st) !! allModsPath (serving "Z1")
        = Some (stringifyMods (serving "Z1") (allMods st)).
Proof.
  split; [evaluate|]. intros st Hrun.
  apply (hashes_file_in_sync (serving "Z1") fooTree emptyWorld st Hrun).
  - discriminate.
  - decided.
Defined.

Lemma unrelated_cache_entries_kept_witness :
  finalHash
    (run (serving "Z1") fooTree
       (mkWorld ∅ {[ lit "http://x/other.qmod" := lit "abc123" ]} []))
    (lit "http://x/other.qmod")
  = Some (lit "abc123")
  ∧ ∀ st,
      run (serving "Z1") fooTree
        (mkWorld ∅ {[ lit "http://x/other.qmod" := lit "abc123" ]} [])
      = Continue st ->
      hashes (world st) !! lit "http://x/other.qmod"
      = hashes (mkWorld ∅ {[ lit "http://x/other.qmod" := lit "abc123" ]} [])
        !! lit "http://x/other.qmod".
Proof.
  split; [evaluate|]. intros st Hrun.
  apply (unrelated_cache_entries_kept (serving "Z1") fooTree _ st _); [| |exact Hrun].
  - decided.
  - decided.
Defined.

Lemma skipHashes_run_witness :
  finalField (run (env [lit "--skipHashes"] ∅) twoVersions cachedWorld) nextVersion "hash"
  = [Some (lit "abc123")]
  ∧ ∀ st,
      run (env [lit "--skipHashes"] ∅) twoVersions cachedWorld = Continue st ->
      hashes (world st) = hashes cachedWorld
      ∧ extendsWith isOutputWrite cachedWorld (world st)
      ∧ ∀ version files,
          (version, files) ∈ twoVersions ->
          (inherited (env [lit "--skipHashes"] ∅) version = false ->
           allMods st !! version
           = Some ((fun entry =>
                      catalogRecord (env [lit "--skipHashes"] ∅) entry.2
                        (hashes cachedWorld)) <$> files))
          ∧ (inherited (env [lit "--skipHashes"] ∅) version = true ->
             files = [] ∧ allMods st !! version = None).
Proof.
  split; [evaluate|]. intros st Hrun.
  apply (skipHashes_run (env [lit "--skipHashes"] ∅) twoVersions cachedWorld st).
  - evaluate.
  - decided.
  - decided.
  - exact Hrun.
Defined.

(** * Further properties, continued *)

(** ** The cover URL of the mod as fallback (lines 183-188) *)

(** X17. When the archive gives no cover entry, the cover is fetched from
    the mod's cover URL if it has one, and from nowhere otherwise. If the
    fetch is rejected the outcome gains the warning "Error fetching cover
    buffer"; if it is rejected or yields nothing, the call ends there and the
    mod keeps the cover URL it came with; the mod is admitted in every case. *)
Theorem cover_url_fallback (E : Env) (modInfo : Mod) (gameVersion : jsstring)
    (w : World) (h : jsstring) (content : bytes) (w1 : World)
    (output2 : QmodResult) (w2 : World) :
  packageObtained E modInfo gameVersion w h content w1 ->
  inspectArchive E (qmodPathOf E modInfo gameVersion) content
    (hashedOutput modInfo h) w1 = inr (None, output2, w2) ->
  (truthy (get modInfo "cover") = false ->
   processQmod E modInfo gameVersion w = Ok (output2, modInfo, w2))
  ∧ (truthy (get modInfo "cover") = true ->
     match fetchAsBuffer E w2 (orEmpty (get modInfo "cover")) with
     | Throw _ =>
         processQmod E modInfo gameVersion w
         = Ok (pushWarning (lit "Error fetching cover buffer") output2, modInfo,
               logEvent (EvFetchBuffer (orEmpty (get modInfo "cover"))) w2)
     | Ok None =>
         processQmod E modInfo gameVersion w
         = Ok (output2, modInfo,
               logEvent (EvFetchBuffer (orEmpty (get modInfo "cover"))) w2)
     | Ok (Some buffer) =>
         ∃ output modInfo' w',
           processQmod E modInfo gameVersion w = Ok (output, modInfo', w')
           ∧ linkCover E (Some buffer) (coverFilenameOf E h) modInfo output2
               (logEvent (EvFetchBuffer (orEmpty (get modInfo "cover"))) w2)
             = (modInfo', output, w')
     end)
  ∧ ∃ output modInfo' w',
      processQmod E modInfo gameVersion w = Ok (output, modInfo', w')
      ∧ errors output = [].
Proof.
  intros Hpkg Hinspect.
  rewrite (processQmod_after_package _ _ _ _ _ _ _ Hpkg), Hinspect.
  pose proof (inspectArchive_accept _ _ _ _ _ _ _ _ Hinspect) as (_ & _ & Hie & _).
  split; [|split].
  - intros Hc. unfold fetchCoverBuffer. rewrite Hc. reflexivity.
  - intros Hc. unfold fetchCoverBuffer. rewrite Hc.
    destruct (fetchAsBuffer E w2 _) as [[buffer|]|msg]; try reflexivity.
    destruct (linkCover E (Some buffer) _ modInfo output2 _) as [[m4 o4] w4] eqn:Hl.
    exists o4, m4, w4. split; reflexivity.
  - destruct (fetchCoverBuffer E None modInfo output2 w2) as [[buf o3] w3] eqn:Hf.
    destruct (linkCover E buf (coverFilenameOf E h) modInfo o3 w3)
      as [[m4 o4] w4] eqn:Hl.
    exists o4, m4, w4. split; [reflexivity|].
    apply fetchCoverBuffer_frame in Hf as (_ & _ & Hfe & _).
    apply linkCover_frame in Hl as (_ & Hle & _).
    rewrite Hle, Hfe, Hie. reflexivity.
Qed.

Lemma cover_url_fallback_witness :
  processQmod (serving "Z1") (<["cover" := Some (lit "http://x/foo.png")]> foo)
    gameVersion emptyWorld
  = Ok (pushWarning (lit "Error fetching cover buffer")
          (hashedOutput (<["cover" := Some (lit "http://x/foo.png")]> foo) (lit "hZ1")),
        <["cover" := Some (lit "http://x/foo.png")]> foo,
        logEvent
          (EvFetchBuffer (orEmpty (get (<["cover" := Some (lit "http://x/foo.png")]> foo)
                                     "cover")))
          (manifestRead
             (qmodPathOf (serving "Z1") (<["cover" := Some (lit "http://x/foo.png")]> foo)
                gameVersion)
             (lit "mod.json") (downloaded ∅ "Z1" (cachedAs "Z1")))).
Proof.
  destruct (cover_url_fallback (serving "Z1")
              (<["cover" := Some (lit "http://x/foo.png")]> foo) gameVersion emptyWorld
              (lit "hZ1") (content "Z1") (downloaded ∅ "Z1" (cachedAs "Z1"))
              (hashedOutput (<["cover" := Some (lit "http://x/foo.png")]> foo) (lit "hZ1"))
              (manifestRead
                 (qmodPathOf (serving "Z1")
                    (<["cover" := Some (lit "http://x/foo.png")]> foo) gameVersion)
                 (lit "mod.json") (downloaded ∅ "Z1" (cachedAs "Z1"))))
    as (_ & Hurl & _).
  - foo_downloaded (∅ : gmap jsstring bytes) "Z1".
  - reflexivity.
  - apply Hurl. evaluate.
Defined.

(** ** A download that leaves no file (lines 129-135) *)

(** X18. When the download reports a hash but no file is at the package
    path afterwards, the outcome has the single error "Local file not found"
    and carries the hash, which is cached; the archive is not opened and the
    mod record is returned unchanged. *)
Theorem local_file_missing (E : Env) (modInfo : Mod) (gameVersion : jsstring)
    (w w0 : World) (h : jsstring) (disk : gmap jsstring bytes) :
  skipHashes E = false ->
  truthy (get modInfo "id") = true ->
  truthy (get modInfo "version") = true ->
  truthy (get modInfo "download") = true ->
  recheck E (orEmpty (get modInfo "download"))
    (hashes w !! orEmpty (get modInfo "download")) w = (None, w0) ->
  fsys w !! qmodPathOf E modInfo gameVersion = None ->
  downloadFile E (logEvent (EvMkdir (pathDirname E (qmodPathOf E modInfo gameVersion))) w0)
    (orEmpty (get modInfo "download")) (qmodPathOf E modInfo gameVersion)
  = (Some h, disk) ->
  disk !! qmodPathOf E modInfo gameVersion = None ->
  ∃ w',
    processQmod E modInfo gameVersion w
    = Ok (pushError (lit "Local file not found") (hashedOutput modInfo h), modInfo, w')
    ∧ hashes w' !! orEmpty (get modInfo "download") = Some h
    ∧ fsys w' = disk
    ∧ trace w'
      = trace w0 ++ [EvMkdir (pathDirname E (qmodPathOf E modInfo gameVersion));
                     EvDownload (orEmpty (get modInfo "download"))
                       (qmodPathOf E modInfo gameVersion)].
Proof.
  intros Hskip Hid Hver Hdl Hre Hfile Hdown Hgone.
  pose proof (recheck_miss _ _ _ _ Hre) as (_ & Hfs & _).
  unfold processQmod. rewrite Hskip, Hid, Hver, Hdl. cbn [negb]. rewrite Hre.
  cbv zeta. unfold obtainHash. cbn [fsys logEvent]. rewrite Hfs, Hfile, Hdown.
  cbn [fsys setHashes setFsys logEvent]. rewrite Hgone.
  eexists. split; [reflexivity|]. cbn [hashes fsys trace setHashes setFsys logEvent].
  split; [apply lookup_insert_eq|]. split; [reflexivity|].
  rewrite <- app_assoc. reflexivity.
Qed.

Lemma local_file_missing_witness :
  ∃ w',
    processQmod (withDownload (env [] ∅) (fun w _ _ => (Some (lit "h1"), fsys w)))
      foo gameVersion emptyWorld
    = Ok (pushError (lit "Local file not found") (hashedOutput foo (lit "h1")), foo, w')
    ∧ hashes w' !! orEmpty (get foo "download") = Some (lit "h1").
Proof.
  destruct (local_file_missing
              (withDownload (env [] ∅) (fun w _ _ => (Some (lit "h1"), fsys w)))
              foo gameVersion emptyWorld emptyWorld (lit "h1") ∅)
    as (w' & Hrun & Hcached & _); [evaluate ..|].
  exists w'. auto.
Defined.

(** ** A run on a warm cache *)

Section WarmCache.
Variable E : Env.
Hypothesis hashing : skipHashes E = false.
Hypothesis no_recheck : recheckUrls E = false.

Lemma processEntry_warm version (entry : jsstring * Mod) st st' :
  is_Some (hashes (world st) !! entryDownload entry) ->
  processEntry E version entry st = Continue st' ->
  hashes (world st') = hashes (world st)
  ∧ extendsWith isOutputWrite (world st) (world st')
  ∧ length (default [] (allMods st' !! version))
    = S (length (default [] (allMods st !! version))).
Proof.
  destruct entry as [modFilename modInfo]. unfold entryDownload. cbn [snd].
  intros [h Hh] Hstep.
  apply processEntry_continue in Hstep as (Hv & q & m & w' & Hp & ->).
  destruct (processQmod_hit E modInfo version (world st) h hashing no_recheck)
    as (m' & Hhit);
    [apply not_blank_truthy; eapply validate_passed_download; exact Hv | exact Hh|].
  rewrite Hp in Hhit. injection Hhit as -> -> ->.
  rewrite persistHashes_hashes, persistHashes_allMods.
  unfold settle. cbn [errors setHash emptyResult].
  rewrite bool_decide_eq_true_2 by reflexivity. cbn [world hashes allMods].
  split; [reflexivity|]. split.
  - exists [EvWriteFile (hashesPath E)]. split; reflexivity.
  - rewrite lookup_insert_eq. cbn [default from_option id].
    rewrite length_app. cbn [length]. lia.
Qed.

Lemma runFiles_warm version files st st' :
  Forall (fun entry => is_Some (hashes (world st) !! entryDownload entry)) files ->
  runFiles E version files st = Continue st' ->
  hashes (world st') = hashes (world st)
  ∧ extendsWith isOutputWrite (world st) (world st')
  ∧ length (default [] (allMods st' !! version))
    = length (default [] (allMods st !! version)) + length files.
Proof.
  revert st. induction files as [|entry files IH]; intros st Hwarm Hrun;
    cbn [runFiles] in Hrun.
  - simplify_eq. split; [reflexivity|]. split; [apply extendsWith_refl|].
    cbn [length]. lia.
  - apply Forall_cons in Hwarm as [Hentry Hwarm].
    destruct (processEntry E version entry st) as [st1| |] eqn:Hstep; try discriminate.
    destruct (processEntry_warm _ _ _ _ Hentry Hstep) as (Hh1 & Hext1 & Hlen1).
    destruct (IH st1) as (Hh & Hext & Hlen); [rewrite Hh1; exact Hwarm | exact Hrun|].
    split; [congruence|]. split; [eapply extendsWith_trans; eauto|].
    rewrite Hlen, Hlen1. cbn [length]. lia.
Qed.

Lemma runVersions_warm tree st st' :
  NoDup (treeVersions tree) ->
  Forall (fun entry => is_Some (hashes (world st) !! entryDownload entry))
    (treeFiles tree) ->
  runVersions E tree st = Continue st' ->
  hashes (world st') = hashes (world st)
  ∧ extendsWith isOutputWrite (world st) (world st')
  ∧ ∀ version files,
      (version, files) ∈ tree ->
      length (default [] (allMods st' !! version))
      = length (default [] (allMods st !! version)) + length files.
Proof.
  revert st. induction tree as [|[version files] tree IH]; intros st Hnd Hwarm Hrun;
    cbn [runVersions] in Hrun.
  - simplify_eq. split; [reflexivity|]. split; [apply extendsWith_refl|].
    intros version files Hin. apply elem_of_nil in Hin. contradiction.
  - unfold treeVersions in Hnd. rewrite fmap_cons in Hnd. cbn [fst] in Hnd.
    fold (treeVersions tree) in Hnd. apply NoDup_cons in Hnd as [Hnotin Hnd].
    unfold treeFiles in Hwarm. rewrite bind_cons in Hwarm. cbn [snd] in Hwarm.
    fold (treeFiles tree) in Hwarm. apply Forall_app in Hwarm as [Hwf Hwt].
    destruct (runFiles E version files (enterVersion E version st)) as [st1| |] eqn:Hfs;
      try discriminate.
    destruct (runFiles_warm version files (enterVersion E version st) st1)
      as (Hh1 & Hext1 & Hlen1);
      [rewrite enterVersion_world; exact Hwf | exact Hfs|].
    rewrite enterVersion_world in Hh1, Hext1.
    destruct (runFiles_catalog E _ _ _ _ Hfs) as (Hother1 & _).
    destruct (IH st1 Hnd) as (Hh & Hext & Hlen); [rewrite Hh1; exact Hwt | exact Hrun|].
    pose proof (enterVersion_default E version st) as Henter.
    split; [congruence|]. split; [eapply extendsWith_trans; eauto|].
    intros version' files' Hin. apply elem_of_cons in Hin as [[= -> ->]|Hin].
    + rewrite (runVersions_other E _ _ _ _ Hnotin Hrun), Hlen1, Henter. reflexivity.
    + rewrite (Hlen _ _ Hin). f_equal.
      assert (Hne : version' ≠ version).
      { intros ->. apply Hnotin. unfold treeVersions.
        apply (list_elem_of_fmap_2 fst _ _ Hin). }
      rewrite (Hother1 _ Hne), Henter. reflexivity.
Qed.

End WarmCache.

(** X19. A run on a warm cache is offline: without [--skipHashes] and
    [--recheckUrls], over distinct game versions, when the cache as loaded
    has an entry under the download URL of every mod file, a run that
    completes makes no call but the writes of its two result files (nothing
    is downloaded, opened or encoded), leaves the Hash Cache as it was and
    admits every mod file. *)
Theorem warm_cache_run (E : Env)
    (tree : list (jsstring * list (jsstring * Mod))) (w : World) (st : RunState) :
  skipHashes E = false ->
  recheckUrls E = false ->
  NoDup (treeVersions tree) ->
  Forall (fun entry => is_Some (hashes w !! entryDownload entry)) (treeFiles tree) ->
  run E tree w = Continue st ->
  hashes (world st) = hashes w
  ∧ extendsWith isOutputWrite w (world st)
  ∧ ∀ version files,
      (version, files) ∈ tree ->
      length (default [] (allMods st !! version)) = length files.
Proof.
  unfold run. intros Hskip Hre Hnd Hwarm Hrun.
  destruct (runVersions E tree (mkRunState w ∅)) as [st1| |] eqn:Hvs; try discriminate.
  injection Hrun as <-. cbn [world hashes allMods setFsys logEvent].
  destruct (runVersions_warm E Hskip Hre tree (mkRunState w ∅) st1 Hnd Hwarm Hvs)
    as (Hh & Hext & Hlen).
  split; [exact Hh|]. split.
  - eapply extendsWith_trans; [exact Hext|].
    exists [EvMkdir (pathDirname E (allModsPath E)); EvWriteFile (allModsPath E)].
    split; [simpl; rewrite <- app_assoc; reflexivity | reflexivity].
  - intros version files Hin. rewrite (Hlen _ _ Hin). cbn [allMods].
    rewrite lookup_empty. reflexivity.
Qed.

Lemma warm_cache_run_witness :
  finalNames (run (env [] ∅) twoVersions cachedWorld) nextVersion = [Some (lit "Foo")]
  ∧ ∀ st,
      run (env [] ∅) twoVersions cachedWorld = Continue st ->
      hashes (world st) = hashes cachedWorld
      ∧ extendsWith isOutputWrite cachedWorld (world st)
      ∧ ∀ version files,
          (version, files) ∈ twoVersions ->
          length (default [] (allMods st !! version)) = length files.
Proof.
  split; [evaluate|]. intros st Hrun.
  apply (warm_cache_run (env [] ∅) twoVersions cachedWorld st).
  - evaluate.
  - evaluate.
  - decided.
  - decided.
  - exact Hrun.
Defined.
